(** * jrSortTable 1.2.1: a shallow embedding of the column sort engine

    The development follows [jrSortTable_1.2.1.js] top to bottom:

    - the part of the JavaScript runtime the script relies on (strings,
      numbers, [parseFloat], [parseInt], [Number], regular expressions,
      [Array.prototype.sort], the DOM operations on rows and spans);
    - the comparator registry [jrSortTables.sort_functions], with its
      shared closure variables;
    - [jrSortTables.getElementText], [guessDataType], [getSortFn],
      [prepareTables] and [jrSortTables.setup];
    - [jrSortTables.sort];
    - the properties of the specification, proved or refuted on these
      definitions;
    - further properties of the code.

    Text is [String.string]; a character stands for the UTF-16 code unit
    of the same number, so the keys covered are those over U+0000..U+00FF. *)

From Stdlib Require Import ZArith QArith Qround Qabs Ascii String List Bool Lia.
From Stdlib Require Import Sorting.Sorted Sorting.Permutation DecimalString.
From Stdlib Require DecimalNat.
From stdpp Require Import gmap strings list.

Local Open Scope Z_scope.

(** ** Characters *)

Definition code (c : ascii) : N := N_of_ascii c.

(** [\d] *)
Definition is_digit (c : ascii) : bool :=
  ((48 <=? code c) && (code c <=? 57))%N.

(** [\D] *)
Definition is_non_digit (c : ascii) : bool := negb (is_digit c).

(** LineTerminator: LF and CR (U+2028 and U+2029 lie outside the range). *)
Definition is_line_terminator (c : ascii) : bool :=
  ((code c =? 10) || (code c =? 13))%N.

(** [\s], which is also StrWhiteSpaceChar: TAB, LF, VT, FF, CR, SP, NBSP. *)
Definition is_space (c : ascii) : bool :=
  (((9 <=? code c) && (code c <=? 13)) || (code c =? 32) || (code c =? 160))%N.

(** [.] without the [s] flag *)
Definition is_dot (c : ascii) : bool := negb (is_line_terminator c).

Definition is_char (x : ascii) (c : ascii) : bool := Ascii.eqb x c.

Definition digit_val (c : ascii) : Z := Z.of_N (code c) - 48.

(** ** Numbers

    A Number is NaN, an infinity or a finite binary64 value, kept as the
    rational it denotes.  The two zeros are not told apart: no comparison
    in the script can see the difference. *)

Inductive number : Type :=
| NaN
| Infinity (negative : bool)
| Finite (q : Q).

(** floor(log2 q) for q > 0 *)
Definition floor_log2 (q : Q) : Z :=
  let k := Z.log2 (Qnum q) - Z.log2 (Zpos (Qden q)) in
  if Qle_bool (2 ^ k) q then k else k - 1.

(** Nearest integer to q >= 0, ties to even. *)
Definition round_ties_even (q : Q) : Z :=
  let f := Qfloor q in
  match Qcompare (q - inject_Z f) (1 # 2) with
  | Lt => f
  | Gt => f + 1
  | Eq => if Z.even f then f else f + 1
  end.

(** The Number value for a real: IEEE 754 binary64, roundTiesToEven, with
    gradual underflow (the unit in the last place never goes below 2^-1074)
    and overflow to an infinity from 2^1024 on. *)
Definition binary64 (q : Q) : number :=
  if Qeq_bool q 0 then Finite 0
  else
    let a := Qabs q in
    let ulp := (2 ^ Z.max (floor_log2 a - 52) (-1074))%Q in
    let v := (inject_Z (round_ties_even (a / ulp)) * ulp)%Q in
    let neg := negb (Qle_bool 0 q) in
    if Qle_bool (2 ^ 1024) v then Infinity neg
    else Finite (Qred (if neg then - v else v)).

Definition of_Z (z : Z) : number := binary64 (inject_Z z).

(** [x - y] on Numbers *)
Definition js_sub (x y : number) : number :=
  match x, y with
  | NaN, _ => NaN
  | _, NaN => NaN
  | Infinity s, Infinity t => if Bool.eqb s t then NaN else Infinity s
  | Infinity s, Finite _ => Infinity s
  | Finite _, Infinity t => Infinity (negb t)
  | Finite p, Finite q => binary64 (p - q)
  end.

(** [x > y] on Numbers *)
Definition js_gt (x y : number) : bool :=
  match x, y with
  | NaN, _ => false
  | _, NaN => false
  | Infinity s, Infinity t => negb s && t
  | Infinity s, Finite _ => negb s
  | Finite _, Infinity t => t
  | Finite p, Finite q => negb (Qle_bool p q)
  end.

Definition is_nan (x : number) : bool :=
  match x with NaN => true | _ => false end.

Definition is_negative (x : number) : bool :=
  match x with
  | NaN => false
  | Infinity s => s
  | Finite q => negb (Qle_bool 0 q)
  end.

Definition is_zero (x : number) : bool :=
  match x with
  | Finite q => Qeq_bool q 0
  | _ => false
  end.

Definition is_positive (x : number) : bool :=
  match x with
  | NaN => false
  | Infinity s => negb s
  | Finite q => negb (Qle_bool q 0)
  end.

(** ** Values held by the script's variables *)

Inductive value : Type :=
| Undefined
| Str (s : string)
| Num (n : number).

(** [typeof v] *)
Definition typeof (v : value) : string :=
  match v with
  | Undefined => "undefined"
  | Str _ => "string"
  | Num _ => "number"
  end.

(** ** Strings *)

(** Drop the leading characters that satisfy [p]. *)
Fixpoint drop_while (p : ascii -> bool) (s : string) : string :=
  match s with
  | String c s' => if p c then drop_while p s' else s
  | EmptyString => EmptyString
  end.

Fixpoint string_rev_append (s acc : string) : string :=
  match s with
  | String c s' => string_rev_append s' (String c acc)
  | EmptyString => acc
  end.

Definition string_rev (s : string) : string := string_rev_append s "".

Fixpoint string_filter (p : ascii -> bool) (s : string) : string :=
  match s with
  | String c s' => if p c then String c (string_filter p s') else string_filter p s'
  | EmptyString => EmptyString
  end.

Fixpoint string_forall (p : ascii -> bool) (s : string) : bool :=
  match s with
  | String c s' => p c && string_forall p s'
  | EmptyString => true
  end.

(** [s.substr(start, len)] for non-negative arguments *)
Definition substr (s : string) (start len : nat) : string := substring start len s.

(** [a < b] on strings: code unit order *)
Definition str_lt (a b : string) : bool := String.ltb a b.

(** Strip StrWhiteSpaceChar at both ends. *)
Definition trim (s : string) : string :=
  string_rev (drop_while is_space (string_rev (drop_while is_space s))).

(** *** Numeric literals *)

(** Reads a run of decimal digits: value so far, number of digits read,
    remaining text. *)
Fixpoint scan_digits (s : string) (acc : Z) (n : nat) : Z * nat * string :=
  match s with
  | String c s' =>
      if is_digit c then scan_digits s' (10 * acc + digit_val c) (S n)
      else (acc, n, s)
  | EmptyString => (acc, n, s)
  end.

(** ExponentPart, when a complete one starts the text: its value and the
    rest; otherwise exponent 0 and the text untouched. *)
Definition scan_exponent (s : string) : Z * string :=
  match s with
  | String c s1 =>
      if is_char "e" c || is_char "E" c then
        let '(neg, s2) :=
          match s1 with
          | String "-" t => (true, t)
          | String "+" t => (false, t)
          | _ => (false, s1)
          end in
        let '(e, n, rest) := scan_digits s2 0 0 in
        match n with
        | O => (0, s)
        | _ => (if neg then - e else e, rest)
        end
      else (0, s)
  | EmptyString => (0, s)
  end.

(** A magnitude read from text: an exact real or the literal [Infinity]. *)
Inductive magnitude : Type :=
| MInf
| MReal (q : Q).

(** The longest prefix that is a StrUnsignedDecimalLiteral:
    [Infinity], [D+ . D* Exp?], [. D+ Exp?] or [D+ Exp?]. *)
Definition scan_unsigned_decimal (s : string) : option (magnitude * string) :=
  if String.prefix "Infinity" s then
    Some (MInf, substring 8 (String.length s - 8) s)
  else
    let '(ip, ni, r1) := scan_digits s 0 0 in
    let '(fp, nf, r2) :=
      match r1 with
      | String "." t => scan_digits t 0 0
      | _ => (0, O, r1)
      end in
    let r2 := match r1 with
              | String "." t => r2
              | _ => r1
              end in
    match ni, nf with
    | O, O => None
    | _, _ =>
        let m := (inject_Z ip + inject_Z fp / inject_Z (10 ^ Z.of_nat nf))%Q in
        let '(e, r3) := scan_exponent r2 in
        Some (MReal (m * 10 ^ e)%Q, r3)
    end.

Definition signed (neg : bool) (m : magnitude) : number :=
  match m with
  | MInf => Infinity neg
  | MReal q => binary64 (if neg then - q else q)
  end.

(** The longest prefix that is a StrDecimalLiteral (an optional sign, then
    an unsigned literal). *)
Definition scan_decimal (s : string) : option (number * string) :=
  let '(neg, t) :=
    match s with
    | String "-" t => (true, t)
    | String "+" t => (false, t)
    | _ => (false, s)
    end in
  match scan_unsigned_decimal t with
  | Some (m, rest) => Some (signed neg m, rest)
  | None => None
  end.

(** [parseFloat(s)] *)
Definition parseFloat (s : string) : number :=
  match scan_decimal (drop_while is_space s) with
  | Some (x, _) => x
  | None => NaN
  end.

(** [parseInt(s, 10)] *)
Definition parseInt10 (s : string) : number :=
  let t := drop_while is_space s in
  let '(neg, t) :=
    match t with
    | String "-" u => (true, u)
    | String "+" u => (false, u)
    | _ => (false, t)
    end in
  let '(v, n, _) := scan_digits t 0 0 in
  match n with
  | O => NaN
  | _ => of_Z (if neg then - v else v)
  end.

(** Digits of a NonDecimalIntegerLiteral. *)
Definition radix_digit (radix : Z) (c : ascii) : option Z :=
  let n := Z.of_N (code c) in
  let d :=
    if is_digit c then n - 48
    else if (97 <=? n) && (n <=? 102) then n - 87
    else if (65 <=? n) && (n <=? 70) then n - 55
    else radix in
  if d <? radix then Some d else None.

Fixpoint scan_radix (radix : Z) (s : string) (acc : Z) : option Z :=
  match s with
  | String c s' =>
      match radix_digit radix c with
      | Some d => scan_radix radix s' (radix * acc + d)
      | None => None
      end
  | EmptyString => Some acc
  end.

Definition non_decimal (radix : Z) (digits : string) : number :=
  match digits with
  | EmptyString => NaN
  | _ => match scan_radix radix digits 0 with
         | Some v => of_Z v
         | None => NaN
         end
  end.

(** [Number(s)]: the text, white space at both ends apart, must be empty
    or one whole StrNumericLiteral. *)
Definition string_to_number (s : string) : number :=
  match trim s with
  | EmptyString => Finite 0
  | String "0" (String "x" d) | String "0" (String "X" d) => non_decimal 16 d
  | String "0" (String "o" d) | String "0" (String "O" d) => non_decimal 8 d
  | String "0" (String "b" d) | String "0" (String "B" d) => non_decimal 2 d
  | t => match scan_decimal t with
         | Some (x, EmptyString) => x
         | _ => NaN
         end
  end.

(** ToNumber *)
Definition to_number (v : value) : number :=
  match v with
  | Undefined => NaN
  | Str s => string_to_number s
  | Num n => n
  end.

(** [isNaN(v)] *)
Definition isNaN (v : value) : bool := is_nan (to_number v).

(** ** Regular expressions

    A backtracking matcher for the fragment of the RegExp syntax the script
    uses.  [rx r i s c k] matches [r] against the input whose remaining
    text is [s], at index [i], with the captures [c], and hands the state
    after the match to the continuation [k]; a [None] from the
    continuation makes the matcher try its next alternative. *)

Module RegExp.

Inductive regex : Type :=
| Eps
| Bol                                  (* ^ *)
| Eol                                  (* $ *)
| Cls (p : ascii -> bool)              (* a character or a class *)
| Seq (r1 r2 : regex)
| Alt (r1 r2 : regex)                  (* r1|r2 *)
| Star (greedy : bool) (r : regex)     (* r* and r*? *)
| Grp (j : nat) (r : regex).           (* capture group j *)

Definition chr (a : ascii) : regex := Cls (is_char a).
Definition opt (r : regex) : regex := Alt r Eps.           (* r? *)
Definition plus (r : regex) : regex := Seq r (Star true r). (* r+ *)
Definition cat (rs : list regex) : regex := foldr Seq Eps rs.

(** The text of [s] as a pattern without special characters. *)
Fixpoint lit (s : string) : regex :=
  match s with
  | String a s' => Seq (chr a) (lit s')
  | EmptyString => Eps
  end.

(** [r1|r2|...|rn] *)
Fixpoint alts (rs : list regex) : regex :=
  match rs with
  | [] => Eps
  | [r] => r
  | r :: rs' => Alt r (alts rs')
  end.

Definition captures : Type := list (nat * string).

Definition or_else {R : Type} (x : option R) (y : option R) : option R :=
  match x with
  | Some _ => x
  | None => y
  end.

(** The iterations of a quantifier: [step] matches the quantified
    pattern once, and an iteration that consumes nothing is refused.
    [n] bounds the number of iterations; the length of the remaining
    text is enough. *)
Fixpoint star_loop {R : Type}
    (step : nat -> string -> captures -> (nat -> string -> captures -> option R) -> option R)
    (greedy : bool) (k : nat -> string -> captures -> option R)
    (n : nat) (i : nat) (s : string) (c : captures) {struct n} : option R :=
  match n with
  | O => k i s c
  | S n' =>
      let again i' s' c' :=
        if Nat.ltb i i' then star_loop step greedy k n' i' s' c' else None in
      if greedy then or_else (step i s c again) (k i s c)
      else or_else (k i s c) (step i s c again)
  end.

Fixpoint rx {R : Type} (r : regex) (i : nat) (s : string) (c : captures)
    (k : nat -> string -> captures -> option R) {struct r} : option R :=
  match r with
  | Eps => k i s c
  | Bol => if Nat.eqb i 0 then k i s c else None
  | Eol => match s with
           | EmptyString => k i s c
           | String _ _ => None
           end
  | Cls p => match s with
             | String a s' => if p a then k (S i) s' c else None
             | EmptyString => None
             end
  | Seq r1 r2 => rx r1 i s c (fun i' s' c' => rx r2 i' s' c' k)
  | Alt r1 r2 => or_else (rx r1 i s c k) (rx r2 i s c k)
  | Star g r1 => star_loop (rx r1) g k (String.length s) i s c
  | Grp j r1 =>
      rx r1 i s c (fun i' s' c' => k i' s' ((j, substring 0 (i' - i) s) :: c'))
  end.

(** The result of a successful match: where it starts, the matched text
    and the captures. *)
Record found : Type := { index : nat; matched : string; groups : captures }.

Definition match_at (r : regex) (i : nat) (s : string) : option found :=
  rx r i s [] (fun i' _ c =>
    Some {| index := i; matched := substring 0 (i' - i) s; groups := c |}).

Fixpoint exec_from (r : regex) (i : nat) (s : string) : option found :=
  match match_at r i s with
  | Some f => Some f
  | None => match s with
            | String _ s' => exec_from r (S i) s'
            | EmptyString => None
            end
  end.

(** [r.exec(s)] and [s.match(r)] for a pattern without the [g] flag *)
Definition exec (r : regex) (s : string) : option found := exec_from r 0 s.

(** [found[j]] *)
Fixpoint group (j : nat) (c : captures) : string :=
  match c with
  | (j', t) :: c' => if Nat.eqb j j' then t else group j c'
  | [] => ""
  end.

(** [s.search(r)] *)
Definition search (r : regex) (s : string) : Z :=
  match exec r s with
  | Some f => Z.of_nat (index f)
  | None => -1
  end.

(** [s.replace(r, rep)] for a pattern with the [g] flag and a replacement
    text without [$]: [i] is the index of [s] in the whole input, [n]
    bounds the number of steps. *)
Fixpoint replace_from (n : nat) (r : regex) (rep : string) (i : nat) (s : string) : string :=
  match n with
  | O => s
  | S n' =>
      let skip :=
        match s with
        | String a s' => String a (replace_from n' r rep (S i) s')
        | EmptyString => EmptyString
        end in
      match match_at r i s with
      | Some f =>
          let len := String.length (matched f) in
          match len with
          | O => rep +:+ skip
          | _ => rep +:+ replace_from n' r rep (i + len)
                           (substring len (String.length s - len) s)
          end
      | None => skip
      end
  end.

Definition replace_all (r : regex) (rep : string) (s : string) : string :=
  replace_from (S (String.length s)) r rep 0 s.

(** [s.replace(r, rep)] for a pattern without the [g] flag *)
Definition replace_first (r : regex) (rep : string) (s : string) : string :=
  match exec r s with
  | Some f =>
      let stop := (index f + String.length (matched f))%nat in
      substring 0 (index f) s +:+ rep +:+ substring stop (String.length s - stop) s
  | None => s
  end.

End RegExp.

Import RegExp.

(** ** Control: state and exceptions

    A computation over a store [S] returns a value or throws, and leaves a
    store behind either way. *)

Inductive exn : Type := TypeError.

Inductive outcome (S A : Type) : Type :=
| Returned (a : A) (s : S)
| Thrown (e : exn) (s : S).
Arguments Returned {S A} a s.
Arguments Thrown {S A} e s.

Definition M (S A : Type) : Type := S -> outcome S A.

Definition ret {S A : Type} (a : A) : M S A := fun s => Returned a s.

Definition bind {S A B : Type} (m : M S A) (k : A -> M S B) : M S B :=
  fun s => match m s with
           | Returned a s' => k a s'
           | Thrown e s' => Thrown e s'
           end.

Definition throw {S A : Type} (e : exn) : M S A := fun s => Thrown e s.

Definition gets {S A : Type} (f : S -> A) : M S A := fun s => Returned (f s) s.

Definition modify {S : Type} (f : S -> S) : M S unit := fun s => Returned tt (f s).

Declare Scope js_scope.
Delimit Scope js_scope with js.
Notation "x <- m ;; k" := (bind m (fun x => k))
  (at level 100, m at next level, right associativity) : js_scope.
Notation "m ;; k" := (bind m (fun _ => k))
  (at level 100, right associativity) : js_scope.
Local Open Scope js_scope.

(** Runs a computation on a part [P] of the store [S]. *)
Definition zoom {S P A : Type} (get : S -> P) (set : P -> S -> S) (m : M P A) : M S A :=
  fun s => match m (get s) with
           | Returned a p => Returned a (set p s)
           | Thrown e p => Thrown e (set p s)
           end.

(** The value a computation returns, if it returns. *)
Definition result {S A : Type} (o : outcome S A) : option A :=
  match o with
  | Returned a _ => Some a
  | Thrown _ _ => None
  end.

Definition final {S A : Type} (o : outcome S A) : S :=
  match o with
  | Returned _ s => s
  | Thrown _ s => s
  end.

(** ** Rows

    A row is a DOM node: [row_id] is its identity, [cells] the
    [textContent] of its cells, left to right. *)

Record Row : Type := { row_id : nat; cells : list string }.

(** An element of [currentSortedTBody]: ['the key for sorting', row]. *)
Definition entry : Type := string * Row.

(** ** jrSortTables.sort_functions *)

(** [let aa, bb, tmpa, tmpb, date1, date2;] *)
Record Closure : Type := mkClosure {
  aa : value; bb : value; tmpa : value; tmpb : value;
  date1 : value; date2 : value
}.

Definition set_aa (v : value) : M Closure unit :=
  modify (fun c => mkClosure v (bb c) (tmpa c) (tmpb c) (date1 c) (date2 c)).
Definition set_bb (v : value) : M Closure unit :=
  modify (fun c => mkClosure (aa c) v (tmpa c) (tmpb c) (date1 c) (date2 c)).
Definition set_tmpa (v : value) : M Closure unit :=
  modify (fun c => mkClosure (aa c) (bb c) v (tmpb c) (date1 c) (date2 c)).
Definition set_tmpb (v : value) : M Closure unit :=
  modify (fun c => mkClosure (aa c) (bb c) (tmpa c) v (date1 c) (date2 c)).
Definition set_date1 (v : value) : M Closure unit :=
  modify (fun c => mkClosure (aa c) (bb c) (tmpa c) (tmpb c) v (date2 c)).
Definition set_date2 (v : value) : M Closure unit :=
  modify (fun c => mkClosure (aa c) (bb c) (tmpa c) (tmpb c) (date1 c) v).

(** The receiver of a String method: anything but a string has no
    [search], [substr] or [replace], and the call throws. *)
Definition this_string {S : Type} (v : value) : M S string :=
  match v with
  | Str s => ret s
  | _ => throw TypeError
  end.

(** [v.length], as the condition of [?:]: true for a non-empty string,
    false for an empty one and for a number (which has no [length]);
    reading it off [undefined] throws. *)
Definition has_length {S : Type} (v : value) : M S bool :=
  match v with
  | Str s => ret (negb (Nat.eqb (String.length s) 0))
  | Num _ => ret false
  | Undefined => throw TypeError
  end.

(** [parseFloat(v)]: the argument goes through ToString first, which
    gives ["undefined"] for [undefined] and for a number a text that
    reads back as the same number. *)
Definition parseFloat_value (v : value) : number :=
  match v with
  | Str s => parseFloat s
  | Num n => n
  | Undefined => NaN
  end.

(** [v === w] *)
Definition strict_eq (v w : value) : bool :=
  match v, w with
  | Undefined, Undefined => true
  | Str s, Str t => String.eqb s t
  | Num (Finite p), Num (Finite q) => Qeq_bool p q
  | Num (Infinity s), Num (Infinity t) => Bool.eqb s t
  | _, _ => false
  end.

(** [v < w]: code unit order on two strings, numeric order otherwise. *)
Definition js_lt (v w : value) : bool :=
  match v, w with
  | Str s, Str t => str_lt s t
  | _, _ => js_gt (to_number w) (to_number v)
  end.

(** [/^0+.*$/] *)
Definition re_leading_zero : regex :=
  cat [Bol; plus (chr "0"); Star true (Cls is_dot); Eol].

(** [/[^\d.-]+/g] *)
Definition re_not_number_JS : regex :=
  plus (Cls (fun c => negb (is_digit c || is_char "." c || is_char "-" c))).

(** [/[^\d,-]+/g] *)
Definition re_not_number_nonJS : regex :=
  plus (Cls (fun c => negb (is_digit c || is_char "," c || is_char "-" c))).

(** [/,/] and [/,/g] *)
Definition re_comma : regex := chr ",".

(** [/\./g] *)
Definition re_period : regex := chr ".".

Section SortFunctions.

(** [String.prototype.localeCompare] under the host's default locale:
    negative, zero or positive. *)
Variable localeCompare : string -> string -> Z.

Definition alphaNumeric (a b : entry) : M Closure number :=
  set_aa (Str a.1) ;;
  set_bb (Str b.1) ;;
  va <- gets aa ;;
  sa <- this_string va ;;
  (if search re_leading_zero sa =? 0 then
     (* parseFloat('0123') returns 123 which is bad because we'd need '0123'. *)
     v <- gets aa ;;
     set_tmpa v
   else
     v <- gets aa ;;
     nonempty <- has_length v ;;
     if nonempty then
       v <- gets aa ;;
       set_tmpa (Num (parseFloat_value v)) ;;
       (if isNaN (Num (parseFloat_value v)) then v <- gets aa ;; set_tmpa v
        else v <- gets tmpa ;; set_tmpa v)
     else set_tmpa (Num (Finite 0))) ;;
  vb <- gets bb ;;
  sb <- this_string vb ;;
  (if search re_leading_zero sb =? 0 then
     v <- gets bb ;;
     set_tmpb v
   else
     v <- gets bb ;;
     nonempty <- has_length v ;;
     if nonempty then
       v <- gets bb ;;
       set_tmpb (Num (parseFloat_value v)) ;;
       (if isNaN (Num (parseFloat_value v)) then v <- gets bb ;; set_tmpb v
        else v <- gets tmpb ;; set_tmpb v)
     else set_tmpb (Num (Finite 0))) ;;
  x <- gets tmpa ;;
  y <- gets tmpb ;;
  match x, y with
  | Str s, Str t =>
      (* Take accented and case-sensitive chars into account *)
      ret (of_Z (localeCompare s t))
  | Num m, Num n => ret (js_sub m n)
  | _, _ =>
      (* In case of different types, number < object < string *)
      ret (if str_lt (typeof x) (typeof y) then of_Z (-1) else of_Z 1)
  end.

(** [v.substr(6, 4) + v.substr(3, 2) + v.substr(0, 2)] *)
Definition yyyymmdd (v : value) : M Closure value :=
  s <- this_string v ;;
  ret (Str (substr s 6 4 +:+ substr s 3 2 +:+ substr s 0 2)).

(** [v.substr(6, 4) + v.substr(0, 2) + v.substr(3, 2)] *)
Definition yyyymmdd_American (v : value) : M Closure value :=
  s <- this_string v ;;
  ret (Str (substr s 6 4 +:+ substr s 0 2 +:+ substr s 3 2)).

(** The common tail of the two date comparators. *)
Definition compare_dates : M Closure number :=
  d1 <- gets date1 ;;
  d2 <- gets date2 ;;
  if strict_eq d1 d2 then ret (of_Z 0)
  else if js_lt d1 d2 then ret (of_Z (-1))
  else ret (of_Z 1).

Definition sortDate (a b : entry) : M Closure number :=
  set_aa (Str a.1) ;;
  set_bb (Str b.1) ;;
  va <- gets aa ;;
  d1 <- yyyymmdd va ;;
  set_date1 d1 ;;
  vb <- gets bb ;;
  d2 <- yyyymmdd vb ;;
  set_date2 d2 ;;
  compare_dates.

Definition sortDate_American (a b : entry) : M Closure number :=
  set_aa (Str a.1) ;;
  set_bb (Str b.1) ;;
  va <- gets aa ;;
  d1 <- yyyymmdd_American va ;;
  set_date1 d1 ;;
  vb <- gets bb ;;
  d2 <- yyyymmdd_American vb ;;
  set_date2 d2 ;;
  compare_dates.

(** [if (isNaN(aa)) { aa = 0; } if (isNaN(bb)) { bb = 0; } return aa - bb;] *)
Definition subtract_numbers : M Closure number :=
  va <- gets aa ;;
  (if isNaN va then set_aa (Num (Finite 0)) else ret tt) ;;
  vb <- gets bb ;;
  (if isNaN vb then set_bb (Num (Finite 0)) else ret tt) ;;
  x <- gets aa ;;
  y <- gets bb ;;
  ret (js_sub (to_number x) (to_number y)).

Definition sortNumberJS (a b : entry) : M Closure number :=
  set_aa (Str (replace_all re_comma "" (replace_all re_not_number_JS "" a.1))) ;;
  set_bb (Str (replace_all re_comma "" (replace_all re_not_number_JS "" b.1))) ;;
  subtract_numbers.

Definition sortNumber_nonJS (a b : entry) : M Closure number :=
  set_aa (Str (replace_all re_period "" (replace_all re_not_number_nonJS "" a.1))) ;;
  set_bb (Str (replace_all re_period "" (replace_all re_not_number_nonJS "" b.1))) ;;
  (* Then exchange the decimal separator (comma) to a dot. *)
  va <- gets aa ;;
  sa <- this_string va ;;
  set_aa (Str (replace_first re_comma "." sa)) ;;
  vb <- gets bb ;;
  sb <- this_string vb ;;
  set_bb (Str (replace_first re_comma "." sb)) ;;
  subtract_numbers.

(** The functions of the registry, as objects with an identity. *)
Inductive comparator : Type :=
| AlphaNumeric
| SortDate
| SortDate_American
| SortNumberJS
| SortNumber_nonJS.

(** Calling a function of the registry. *)
Definition call (f : comparator) : entry -> entry -> M Closure number :=
  match f with
  | AlphaNumeric => alphaNumeric
  | SortDate => sortDate
  | SortDate_American => sortDate_American
  | SortNumberJS => sortNumberJS
  | SortNumber_nonJS => sortNumber_nonJS
  end.

(** The registry object: its own properties, in creation order. *)
Definition sort_functions : list (string * comparator) :=
  [ ("alphaNumeric", AlphaNumeric);
    ("sortDate", SortDate);
    ("sortDate_American", SortDate_American);
    ("sortNumberJS", SortNumberJS);
    ("sortNumber_nonJS", SortNumber_nonJS) ].

(** [sortFunctions[name]] *)
Fixpoint property (name : string) (o : list (string * comparator)) : option comparator :=
  match o with
  | (n, f) :: o' => if String.eqb name n then Some f else property name o'
  | [] => None
  end.

End SortFunctions.

(** ** The document and the script's tables *)

(** ['up'] and ['down'] *)
Inductive direction : Type := up | down.

(** The [tblNumber] argument: a number, or [undefined] when the caller
    passes nothing. *)
Definition tblNumber : Type := option nat.

(** ["" + tblNumber] *)
Definition tblNumber_to_string (k : tblNumber) : string :=
  match k with
  | Some n => NilEmpty.string_of_uint (Nat.to_uint n)
  | None => "undefined"
  end.

(** A header cell: a [th] element of [thead.rows[0]] or [tfoot.rows[0]].
    [className] is its attribute; the other fields are the properties the
    script hangs on the element, absent ([None], and [false] for the flag
    [isSorted], which is only ever tested for truth) until it writes them.
    [onclick] names the handler by the [tblNumber] it closes over. *)
Record HeaderCell : Type := {
  className : string;
  sortfn : option comparator;
  sortdir : option direction;
  isSorted : bool;
  currentSortedTBody : option (list entry);
  onclick : option tblNumber
}.

(** What [headerCells] refers to: the fresh array [[]], or the live
    collection [.cells] of a header row. *)
Inductive cells_ref : Type :=
| no_cells
| cells_of (header_row : nat).

(** An element of [jrSortTables.tableProp]; [tbody] refers to a tbody
    element of the document. *)
Record TableProp : Type := {
  headerCells : cells_ref;
  spanArrowId : string;
  tbody : nat
}.

(** A [th] element as an argument: the header row it sits in and its
    [cellIndex]. *)
Record th_ref : Type := { th_row : nat; cellIndex : nat }.

(** The arrow: a [span] element, child of a header cell. *)
Record Span : Type := { parentNode : th_ref; innerHTML : string }.

(** A table element: its [tHead] (through [rows[0]]), [tBodies[0]] and
    [tFoot] (through [rows[0]]), as references into the document. *)
Record TableElem : Type := { tHead : nat; tBody : nat; tFoot : option nat }.

(** The store: the closure of the registry, [jrSortTables.tableProp], and
    the document (header rows, tbody elements with their rows, and the
    spans by [id]).  A reference that resolves to nothing stands for an
    element that is not there.  [sort_calls] and [compare_calls] are
    instrumentation: they count the calls of [Array.prototype.sort] and of
    comparators. *)
Record State : Type := {
  closure : Closure;
  tableProp : gmap tblNumber TableProp;
  header_rows : list (list HeaderCell);
  tbodies : list (list Row);
  spans : gmap string Span;
  sort_calls : nat;
  compare_calls : nat
}.

Definition set_closure (c : Closure) (st : State) : State :=
  {| closure := c; tableProp := tableProp st; header_rows := header_rows st;
     tbodies := tbodies st; spans := spans st;
     sort_calls := sort_calls st; compare_calls := compare_calls st |}.

Definition set_tableProp (p : gmap tblNumber TableProp) (st : State) : State :=
  {| closure := closure st; tableProp := p; header_rows := header_rows st;
     tbodies := tbodies st; spans := spans st;
     sort_calls := sort_calls st; compare_calls := compare_calls st |}.

Definition set_header_rows (h : list (list HeaderCell)) (st : State) : State :=
  {| closure := closure st; tableProp := tableProp st; header_rows := h;
     tbodies := tbodies st; spans := spans st;
     sort_calls := sort_calls st; compare_calls := compare_calls st |}.

Definition set_tbodies (b : list (list Row)) (st : State) : State :=
  {| closure := closure st; tableProp := tableProp st; header_rows := header_rows st;
     tbodies := b; spans := spans st;
     sort_calls := sort_calls st; compare_calls := compare_calls st |}.

Definition set_spans (sp : gmap string Span) (st : State) : State :=
  {| closure := closure st; tableProp := tableProp st; header_rows := header_rows st;
     tbodies := tbodies st; spans := sp;
     sort_calls := sort_calls st; compare_calls := compare_calls st |}.

Definition count_sort (st : State) : State :=
  {| closure := closure st; tableProp := tableProp st; header_rows := header_rows st;
     tbodies := tbodies st; spans := spans st;
     sort_calls := S (sort_calls st); compare_calls := compare_calls st |}.

Definition count_compare (st : State) : State :=
  {| closure := closure st; tableProp := tableProp st; header_rows := header_rows st;
     tbodies := tbodies st; spans := spans st;
     sort_calls := sort_calls st; compare_calls := S (compare_calls st) |}.

(** Reading a property off a value that may be [undefined]. *)
Definition defined {S A : Type} (o : option A) : M S A :=
  match o with
  | Some a => ret a
  | None => throw TypeError
  end.

Fixpoint for_each {S A : Type} (l : list A) (body : A -> M S unit) : M S unit :=
  match l with
  | [] => ret tt
  | x :: l' => body x ;; for_each l' body
  end.

(** The header cell [row.cells[i]], if there is one. *)
Definition header_cell (row i : nat) (st : State) : option HeaderCell :=
  cs ← header_rows st !! row; cs !! i.

(** Writes to the properties of the header cell [row.cells[i]]. *)
Definition update_header_cell (row i : nat) (f : HeaderCell -> HeaderCell) : M State unit :=
  modify (fun st => set_header_rows (alter (alter f i) row (header_rows st)) st).

Definition write_sortfn (v : comparator) (h : HeaderCell) : HeaderCell :=
  {| className := className h; sortfn := Some v; sortdir := sortdir h;
     isSorted := isSorted h; currentSortedTBody := currentSortedTBody h;
     onclick := onclick h |}.

Definition write_sortdir (v : option direction) (h : HeaderCell) : HeaderCell :=
  {| className := className h; sortfn := sortfn h; sortdir := v;
     isSorted := isSorted h; currentSortedTBody := currentSortedTBody h;
     onclick := onclick h |}.

Definition write_isSorted (v : bool) (h : HeaderCell) : HeaderCell :=
  {| className := className h; sortfn := sortfn h; sortdir := sortdir h;
     isSorted := v; currentSortedTBody := currentSortedTBody h;
     onclick := onclick h |}.

Definition write_currentSortedTBody (v : list entry) (h : HeaderCell) : HeaderCell :=
  {| className := className h; sortfn := sortfn h; sortdir := sortdir h;
     isSorted := isSorted h; currentSortedTBody := Some v;
     onclick := onclick h |}.

Definition write_onclick (v : tblNumber) (h : HeaderCell) : HeaderCell :=
  {| className := className h; sortfn := sortfn h; sortdir := sortdir h;
     isSorted := isSorted h; currentSortedTBody := currentSortedTBody h;
     onclick := Some v |}.

(** ** jrSortTables.getElementText *)

(** [/^\s+|\s+$/g] *)
Definition re_trim : regex :=
  Alt (cat [Bol; plus (Cls is_space)]) (cat [plus (Cls is_space); Eol]).

(** [el] is the [textContent] of the cell, or nothing when the cell is
    [undefined]. *)
Definition getElementText {S : Type} (el : option string) : M S string :=
  textContent <- defined el ;;
  ret (replace_all re_trim "" textContent).

(** ** jrSortTables.setup *)

(** [/^-?\D*?[\d,.]+[\s%]*?$/] *)
Definition re_number : regex :=
  cat [Bol; opt (chr "-"); Star false (Cls is_non_digit);
       plus (Cls (fun c => is_digit c || is_char "," c || is_char "." c));
       Star false (Cls (fun c => is_space c || is_char "%" c)); Eol].

(** [/^(\d\d?)[/.-](\d\d?)[/.-]((\d\d)?\d\d)$/] *)
Definition re_date : regex :=
  let d := Cls is_digit in
  let sep := Cls (fun c => is_char "/" c || is_char "." c || is_char "-" c) in
  cat [Bol; Grp 1 (cat [d; opt d]); sep; Grp 2 (cat [d; opt d]); sep;
       Grp 3 (cat [opt (Grp 4 (cat [d; d])); d; d]); Eol].

(** Try to guess the data type of the column's first cell. *)
Definition guessDataType (txtCell : string) : comparator :=
  let sortfn :=
    if Nat.ltb 0 (String.length txtCell) then
      match exec re_number txtCell with
      | Some _ => Some SortNumberJS      (* currency, number or percentile *)
      | None =>
          match exec re_date txtCell with
          | Some testDate =>
              if js_gt (parseInt10 (group 1 (groups testDate))) (of_Z 12) then
                Some SortDate            (* dd/mm *)
              else if js_gt (parseInt10 (group 2 (groups testDate))) (of_Z 12) then
                Some SortDate_American   (* mm/dd *)
              else Some SortDate         (* Sorry, we'll assume dd/mm *)
          | None => None
          end
      end
    else None in
  (* alphaNumeric is the default sort function. *)
  match sortfn with
  | Some f => f
  | None => AlphaNumeric
  end.

(** [new RegExp(arr.join('|'))], where [arr] holds the names of the
    registry's own properties. *)
Definition rxFn : regex := alts (map (fun p => lit p.1) sort_functions).

(** The function found, or nothing for the empty string it returns
    otherwise. *)
Definition getSortFn (className : string) : option comparator :=
  match exec rxFn className with
  | Some found => property (matched found) sort_functions
  | None => None
  end.

(** [addEvent(row)] for the handler that closes over [k]. *)
Definition addEvent (k : tblNumber) (row : nat) : M State unit :=
  cs <- (fun st => defined (header_rows st !! row) st) ;;
  for_each (rev (seq 0 (length cs)))
           (fun i => update_header_cell row i (write_onclick k)).

Definition prepareTables (tableElem : TableElem) (k : tblNumber) : M State unit :=
  let thead := tHead tableElem in
  let tbody_ := tBody tableElem in
  modify (fun st => set_tableProp
    (<[k := {| headerCells := no_cells;
               spanArrowId := "jrSortSpan" +:+ tblNumber_to_string k;
               tbody := tbody_ |}]> (tableProp st)) st) ;;
  arrTh <- (fun st => defined (header_rows st !! thead) st) ;;
  for_each (seq 0 (length arrTh)) (fun i =>
    update_header_cell thead i (write_sortdir (Some up)) ;;
    update_header_cell thead i (write_isSorted false) ;;
    th <- (fun st => defined (header_cell thead i st) st) ;;
    match getSortFn (className th) with
    | Some fn => update_header_cell thead i (write_sortfn fn)
    | None =>
        rows <- (fun st => defined (tbodies st !! tbody_) st) ;;
        row0 <- defined (rows !! 0%nat) ;;
        txt <- getElementText (cells row0 !! i) ;;
        update_header_cell thead i (write_sortfn (guessDataType txt))
    end) ;;
  modify (fun st => set_tableProp
    (alter (fun p => {| headerCells := cells_of thead;
                        spanArrowId := spanArrowId p;
                        tbody := tbody p |}) k (tableProp st)) st) ;;
  (* Finally, add the onclick event. *)
  addEvent k thead ;;
  match tFoot tableElem with
  | Some tfoot => addEvent k tfoot
  | None => ret tt
  end.

(** [tables] is the result of [document.querySelectorAll('.sortable')];
    the callback passes the table and nothing else. *)
Definition setup (tables : list TableElem) : M State unit :=
  for_each tables (fun tbl => prepareTables tbl None).

(** ** jrSortTables.sort *)

(** [jrSortTables.arrows[sort_direction]], as assigned to [innerHTML]. *)
Definition arrows (d : option direction) : string :=
  match d with
  | Some up => "&nbsp;&#x25B4;"
  | Some down => "&nbsp;&#x25BE;"
  | None => "undefined"
  end.

(** A list without the node [row]. *)
Definition remove_row (row : Row) (l : list Row) : list Row :=
  List.filter (fun r => negb (Nat.eqb (row_id r) (row_id row))) l.

(** [fragment.appendChild(row)]: the row leaves the parent it has and
    becomes the last child of the fragment. *)
Definition fragment_appendChild (fragment : list Row) (row : Row) : M State (list Row) :=
  modify (fun st => set_tbodies (map (remove_row row) (tbodies st)) st) ;;
  ret (remove_row row fragment ++ [row]).

(** [fragment.appendChild] on each of [rows], in order. *)
Fixpoint append_rows (fragment : list Row) (rows : list Row) : M State (list Row) :=
  match rows with
  | [] => ret fragment
  | row :: rows' =>
      fragment' <- fragment_appendChild fragment row ;;
      append_rows fragment' rows'
  end.

(** [tbody.appendChild(fragment)]: the children of the fragment move to
    the end of the tbody. *)
Definition tbody_appendChild (tb : nat) (fragment : list Row) : M State unit :=
  rows <- (fun st => defined (tbodies st !! tb) st) ;;
  modify (fun st => set_tbodies (<[tb := rows ++ fragment]> (tbodies st)) st).

Fixpoint map_m {S A B : Type} (f : A -> M S B) (l : list A) : M S (list B) :=
  match l with
  | [] => ret []
  | x :: l' => y <- f x ;; ys <- map_m f l' ;; ret (y :: ys)
  end.

Section Sort.

Variable localeCompare : string -> string -> Z.

(** The comparison [Array.prototype.sort] makes without a [comparefn]:
    by the texts of the elements, and an element [[key, row]] reads
    [key + "," + row]. *)
Definition default_compare (a b : entry) : number :=
  let x := a.1 +:+ ",[object HTMLTableRowElement]" in
  let y := b.1 +:+ ",[object HTMLTableRowElement]" in
  if str_lt x y then of_Z (-1) else if str_lt y x then of_Z 1 else of_Z 0.

(** One comparison of the sort. *)
Definition sort_compare (comparefn : option comparator) (a b : entry) : M State number :=
  match comparefn with
  | Some f =>
      modify count_compare ;;
      zoom closure set_closure (call localeCompare f a b)
  | None => ret (default_compare a b)
  end.

(** [Array.prototype.sort]: every stable sort returns the same array
    when the comparator is consistent, and the model is the insertion
    sort.  [x] goes after [y] when the comparison is positive; NaN counts
    as zero. *)
Fixpoint insert_sorted (comparefn : option comparator) (x : entry) (l : list entry)
    : M State (list entry) :=
  match l with
  | [] => ret [x]
  | y :: l' =>
      v <- sort_compare comparefn x y ;;
      if is_positive v then
        l'' <- insert_sorted comparefn x l' ;;
        ret (y :: l'')
      else ret (x :: y :: l')
  end.

Fixpoint sort_elements (comparefn : option comparator) (l : list entry)
    : M State (list entry) :=
  match l with
  | [] => ret []
  | x :: l' =>
      sorted <- sort_elements comparefn l' ;;
      insert_sorted comparefn x sorted
  end.

Definition array_sort (comparefn : option comparator) (l : list entry)
    : M State (list entry) :=
  modify count_sort ;;
  sort_elements comparefn l.

(** [[this.getElementText(row.cells[column]), row]] *)
Definition keyed (column : nat) (row : Row) : M State entry :=
  key <- getElementText (cells row !! column) ;;
  ret (key, row).

(** The value returned is the sequence of rows in [fragment] when it is
    appended to the tbody: the order the request produces. *)
Definition sort (k : tblNumber) (th : th_ref) : M State (list Row) :=
  let column := cellIndex th in
  prop <- (fun st => defined (tableProp st !! k) st) ;;
  match headerCells prop with
  | no_cells => throw TypeError
  | cells_of hrow =>
      header <- (fun st => defined (header_cell hrow column st) st) ;;
      r <- (if isSorted header then
              (* tbody is already sorted *)
              let sort_direction :=
                match sortdir header with
                | Some up => down
                | _ => up
                end in
              cache <- defined (currentSortedTBody header) ;;
              fragment <- append_rows []
                match sort_direction with
                | up => map snd cache
                | down => rev (map snd cache)      (* reverse tbody *)
                end ;;
              ret (Some sort_direction, cache, fragment)
            else
              tbr <- (fun st => defined (tbodies st !! tbody prop) st) ;;
              unsorted <- map_m (keyed column) tbr ;;
              sorted <- array_sort (sortfn header) unsorted ;;
              update_header_cell hrow column (write_isSorted true) ;;
              fragment <- append_rows [] (map snd sorted) ;;
              ret (sortdir header, sorted, fragment)) ;;
      let '(sort_direction, cache, fragment) := r in
      (* Append fragment to tbody in just one operation. *)
      tbody_appendChild (tbody prop) fragment ;;
      (* Finally, change the arrow direction in the th node *)
      modify (fun st => set_spans (delete (spanArrowId prop) (spans st)) st) ;;
      modify (fun st => set_spans
        (<[spanArrowId prop := {| parentNode := th; innerHTML := arrows sort_direction |}]>
           (spans st)) st) ;;
      (* Update tableProp object *)
      update_header_cell hrow column (write_currentSortedTBody cache) ;;
      update_header_cell hrow column (write_sortdir sort_direction) ;;
      ret fragment
  end.

(** A click on a header cell runs the handler the cell has. *)
Definition click (th : th_ref) : M State (list Row) :=
  cell <- (fun st => defined (header_cell (th_row th) (cellIndex th) st) st) ;;
  match onclick cell with
  | Some k => sort k th
  | None => ret []
  end.

End Sort.

(** The closure before any comparator has run. *)
Definition initial_closure : Closure :=
  mkClosure Undefined Undefined Undefined Undefined Undefined Undefined.

(** A header cell as the page loads it. *)
Definition th_element (class : string) : HeaderCell :=
  {| className := class; sortfn := None; sortdir := None; isSorted := false;
     currentSortedTBody := None; onclick := None |}.

(** The store as the page loads, before [setup] runs. *)
Definition page (hs : list (list HeaderCell)) (bs : list (list Row)) : State :=
  {| closure := initial_closure; tableProp := ∅; header_rows := hs; tbodies := bs;
     spans := ∅; sort_calls := 0; compare_calls := 0 |}.

(** A comparison of texts by code units, for use as [localeCompare]. *)
Definition code_unit_compare (a b : string) : Z :=
  match String.compare a b with
  | Lt => -1
  | Eq => 0
  | Gt => 1
  end.

(** * Definitions for the properties *)

(** ** What a comparator returns *)

(** The reading of a key that [alphaNumeric] keeps in [tmpa] or [tmpb]. *)
Definition reading (s : string) : value :=
  if search re_leading_zero s =? 0 then Str s
  else if Nat.eqb (String.length s) 0 then Num (Finite 0)
  else if is_nan (parseFloat s) then Str s
  else Num (parseFloat s).

Definition date_key (s : string) : string :=
  substr s 6 4 +:+ substr s 3 2 +:+ substr s 0 2.

Definition date_key_American (s : string) : string :=
  substr s 6 4 +:+ substr s 0 2 +:+ substr s 3 2.

Definition compare_keys (x y : string) : number :=
  if String.eqb x y then of_Z 0
  else if str_lt x y then of_Z (-1)
  else of_Z 1.

Definition number_text_JS (s : string) : string :=
  replace_all re_comma "" (replace_all re_not_number_JS "" s).

Definition number_text_nonJS (s : string) : string :=
  replace_first re_comma "." (replace_all re_period "" (replace_all re_not_number_nonJS "" s)).

(** The number a text is read as, 0 when it is not a number. *)
Definition number_or_zero (t : string) : number :=
  if is_nan (string_to_number t) then Finite 0 else string_to_number t.

(** The number a comparator reads a key as, when it reads it as one. *)
Definition numeric_reading (f : comparator) (s : string) : option number :=
  match f with
  | AlphaNumeric => match reading s with
                    | Num n => Some n
                    | _ => None
                    end
  | SortNumberJS => Some (number_or_zero (number_text_JS s))
  | SortNumber_nonJS => Some (number_or_zero (number_text_nonJS s))
  | _ => None
  end.

Section ComparatorValues.

Variable localeCompare : string -> string -> Z.

Definition alphaNumeric_value (s t : string) : number :=
  match reading s, reading t with
  | Str x, Str y => of_Z (localeCompare x y)
  | Num m, Num n => js_sub m n
  | x, y => if str_lt (typeof x) (typeof y) then of_Z (-1) else of_Z 1
  end.

(** The value of [call f a b] as a function of the keys of [a] and [b]. *)
Definition compare_value (f : comparator) (s t : string) : number :=
  match f with
  | AlphaNumeric => alphaNumeric_value s t
  | SortDate => compare_keys (date_key s) (date_key t)
  | SortDate_American => compare_keys (date_key_American s) (date_key_American t)
  | SortNumberJS =>
      js_sub (number_or_zero (number_text_JS s)) (number_or_zero (number_text_JS t))
  | SortNumber_nonJS =>
      js_sub (number_or_zero (number_text_nonJS s)) (number_or_zero (number_text_nonJS t))
  end.

(** The closure after a sequence of calls, whatever they return. *)
Fixpoint closure_after (calls : list (comparator * entry * entry)) (c : Closure) : Closure :=
  match calls with
  | [] => c
  | (f, a, b) :: calls' => closure_after calls' (final (call localeCompare f a b c))
  end.

End ComparatorValues.

(** A Number with a sign: negative, zero or positive. *)
Definition has_sign (x : number) : bool :=
  is_negative x || is_zero x || is_positive x.

(** The line feed, as a character. *)
Definition LF : ascii := "010"%char.

(** The length of the leading run of characters that satisfy [p]. *)
Fixpoint run_length (p : ascii -> bool) (s : string) : nat :=
  match s with
  | String a s' => if p a then S (run_length p s') else O
  | EmptyString => O
  end.

(** [\d], [.] or [-]: what [sortNumberJS] keeps of a key. *)
Definition number_char_JS (c : ascii) : bool :=
  is_digit c || is_char "." c || is_char "-" c.

(** ** The sort, as a function *)

(** The array [Array.prototype.sort] returns, given the value of each
    comparison. *)
Fixpoint insert_value (cmp : entry -> entry -> number) (x : entry) (l : list entry)
    : list entry :=
  match l with
  | [] => [x]
  | y :: l' => if is_positive (cmp x y) then y :: insert_value cmp x l' else x :: y :: l'
  end.

Fixpoint sort_values (cmp : entry -> entry -> number) (l : list entry) : list entry :=
  match l with
  | [] => []
  | x :: l' => insert_value cmp x (sort_values cmp l')
  end.

(** The value of one comparison of the sort. *)
Definition value_of (localeCompare : string -> string -> Z)
    (comparefn : option comparator) (a b : entry) : number :=
  match comparefn with
  | Some f => compare_value localeCompare f a.1 b.1
  | None => default_compare a b
  end.

(** [a] may stand before [b]: the comparison of [a] with [b] is not
    positive. *)
Definition le_by (cmp : entry -> entry -> number) (a b : entry) : bool :=
  negb (is_positive (cmp a b)).

(** A comparator is consistent on the elements of [l]: any two of them
    compare one way or the other, and the order is transitive. *)
Definition total_on (cmp : entry -> entry -> number) (l : list entry) : bool :=
  forallb (fun a => forallb (fun b => le_by cmp a b || le_by cmp b a) l) l.

Definition transitive_on (cmp : entry -> entry -> number) (l : list entry) : bool :=
  forallb (fun a => forallb (fun b => forallb (fun c =>
    implb (le_by cmp a b && le_by cmp b c) (le_by cmp a c)) l) l) l.

Definition consistent_on (cmp : entry -> entry -> number) (l : list entry) : bool :=
  total_on cmp l && transitive_on cmp l.

(** ** The document *)

(** Two stores with the same [tableProp] and the same document. *)
Definition same_document (st st' : State) : Prop :=
  tableProp st' = tableProp st /\ header_rows st' = header_rows st /\
  tbodies st' = tbodies st /\ spans st' = spans st.

(** The rows of [l] that are not among the nodes [rows]. *)
Definition without (rows : list Row) (l : list Row) : list Row :=
  List.filter (fun r => negb (existsb (fun x => Nat.eqb (row_id x) (row_id r)) rows)) l.

(** The key of a row for a column: the text of the cell, trimmed. *)
Definition key_of (column : nat) (row : Row) : string :=
  match cells row !! column with
  | Some textContent => replace_all re_trim "" textContent
  | None => ""
  end.

(** [[key, row]] for each row. *)
Definition entries (column : nat) (rows : list Row) : list entry :=
  map (fun row => (key_of column row, row)) rows.

(** The state of a column of a table known by [k]: its header cell. *)
Definition column_state (k : tblNumber) (column : nat) (st : State) : option HeaderCell :=
  prop ← tableProp st !! k;
  match headerCells prop with
  | cells_of hrow => header_cell hrow column st
  | no_cells => None
  end.

(** The rows of the tbody of the table known by [k]. *)
Definition table_rows (k : tblNumber) (st : State) : option (list Row) :=
  prop ← tableProp st !! k; tbodies st !! tbody prop.

(** Two stores that differ in the header rows at most. *)
Definition same_but_headers (st st' : State) : Prop :=
  closure st' = closure st /\ tableProp st' = tableProp st /\
  tbodies st' = tbodies st /\ spans st' = spans st /\
  sort_calls st' = sort_calls st /\ compare_calls st' = compare_calls st.

(** The header rows of two stores have the same numbers of cells. *)
Definition same_shape (st st' : State) : Prop :=
  forall r, length <$> header_rows st' !! r = length <$> header_rows st !! r.

(** The comparator [prepareTables] gives the column [i] with header cell
    [h], where [row0] is the first row of the tbody. *)
Definition chosen_comparator (row0 : Row) (i : nat) (h : HeaderCell) : comparator :=
  match getSortFn (className h) with
  | Some fn => fn
  | None => guessDataType (key_of i row0)
  end.

(** What [prepareTables] makes of the header cell [h] of column [i],
    the handler apart. *)
Definition prepare_cell (row0 : Row) (i : nat) (h : HeaderCell) : HeaderCell :=
  write_sortfn (chosen_comparator row0 i h)
    (write_isSorted false (write_sortdir (Some up) h)).

(** The header cell [h'] is the cell [h] of column [i] as [prepareTables]
    leaves it, with the handler that closes over [k]. *)
Definition prepared (row0 : Row) (i : nat) (k : tblNumber) (h h' : HeaderCell) : Prop :=
  sortfn h' = Some (chosen_comparator row0 i h) /\
  sortdir h' = Some up /\
  isSorted h' = false /\
  onclick h' = Some k /\
  className h' = className h /\
  currentSortedTBody h' = currentSortedTBody h.

(** The rows of the table known by [k] are distinct nodes, and so are
    the rows in the cache of the column, if it has one. *)
Definition distinct_nodes (k : tblNumber) (column : nat) (st : State) : Prop :=
  (forall rows, table_rows k st = Some rows -> NoDup (map row_id rows)) /\
  (forall hd cache,
      column_state k column st = Some hd -> currentSortedTBody hd = Some cache ->
      NoDup (map row_id (map snd cache))).

(** ** A page with two sortable tables

    The first table has three columns (an amount, a date, a text) and
    three rows; the second has one column and two rows. *)

Definition prices_rows : list Row :=
  [ {| row_id := 1; cells := ["$1,234.50"; "25/12/2023"; "pear"] |};
    {| row_id := 2; cells := ["$99.90"; "01/11/2023"; "007"] |};
    {| row_id := 3; cells := ["N/A"; "13/02/2024"; "7"] |} ].

Definition names_rows : list Row :=
  [ {| row_id := 11; cells := ["zoe"] |};
    {| row_id := 12; cells := ["adam"] |} ].

Definition prices_header : list HeaderCell :=
  [th_element ""; th_element "sortDate"; th_element "alphaNumeric"].

Definition names_header : list HeaderCell := [th_element ""].

Definition two_tables_page : State :=
  page [prices_header; names_header] [prices_rows; names_rows].

Definition prices_table : TableElem := {| tHead := 0; tBody := 0; tFoot := None |}.
Definition names_table : TableElem := {| tHead := 1; tBody := 1; tFoot := None |}.

(** The first header cell of the first table. *)
Definition prices_th0 : th_ref := {| th_row := 0; cellIndex := 0 |}.

(** ** Further definitions for the properties *)

(** The children of a fragment after [fragment.appendChild] on each of
    [rows], in order: a node that is appended again moves to the end. *)
Fixpoint fragment_rows (fragment rows : list Row) : list Row :=
  match rows with
  | [] => fragment
  | row :: rows' => fragment_rows (remove_row row fragment ++ [row]) rows'
  end.

(** The direction a request leaves in the header cell [hd]. *)
Definition next_direction (hd : HeaderCell) : option direction :=
  if isSorted hd then
    Some match sortdir hd with
         | Some up => down
         | _ => up
         end
  else sortdir hd.

(** The rows a request appends to the fragment, given the cache it holds
    when it ends: front to back, or back to front for the direction
    ['down'] of a toggle. *)
Definition replayed (hd : HeaderCell) (cache : list entry) : list Row :=
  if isSorted hd then
    match next_direction hd with
    | Some down => rev (map snd cache)
    | _ => map snd cache
    end
  else map snd cache.

(** The header cell [hd'] is [hd] after a request: sorted, with the cache
    and the direction given, and the rest as it was. *)
Definition requested (hd : HeaderCell) (cache : list entry) (hd' : HeaderCell) : Prop :=
  isSorted hd' = true /\
  currentSortedTBody hd' = Some cache /\
  sortdir hd' = next_direction hd /\
  sortfn hd' = sortfn hd /\ className hd' = className hd /\ onclick hd' = onclick hd.

(** The page with each table prepared under a number of its own, as the
    header comment of the script describes [tableProp]. *)
Definition numbered_page : State :=
  final (prepareTables names_table (Some 1%nat)
           (final (prepareTables prices_table (Some 0%nat) two_tables_page))).

(** The second header cell of the first table. *)
Definition prices_th1 : th_ref := {| th_row := 0; cellIndex := 1 |}.

(** A request for the column of the table known by [k] can run. *)
Definition can_run (k : tblNumber) (column : nat) (st : State) : Prop :=
  exists hd rows,
    column_state k column st = Some hd /\
    table_rows k st = Some rows /\
    (isSorted hd = true -> is_Some (currentSortedTBody hd)) /\
    (isSorted hd = false -> Forall (fun row => is_Some (cells row !! column)) rows).


(** A table prepared under the number 0 whose second row has one cell
    only, under a header row of two. *)
Definition ragged_rows : list Row :=
  [ {| row_id := 21; cells := ["b"; "2"] |};
    {| row_id := 22; cells := ["a"] |} ].

Definition ragged_page : State :=
  final (prepareTables {| tHead := 0; tBody := 0; tFoot := None |} (Some 0%nat)
           (page [[th_element ""; th_element ""]] [ragged_rows])).

(** ** Dates as texts *)

(** The decimal digit of [n], for [n] below ten. *)
Definition digit_char (n : nat) : ascii := ascii_of_nat (48 + n).

(** [n] in two digits, and in four. *)
Definition two_digits (n : nat) : string :=
  String (digit_char (n / 10)) (String (digit_char (n mod 10)) "").

Definition four_digits (n : nat) : string :=
  two_digits (n / 100) +:+ two_digits (n mod 100).

(** A date of ten characters: two fields of two digits and the year in
    four, with a separator after each field. *)
Definition date_text (s1 s2 : ascii) (x y year : nat) : string :=
  two_digits x +:+ String s1 (two_digits y +:+ String s2 (four_digits year)).

(** The earlier of two dates: by year, then month, then day. *)
Definition date_order (y m d y' m' d' : nat) : comparison :=
  match Nat.compare y y' with
  | Eq => match Nat.compare m m' with
          | Eq => Nat.compare d d'
          | o => o
          end
  | o => o
  end.

(** The Number a comparator returns for an order. *)
Definition sign_of (o : comparison) : number :=
  match o with
  | Lt => of_Z (-1)
  | Eq => of_Z 0
  | Gt => of_Z 1
  end.

(** ** Texts *)

(** A text without the run of characters that satisfy [p] at its end. *)
Fixpoint drop_trailing (p : ascii -> bool) (s : string) : string :=
  match s with
  | String a s' => if string_forall p s then "" else String a (drop_trailing p s')
  | EmptyString => ""
  end.

(** The last character of [String a s]. *)
Fixpoint last_char (a : ascii) (s : string) : ascii :=
  match s with
  | String b s' => last_char b s'
  | EmptyString => a
  end.

(** A text that neither starts nor ends with white space. *)
Definition no_space_at_ends (s : string) : bool :=
  match s with
  | String a s' => negb (is_space a) && negb (is_space (last_char a s'))
  | EmptyString => true
  end.

(** [[\d,.]] and [[\s%]], the classes of [guessDataType]. *)
Definition is_number_char (c : ascii) : bool :=
  is_digit c || is_char "," c || is_char "." c.

Definition is_percent_or_space (c : ascii) : bool :=
  is_space c || is_char "%" c.

(** ** What setup keeps *)

(** A computation leaves every store in the relation [R] with the store
    it started from, whether it returns or throws. *)
Definition preserves {A : Type} (R : State -> State -> Prop) (m : M State A) : Prop :=
  forall st, R st (final (m st)).

(** The document is as it was but for the properties the script hangs on
    header cells: the closure, the rows of every tbody, the spans and the
    counters are the same, and every header row has the cells it had,
    each with its class attribute and its cache. *)
Definition keeps_document (st st' : State) : Prop :=
  closure st' = closure st /\ tbodies st' = tbodies st /\ spans st' = spans st /\
  sort_calls st' = sort_calls st /\ compare_calls st' = compare_calls st /\
  same_shape st st' /\
  forall r i h, header_cell r i st = Some h ->
    exists h', header_cell r i st' = Some h' /\ className h' = className h /\
               currentSortedTBody h' = currentSortedTBody h.

(** The same, and [tableProp] is as it was. *)
Definition keeps_tables (st st' : State) : Prop :=
  keeps_document st st' /\ tableProp st' = tableProp st.

(** The body of the loop of [prepareTables] over the header cells. *)
Definition header_step (thead tbody_ i : nat) : M State unit :=
  update_header_cell thead i (write_sortdir (Some up)) ;;
  update_header_cell thead i (write_isSorted false) ;;
  th <- (fun st => defined (header_cell thead i st) st) ;;
  match getSortFn (className th) with
  | Some fn => update_header_cell thead i (write_sortfn fn)
  | None =>
      rows <- (fun st => defined (tbodies st !! tbody_) st) ;;
      row0 <- defined (rows !! 0%nat) ;;
      txt <- getElementText (cells row0 !! i) ;;
      update_header_cell thead i (write_sortfn (guessDataType txt))
  end.

(** The element [prepareTables] stores for a table, once it has its
    header cells, and before. *)
Definition table_entry (t : TableElem) (k : tblNumber) : TableProp :=
  {| headerCells := cells_of (tHead t);
     spanArrowId := "jrSortSpan" +:+ tblNumber_to_string k;
     tbody := tBody t |}.

Definition table_entry_no_cells (t : TableElem) (k : tblNumber) : TableProp :=
  {| headerCells := no_cells;
     spanArrowId := "jrSortSpan" +:+ tblNumber_to_string k;
     tbody := tBody t |}.

(** A table [prepareTables] can prepare: a header row, a first body row
    with a cell under every header cell, and a footer row if the table
    has a tfoot. *)
Definition well_formed (st : State) (t : TableElem) : Prop :=
  exists hs row0 rest,
    header_rows st !! tHead t = Some hs /\
    tbodies st !! tBody t = Some (row0 :: rest) /\
    (length hs <= length (cells row0))%nat /\
    (forall f, tFoot t = Some f -> is_Some (header_rows st !! f)).

(** A table without body rows whose header cell [j] is the first one
    that names no function of the registry. *)
Definition empty_table (st : State) (t : TableElem) (j : nat) : Prop :=
  tbodies st !! tBody t = Some [] /\
  (exists h, header_cell (tHead t) j st = Some h /\ getSortFn (className h) = None) /\
  (forall i, (i < j)%nat ->
     exists h, header_cell (tHead t) i st = Some h /\ is_Some (getSortFn (className h))).

(** A page whose second table has no body rows. *)
Definition names_then_empty_page : State :=
  page [names_header; [th_element "sortDate"; th_element ""]] [names_rows; []].

Definition first_table : TableElem := {| tHead := 0; tBody := 0; tFoot := None |}.
Definition second_table : TableElem := {| tHead := 1; tBody := 1; tFoot := None |}.

(** ** Decimal separators *)

(** A text with the first character that satisfies [p] replaced by
    [rep]. *)
Fixpoint subst_first (p : ascii -> bool) (rep : string) (s : string) : string :=
  match s with
  | String a s' => if p a then rep +:+ s' else String a (subst_first p rep s')
  | EmptyString => ""
  end.

Fixpoint string_map (f : ascii -> ascii) (s : string) : string :=
  match s with
  | String a s' => String (f a) (string_map f s')
  | EmptyString => ""
  end.

Fixpoint count_char (p : ascii -> bool) (s : string) : nat :=
  match s with
  | String a s' => if p a then S (count_char p s') else count_char p s'
  | EmptyString => O
  end.

(** A comma for a period and a period for a comma: the number 23,478.96
    as 23.478,96. *)
Definition swap_separator (c : ascii) : ascii :=
  if is_char "," c then "."%char
  else if is_char "." c then ","%char
  else c.

(** [\d], [,] or [-]: what [sortNumber_nonJS] keeps of a key at first. *)
Definition number_char_nonJS (c : ascii) : bool :=
  is_digit c || is_char "," c || is_char "-" c.

(** [[/.-]], the separators of a date for [guessDataType]. *)
Definition is_date_separator (c : ascii) : bool :=
  is_char "/" c || is_char "." c || is_char "-" c.

(** A table number that JavaScript holds exactly and writes in plain
    decimal digits: [undefined], or an integer below 2^53. *)
Definition plain_number (k : tblNumber) : Prop :=
  match k with
  | Some n => Z.of_nat n < 2 ^ 53
  | None => True
  end.

(** ** The leading-zero pattern as the specification words it *)


(** * Properties *)

(** ** Numbers *)

Lemma binary64_not_nan (q : Q) : is_nan (binary64 q) = false.
Proof.
  unfold binary64.
  destruct (Qeq_bool q 0); [reflexivity|].
  match goal with |- context [if ?b then Infinity _ else _] => destruct b end; reflexivity.
Qed.

Lemma of_Z_not_nan (z : Z) : is_nan (of_Z z) = false.
Proof. apply binary64_not_nan. Qed.

(** A Number other than NaN is negative, zero or positive. *)
Lemma sign_cases (x : number) : is_nan x = false -> has_sign x = true.
Proof.
  unfold has_sign.
  destruct x as [|s|q]; simpl; [discriminate| destruct s; reflexivity |].
  intros _.
  destruct (Qle_bool 0 q) eqn:H0; [|reflexivity].
  destruct (Qle_bool q 0) eqn:H1; [|simpl; apply orb_true_r].
  apply Qle_bool_iff in H0, H1.
  assert (E : Qeq_bool q 0 = true) by (apply Qeq_bool_iff, Qle_antisym; assumption).
  rewrite E. reflexivity.
Qed.

(** A difference is NaN only for a NaN operand or two equal infinities. *)
Lemma js_sub_nan (x y : number) :
  is_nan (js_sub x y) = true ->
  is_nan x = true \/ is_nan y = true \/
  exists s, x = Infinity s /\ y = Infinity s.
Proof.
  destruct x as [|s|p], y as [|t|q]; simpl; auto.
  - destruct s, t; simpl; try discriminate; intros _; right; right; eauto.
  - rewrite binary64_not_nan. discriminate.
Qed.

(** ** What a comparator returns

    Each comparator returns a value that is a function of the two keys:
    the closure variables are written before they are read. *)

Ltac closure_steps :=
  unfold bind, set_aa, set_bb, set_tmpa, set_tmpb, set_date1, set_date2,
    modify, gets, ret, this_string;
  cbn [aa bb tmpa tmpb date1 date2].

Lemma compare_dates_returns (x y : string) (c : Closure) :
  date1 c = Str x -> date2 c = Str y ->
  compare_dates c = Returned (compare_keys x y) c.
Proof.
  intros H1 H2. unfold compare_dates, compare_keys. closure_steps.
  rewrite H1, H2. simpl.
  destruct (String.eqb x y); [reflexivity|].
  destruct (str_lt x y); reflexivity.
Qed.

Lemma sortDate_returns (a b : entry) (c : Closure) :
  exists c', sortDate a b c = Returned (compare_keys (date_key a.1) (date_key b.1)) c'.
Proof.
  unfold sortDate, yyyymmdd. closure_steps.
  eexists. apply compare_dates_returns; reflexivity.
Qed.

Lemma sortDate_American_returns (a b : entry) (c : Closure) :
  exists c', sortDate_American a b c =
             Returned (compare_keys (date_key_American a.1) (date_key_American b.1)) c'.
Proof.
  unfold sortDate_American, yyyymmdd_American. closure_steps.
  eexists. apply compare_dates_returns; reflexivity.
Qed.

Lemma subtract_numbers_returns (x y : string) (c : Closure) :
  aa c = Str x -> bb c = Str y ->
  exists c', subtract_numbers c = Returned (js_sub (number_or_zero x) (number_or_zero y)) c'.
Proof.
  intros H1 H2. unfold subtract_numbers, number_or_zero, isNaN. closure_steps.
  rewrite H1. cbn [to_number].
  destruct (is_nan (string_to_number x)) eqn:Ex; cbn [aa bb tmpa tmpb date1 date2];
    rewrite H2; cbn [to_number];
    destruct (is_nan (string_to_number y)) eqn:Ey; cbn [aa bb tmpa tmpb date1 date2 to_number];
    rewrite ?H1, ?H2; cbn [to_number]; eexists; reflexivity.
Qed.

Lemma sortNumberJS_returns (a b : entry) (c : Closure) :
  exists c', sortNumberJS a b c =
             Returned (js_sub (number_or_zero (number_text_JS a.1))
                              (number_or_zero (number_text_JS b.1))) c'.
Proof.
  unfold sortNumberJS. closure_steps.
  apply subtract_numbers_returns; reflexivity.
Qed.

Lemma sortNumber_nonJS_returns (a b : entry) (c : Closure) :
  exists c', sortNumber_nonJS a b c =
             Returned (js_sub (number_or_zero (number_text_nonJS a.1))
                              (number_or_zero (number_text_nonJS b.1))) c'.
Proof.
  unfold sortNumber_nonJS. closure_steps.
  apply subtract_numbers_returns; reflexivity.
Qed.

Lemma reading_not_nan (s : string) (n : number) :
  reading s = Num n -> is_nan n = false.
Proof.
  unfold reading.
  destruct (search re_leading_zero s =? 0); [discriminate|].
  destruct (Nat.eqb (String.length s) 0); [intros [= <-]; reflexivity|].
  destruct (is_nan (parseFloat s)) eqn:E; [discriminate|].
  intros [= <-]. exact E.
Qed.

Lemma number_or_zero_not_nan (t : string) : is_nan (number_or_zero t) = false.
Proof.
  unfold number_or_zero.
  destruct (is_nan (string_to_number t)) eqn:E; [reflexivity | exact E].
Qed.

Lemma compare_keys_not_nan (x y : string) : is_nan (compare_keys x y) = false.
Proof.
  unfold compare_keys.
  destruct (String.eqb x y); [apply of_Z_not_nan|].
  destruct (str_lt x y); apply of_Z_not_nan.
Qed.

Section ComparatorFacts.

Variable localeCompare : string -> string -> Z.

Ltac alphaNumeric_steps :=
  cbv [alphaNumeric bind set_aa set_bb set_tmpa set_tmpb modify gets ret throw
       this_string has_length isNaN parseFloat_value to_number
       aa bb tmpa tmpb date1 date2 negb].

Lemma alphaNumeric_returns (a b : entry) (c : Closure) :
  exists c', alphaNumeric localeCompare a b c =
             Returned (alphaNumeric_value localeCompare a.1 b.1) c' /\
             tmpa c' = reading a.1 /\ tmpb c' = reading b.1.
Proof.
  unfold alphaNumeric_value, reading. alphaNumeric_steps.
  destruct (search re_leading_zero a.1 =? 0); alphaNumeric_steps;
    [|destruct (Nat.eqb (String.length a.1) 0); alphaNumeric_steps;
      [|destruct (is_nan (parseFloat a.1)); alphaNumeric_steps]];
    (destruct (search re_leading_zero b.1 =? 0); alphaNumeric_steps;
     [|destruct (Nat.eqb (String.length b.1) 0); alphaNumeric_steps;
       [|destruct (is_nan (parseFloat b.1)); alphaNumeric_steps]]);
    eexists; repeat split.
Qed.

Lemma alphaNumeric_result (a b : entry) (c : Closure) :
  result (alphaNumeric localeCompare a b c)
  = Some (alphaNumeric_value localeCompare a.1 b.1).
Proof. destruct (alphaNumeric_returns a b c) as (c' & -> & _). reflexivity. Qed.

Lemma alphaNumeric_tmpa (a b : entry) (c : Closure) :
  tmpa (final (alphaNumeric localeCompare a b c)) = reading a.1.
Proof. destruct (alphaNumeric_returns a b c) as (c' & -> & H & _). exact H. Qed.

Lemma alphaNumeric_tmpb (a b : entry) (c : Closure) :
  tmpb (final (alphaNumeric localeCompare a b c)) = reading b.1.
Proof. destruct (alphaNumeric_returns a b c) as (c' & -> & _ & H). exact H. Qed.

Lemma call_returns (f : comparator) (a b : entry) (c : Closure) :
  exists c', call localeCompare f a b c =
             Returned (compare_value localeCompare f a.1 b.1) c'.
Proof.
  destruct f; simpl.
  - destruct (alphaNumeric_returns a b c) as (c' & H & _). eauto.
  - apply sortDate_returns.
  - apply sortDate_American_returns.
  - apply sortNumberJS_returns.
  - apply sortNumber_nonJS_returns.
Qed.

Lemma call_result (f : comparator) (a b : entry) (c : Closure) :
  result (call localeCompare f a b c) = Some (compare_value localeCompare f a.1 b.1).
Proof. destruct (call_returns f a b c) as [c' ->]. reflexivity. Qed.

Lemma compare_value_nan (f : comparator) (s t : string) :
  is_nan (compare_value localeCompare f s t) = true ->
  exists sg, numeric_reading f s = Some (Infinity sg) /\
             numeric_reading f t = Some (Infinity sg).
Proof.
  destruct f; simpl.
  - unfold alphaNumeric_value.
    destruct (reading s) as [|x|m] eqn:Es, (reading t) as [|y|n] eqn:Et; simpl;
      rewrite ?of_Z_not_nan; try discriminate.
    intros H. apply js_sub_nan in H.
    rewrite (reading_not_nan _ _ Es), (reading_not_nan _ _ Et) in H.
    destruct H as [H|[H|[sg [-> ->]]]]; try discriminate. eauto.
  - rewrite compare_keys_not_nan. discriminate.
  - rewrite compare_keys_not_nan. discriminate.
  - intros H. apply js_sub_nan in H.
    rewrite !number_or_zero_not_nan in H.
    destruct H as [H|[H|[sg [-> ->]]]]; try discriminate. eauto.
  - intros H. apply js_sub_nan in H.
    rewrite !number_or_zero_not_nan in H.
    destruct H as [H|[H|[sg [-> ->]]]]; try discriminate. eauto.
Qed.

(** C4, as amended.  Every comparator of the registry is total on pairs
    of (key, row) arguments: whatever the keys and whatever the closure
    variables hold, the call returns a Number and does not throw.  The
    Number is negative, zero or positive, unless the comparator reads both
    keys as the same infinity: then, and only then, it is NaN. *)
Theorem comparators_total (f : comparator) (a b : entry) (c : Closure) :
  exists v c',
    call localeCompare f a b c = Returned v c' /\
    (has_sign v = true \/
     v = NaN /\ exists sg, numeric_reading f a.1 = Some (Infinity sg) /\
                           numeric_reading f b.1 = Some (Infinity sg)).
Proof.
  destruct (call_returns f a b c) as [c' H].
  exists (compare_value localeCompare f a.1 b.1), c'. split; [exact H|].
  destruct (is_nan (compare_value localeCompare f a.1 b.1)) eqn:E.
  - right. split.
    + destruct (compare_value localeCompare f a.1 b.1); try discriminate. reflexivity.
    + apply compare_value_nan. exact E.
  - left. apply sign_cases. exact E.
Qed.

(** C10.  The value a comparator returns depends on the two keys only:
    not on the rows that come with them, and not on what the closure
    variables [aa], [bb], [tmpa], [tmpb], [date1], [date2] hold when it
    is called, so not on the calls made before, of this comparator or of
    the others. *)
Theorem comparators_deterministic (f : comparator) (ka kb : string)
    (ra rb ra' rb' : Row) (c c' : Closure) (calls : list (comparator * entry * entry)) :
  exists v,
    result (call localeCompare f (ka, ra) (kb, rb) c) = Some v /\
    result (call localeCompare f (ka, ra') (kb, rb') c') = Some v /\
    result (call localeCompare f (ka, ra') (kb, rb') (closure_after localeCompare calls c))
    = Some v.
Proof.
  exists (compare_value localeCompare f ka kb).
  repeat split; apply call_result.
Qed.

End ComparatorFacts.

(** C4, as stated, fails: [alphaNumeric] reads the key ["Infinity"] as the
    number Infinity, and the difference of two infinities is NaN, which is
    not negative, not zero and not positive. *)
Lemma alphaNumeric_Infinity_NaN :
  result (call code_unit_compare AlphaNumeric
            ("Infinity", {| row_id := 0; cells := ["Infinity"] |})
            ("Infinity", {| row_id := 1; cells := ["Infinity"] |})
            initial_closure) = Some NaN /\
  has_sign NaN = false.
Proof. split; reflexivity. Qed.

(** ** Regular expressions *)

Lemma or_else_Some {R : Type} (P : R -> Prop) (x y : option R) (z : R) :
  or_else x y = Some z ->
  (forall v, x = Some v -> P v) -> (forall v, y = Some v -> P v) -> P z.
Proof. destruct x; simpl; intros H Hx Hy; [apply Hx | apply Hy]; assumption. Qed.

Lemma star_loop_inv {R : Type} (P : R -> Prop)
    (step : nat -> string -> captures -> (nat -> string -> captures -> option R) -> option R)
    (g : bool) (k : nat -> string -> captures -> option R) :
  (forall i s c k' x,
      (forall i' s' c' y, k' i' s' c' = Some y -> P y) -> step i s c k' = Some x -> P x) ->
  (forall i s c x, k i s c = Some x -> P x) ->
  forall n i s c x, star_loop step g k n i s c = Some x -> P x.
Proof.
  intros Hstep Hk. induction n as [|n IH]; simpl; intros i s c x H.
  - eapply Hk; eassumption.
  - assert (Hagain : forall v,
        step i s c (fun i' s' c' =>
          if Nat.ltb i i' then star_loop step g k n i' s' c' else None) = Some v -> P v).
    { intros v Hv. eapply Hstep; [|exact Hv].
      intros i' s' c' y. simpl. destruct (Nat.ltb i i'); [apply IH | discriminate]. }
    destruct g; eapply or_else_Some; eauto.
Qed.

(** Whatever holds of every result of the continuation holds of the
    result of the match. *)
Lemma rx_inv {R : Type} (P : R -> Prop) (r : regex) :
  forall i s c (k : nat -> string -> captures -> option R) x,
    (forall i' s' c' y, k i' s' c' = Some y -> P y) ->
    rx r i s c k = Some x -> P x.
Proof.
  induction r as [| | |p|r1 IH1 r2 IH2|r1 IH1 r2 IH2|g r IH|j r IH];
    simpl; intros i s c k x Hk H.
  - eapply Hk; eassumption.
  - destruct (Nat.eqb i 0); [eapply Hk; eassumption | discriminate].
  - destruct s; [eapply Hk; eassumption | discriminate].
  - destruct s as [|a s]; [discriminate|].
    destruct (p a); [eapply Hk; eassumption | discriminate].
  - eapply IH1; [|exact H]. intros i' s' c' y. apply IH2. exact Hk.
  - eapply or_else_Some; [exact H| |]; intros v Hv; [eapply IH1 | eapply IH2]; eauto.
  - eapply star_loop_inv; [| |exact H]; [|exact Hk].
    intros i0 s0 c0 k' x0 Hk' Hx. eapply IH; eauto.
  - eapply IH; [|exact H]. intros i' s' c' y. apply Hk.
Qed.

Lemma match_at_index (r : regex) (i : nat) (s : string) (f : found) :
  match_at r i s = Some f -> index f = i.
Proof.
  unfold match_at. intros H.
  eapply (rx_inv (fun x => index x = i)); [|exact H].
  intros i' s' c' y [= <-]. reflexivity.
Qed.

(** A pattern that matches at the start of the text is found at index 0. *)
Lemma search_at_start (r : regex) (s : string) :
  is_Some (match_at r 0 s) -> search r s = 0.
Proof.
  intros [f Hf]. unfold search, exec.
  destruct s; simpl; rewrite Hf; rewrite (match_at_index _ _ _ _ Hf); reflexivity.
Qed.

Lemma rx_Cls_String {R : Type} (p : ascii -> bool) (i : nat) (a : ascii) (s : string)
    (c : captures) (k : nat -> string -> captures -> option R) :
  rx (Cls p) i (String a s) c k = if p a then k (S i) s c else None.
Proof. reflexivity. Qed.

Lemma rx_Cls_Empty {R : Type} (p : ascii -> bool) (i : nat)
    (c : captures) (k : nat -> string -> captures -> option R) :
  rx (Cls p) i "" c k = None.
Proof. reflexivity. Qed.

Lemma rx_Seq {R : Type} (r1 r2 : regex) (i : nat) (s : string)
    (c : captures) (k : nat -> string -> captures -> option R) :
  rx (Seq r1 r2) i s c k = rx r1 i s c (fun i' s' c' => rx r2 i' s' c' k).
Proof. reflexivity. Qed.

Lemma rx_Star {R : Type} (g : bool) (r : regex) (i : nat) (s : string)
    (c : captures) (k : nat -> string -> captures -> option R) :
  rx (Star g r) i s c k = star_loop (rx r) g k (String.length s) i s c.
Proof. reflexivity. Qed.

(** A greedy quantifier falls back on what follows it. *)
Lemma star_loop_greedy_Some {R : Type}
    (step : nat -> string -> captures -> (nat -> string -> captures -> option R) -> option R)
    (k : nat -> string -> captures -> option R) (n i : nat) (s : string) (c : captures) :
  is_Some (k i s c) -> is_Some (star_loop step true k n i s c).
Proof.
  intros [v Hv]. destruct n; cbn [star_loop]; rewrite Hv; [eauto|].
  match goal with |- is_Some (or_else ?x _) => destruct x; simpl; eauto end.
Qed.

(** [.*] runs to the end of a text without line terminators, when what
    follows the quantifier matches there. *)
Lemma dots_to_end {R : Type} (k : nat -> string -> captures -> option R) :
  (forall i c, is_Some (k i "" c)) ->
  forall s i c,
    string_forall is_dot s = true ->
    is_Some (star_loop (rx (Cls is_dot)) true k (String.length s) i s c).
Proof.
  intros Hk. induction s as [|a s IH]; cbn [String.length star_loop string_forall]; intros i c H.
  - apply Hk.
  - apply andb_true_iff in H as [Ha Hs].
    rewrite rx_Cls_String, Ha, (proj2 (Nat.ltb_lt i (S i))) by lia.
    destruct (IH (S i) c Hs) as [x ->]. simpl. eauto.
Qed.

(** [/^0+.*$/] matches every text that starts with [0] and has no line
    terminator. *)
Lemma leading_zero_matches (rest : string) :
  string_forall is_dot rest = true ->
  search re_leading_zero (String "0" rest) = 0.
Proof.
  intros H. apply search_at_start.
  unfold match_at.
  set (kf := fun (i' : nat) (_ : string) (c : captures) =>
               Some {| index := 0; matched := substring 0 (i' - 0) (String "0" rest);
                       groups := c |}).
  change (is_Some
    (star_loop (rx (Cls (is_char "0"))) true
       (fun i s c =>
          star_loop (rx (Cls is_dot)) true
            (fun i' s' c' => rx (Seq Eol Eps) i' s' c' kf) (String.length s) i s c)
       (String.length rest) 1 rest [])).
  apply star_loop_greedy_Some, dots_to_end; [|exact H].
  intros i c. simpl. eauto.
Qed.

(** ** alphaNumeric *)

Lemma reading_leading_zero (s : string) :
  search re_leading_zero s = 0 -> reading s = Str s.
Proof. intros H. unfold reading. rewrite H. reflexivity. Qed.

Section AlphaNumericFacts.

Variable localeCompare : string -> string -> Z.

Lemma number_before_text (a b : entry) (m : number) (t : string) (c : Closure) :
  reading a.1 = Num m -> reading b.1 = Str t ->
  result (alphaNumeric localeCompare a b c) = Some (Finite (-1)) /\
  result (alphaNumeric localeCompare b a c) = Some (Finite 1).
Proof.
  intros Ha Hb. rewrite !alphaNumeric_result. unfold alphaNumeric_value.
  rewrite Ha, Hb. split; reflexivity.
Qed.


(** C9, as amended.  Every key whose first character is ['0'] and which
    holds no line terminator is read by [alphaNumeric] as a text (the
    pattern [^0+.*$] matches it), so every key read as a number goes
    strictly before it.  So ["5"] goes before ["0.5"], and ["0"] does not
    compare equal to the empty key, which is read as the number zero. *)
Theorem leading_zero_keys_are_text :
  (forall (rest : string) (ra : Row) (b : entry) (c : Closure),
      string_forall is_dot rest = true ->
      search re_leading_zero (String "0" rest) = 0 /\
      tmpa (final (alphaNumeric localeCompare (String "0" rest, ra) b c))
      = Str (String "0" rest) /\
      tmpb (final (alphaNumeric localeCompare b (String "0" rest, ra) c))
      = Str (String "0" rest)) /\
  (forall (rest : string) (a : entry) (m : number) (rb : Row) (c : Closure),
      string_forall is_dot rest = true ->
      tmpa (final (alphaNumeric localeCompare a (String "0" rest, rb) c)) = Num m ->
      result (alphaNumeric localeCompare a (String "0" rest, rb) c) = Some (Finite (-1)) /\
      result (alphaNumeric localeCompare (String "0" rest, rb) a c) = Some (Finite 1)) /\
  (forall (ra rb : Row) (c : Closure),
      result (alphaNumeric localeCompare ("5", ra) ("0.5", rb) c) = Some (Finite (-1)) /\
      result (alphaNumeric localeCompare ("0.5", rb) ("5", ra) c) = Some (Finite 1) /\
      tmpa (final (alphaNumeric localeCompare ("0", ra) ("", rb) c)) = Str "0" /\
      tmpb (final (alphaNumeric localeCompare ("0", ra) ("", rb) c)) = Num (Finite 0) /\
      result (alphaNumeric localeCompare ("0", ra) ("", rb) c) = Some (Finite 1) /\
      result (alphaNumeric localeCompare ("", rb) ("0", ra) c) = Some (Finite (-1))).
Proof.
  split; [|split].
  - intros rest ra b c H. pose proof (leading_zero_matches rest H) as Hm.
    split; [exact Hm|]. rewrite alphaNumeric_tmpa, alphaNumeric_tmpb.
    split; apply reading_leading_zero, Hm.
  - intros rest a m rb c H Ha. rewrite alphaNumeric_tmpa in Ha.
    apply (number_before_text a (String "0" rest, rb) m (String "0" rest) c).
    + exact Ha.
    + apply reading_leading_zero, leading_zero_matches, H.
  - intros ra rb c. rewrite alphaNumeric_tmpa, alphaNumeric_tmpb, !alphaNumeric_result.
    repeat split; reflexivity.
Qed.

End AlphaNumericFacts.


Lemma leading_zero_keys_are_text_witness :
  let a := ("12", {| row_id := 0; cells := ["12"] |}) in
  let rb := {| row_id := 1; cells := ["0.5 kg"] |} in
  string_forall is_dot ".5 kg" = true /\
  tmpa (final (alphaNumeric code_unit_compare a ("0.5 kg", rb) initial_closure))
  = Num (Finite 12) /\
  result (alphaNumeric code_unit_compare a ("0.5 kg", rb) initial_closure)
  = Some (Finite (-1)) /\
  result (alphaNumeric code_unit_compare ("0.5 kg", rb) a initial_closure)
  = Some (Finite 1).
Proof.
  intros a rb.
  split; [reflexivity|]. split; [reflexivity|].
  apply (proj1 (proj2 (leading_zero_keys_are_text code_unit_compare))
           ".5 kg" a (Finite 12) rb initial_closure); reflexivity.
Defined.

(** C9, as stated, fails on a key with a line break: [.] does not match
    a line terminator and [$] only matches at the end of the text, so the
    pattern does not match the key made of ['0'], a line feed and ['5'];
    the key is read as the number 0, and ["5"] goes after it. *)
Lemma leading_zero_line_break_is_number :
  let key := String "0" (String LF "5") in
  let a := ("5", {| row_id := 0; cells := ["5"] |}) in
  let b := (key, {| row_id := 1; cells := [key] |}) in
  search re_leading_zero key = -1 /\
  tmpb (final (alphaNumeric code_unit_compare a b initial_closure)) = Num (Finite 0) /\
  result (alphaNumeric code_unit_compare a b initial_closure) = Some (Finite 5) /\
  is_positive (Finite 5) = true.
Proof. repeat split; reflexivity. Qed.


(** ** Replacing by the empty text *)

Lemma run_length_le (p : ascii -> bool) (s : string) :
  (run_length p s <= String.length s)%nat.
Proof. induction s as [|a s IH]; simpl; [lia|]. destruct (p a); lia. Qed.

Lemma drop_while_length (p : ascii -> bool) (s : string) :
  (String.length (drop_while p s) <= String.length s)%nat.
Proof. induction s as [|a s IH]; simpl; [lia|]. destruct (p a); simpl; lia. Qed.

Lemma substring_empty (s : string) : substring 0 0 s = "".
Proof. destruct s; reflexivity. Qed.

Lemma substring_whole (s : string) : substring 0 (String.length s) s = s.
Proof. induction s as [|a s IH]; simpl; [reflexivity|]. rewrite IH. reflexivity. Qed.

Lemma substring_prefix_length (s : string) (m : nat) :
  (m <= String.length s)%nat -> String.length (substring 0 m s) = m.
Proof.
  revert m. induction s as [|a s IH]; intros [|m] H; simpl in *; try reflexivity; try lia.
  rewrite IH by lia. reflexivity.
Qed.

Lemma substring_after_run (p : ascii -> bool) (s : string) :
  substring (run_length p s) (String.length s - run_length p s) s = drop_while p s.
Proof.
  induction s as [|a s IH]; [reflexivity|].
  cbn [run_length drop_while]. destruct (p a).
  - cbn [String.length substring Nat.sub]. exact IH.
  - rewrite Nat.sub_0_r. apply substring_whole.
Qed.

Lemma string_filter_drop_while (p : ascii -> bool) (s : string) :
  string_filter (fun c => negb (p c)) (drop_while p s)
  = string_filter (fun c => negb (p c)) s.
Proof.
  induction s as [|a s IH]; [reflexivity|]. simpl.
  destruct (p a) eqn:E; simpl; [exact IH|]. rewrite E. reflexivity.
Qed.

Lemma string_filter_ext (p q : ascii -> bool) (s : string) :
  (forall c, p c = q c) -> string_filter p s = string_filter q s.
Proof.
  intros H. induction s as [|a s IH]; [reflexivity|]. simpl. rewrite H, IH. reflexivity.
Qed.

Lemma string_filter_idem (p q : ascii -> bool) (s : string) :
  (forall c, q c = true -> p c = true) ->
  string_filter p (string_filter q s) = string_filter q s.
Proof.
  intros H. induction s as [|a s IH]; [reflexivity|]. simpl.
  destruct (q a) eqn:E; [|exact IH]. simpl. rewrite (H a E), IH. reflexivity.
Qed.

(** A greedy run of one class takes all the characters it can, when what
    follows the quantifier matches anywhere. *)
Lemma star_class_greedy {R : Type} (p : ascii -> bool)
    (k : nat -> string -> captures -> option R) :
  (forall i s c, is_Some (k i s c)) ->
  forall s n i c,
    (String.length s <= n)%nat ->
    star_loop (rx (Cls p)) true k n i s c
    = k (i + run_length p s)%nat (drop_while p s) c.
Proof.
  intros Hk. induction s as [|a s IH]; intros n i c Hn.
  - cbn [run_length drop_while]. rewrite Nat.add_0_r.
    destruct n; cbn [star_loop]; [reflexivity|]. rewrite rx_Cls_Empty. reflexivity.
  - destruct n as [|n]; [simpl in Hn; lia|].
    cbn [star_loop run_length drop_while]. rewrite rx_Cls_String.
    destruct (p a).
    + rewrite (proj2 (Nat.ltb_lt i (S i))) by lia.
      rewrite IH by (simpl in Hn; lia).
      replace (i + S (run_length p s))%nat with (S i + run_length p s)%nat by lia.
      destruct (Hk (S i + run_length p s)%nat (drop_while p s) c) as [v ->]. reflexivity.
    + rewrite Nat.add_0_r. reflexivity.
Qed.

Lemma match_at_plus_class (p : ascii -> bool) (i : nat) (s : string) :
  match_at (plus (Cls p)) i s =
  match s with
  | String a s' =>
      if p a then
        Some {| index := i;
                matched := substring 0 (S i + run_length p s' - i) s;
                groups := [] |}
      else None
  | EmptyString => None
  end.
Proof.
  unfold match_at, plus. rewrite rx_Seq.
  destruct s as [|a s']; [reflexivity|].
  rewrite rx_Cls_String. destruct (p a); [|reflexivity].
  rewrite rx_Star, star_class_greedy; [reflexivity| |lia].
  intros; eauto.
Qed.

Lemma replace_from_plus_class (p : ascii -> bool) (n i : nat) (s : string) :
  (String.length s < n)%nat ->
  replace_from n (plus (Cls p)) "" i s = string_filter (fun c => negb (p c)) s.
Proof.
  revert i s. induction n as [|n IH]; intros i s Hn; [lia|].
  cbn [replace_from]. rewrite match_at_plus_class.
  destruct s as [|a s']; [reflexivity|].
  cbn [string_filter]. destruct (p a) eqn:E; cbn [negb].
  - cbn [matched].
    replace (S i + run_length p s' - i)%nat with (S (run_length p s')) by lia.
    pose proof (run_length_le p s') as Hr.
    rewrite substring_prefix_length by (simpl; lia).
    cbn [append String.length substring Nat.sub].
    rewrite substring_after_run.
    rewrite IH by (pose proof (drop_while_length p s'); simpl in Hn; lia).
    apply string_filter_drop_while.
  - rewrite IH by (simpl in Hn; lia). reflexivity.
Qed.

(** [s.replace(/[class]+/g, '')] keeps the characters outside the class. *)
Lemma replace_all_plus_class (p : ascii -> bool) (s : string) :
  replace_all (plus (Cls p)) "" s = string_filter (fun c => negb (p c)) s.
Proof. apply replace_from_plus_class. lia. Qed.

Lemma replace_from_class (p : ascii -> bool) (n i : nat) (s : string) :
  (String.length s < n)%nat ->
  replace_from n (Cls p) "" i s = string_filter (fun c => negb (p c)) s.
Proof.
  revert i s. induction n as [|n IH]; intros i s Hn; [lia|].
  cbn [replace_from]. unfold match_at.
  destruct s as [|a s']; [reflexivity|].
  rewrite rx_Cls_String. cbn [string_filter]. destruct (p a) eqn:E; cbn [negb].
  - cbn [matched].
    replace (S i - i)%nat with 1%nat by lia.
    cbn [append String.length substring Nat.sub].
    rewrite substring_empty. cbn [append String.length].
    rewrite Nat.sub_0_r, substring_whole.
    apply IH. simpl in Hn; lia.
  - rewrite IH by (simpl in Hn; lia). reflexivity.
Qed.

(** [s.replace(/c/g, '')] keeps the characters other than [c]. *)
Lemma replace_all_class (p : ascii -> bool) (s : string) :
  replace_all (Cls p) "" s = string_filter (fun c => negb (p c)) s.
Proof. apply replace_from_class. lia. Qed.

(** What [sortNumberJS] makes of a key before it reads it as a number:
    the digits, periods and minus signs of the key, in place. *)
Lemma number_text_JS_filter (s : string) :
  number_text_JS s = string_filter number_char_JS s.
Proof.
  unfold number_text_JS, re_not_number_JS, re_comma, chr.
  rewrite replace_all_plus_class, replace_all_class.
  rewrite string_filter_idem.
  - apply string_filter_ext. intros c. apply negb_involutive.
  - intros c H. rewrite negb_involutive in H.
    unfold is_char. destruct (Ascii.eqb_spec "," c) as [<-|]; [discriminate H | reflexivity].
Qed.

(** ** Array.prototype.sort *)

Lemma same_document_trans (st1 st2 st3 : State) :
  same_document st1 st2 -> same_document st2 st3 -> same_document st1 st3.
Proof.
  intros (A1 & A2 & A3 & A4) (B1 & B2 & B3 & B4).
  repeat split; congruence.
Qed.

Section ArraySort.

Variable localeCompare : string -> string -> Z.

Lemma sort_compare_returns (comparefn : option comparator) (a b : entry) (st : State) :
  exists st',
    sort_compare localeCompare comparefn a b st
    = Returned (value_of localeCompare comparefn a b) st' /\
    same_document st st' /\ sort_calls st' = sort_calls st.
Proof.
  destruct comparefn as [f|]; simpl.
  - unfold bind, modify, zoom. cbn [closure count_compare].
    destruct (call_returns localeCompare f a b (closure st)) as [c' ->].
    eexists. split; [reflexivity|]. repeat split.
  - eexists. split; [reflexivity|]. repeat split.
Qed.

Lemma insert_sorted_returns (comparefn : option comparator) (x : entry) (l : list entry)
    (st : State) :
  exists st',
    insert_sorted localeCompare comparefn x l st
    = Returned (insert_value (value_of localeCompare comparefn) x l) st' /\
    same_document st st' /\ sort_calls st' = sort_calls st.
Proof.
  revert st. induction l as [|y l IH]; intros st; cbn [insert_sorted insert_value].
  - eexists. split; [reflexivity|]. repeat split.
  - unfold bind.
    destruct (sort_compare_returns comparefn x y st) as (st1 & -> & D1 & C1).
    destruct (is_positive (value_of localeCompare comparefn x y)).
    + destruct (IH st1) as (st2 & -> & D2 & C2).
      eexists. split; [reflexivity|]. split; [eapply same_document_trans; eassumption|].
      congruence.
    + eexists. split; [reflexivity|]. split; assumption.
Qed.

Lemma sort_elements_returns (comparefn : option comparator) (l : list entry) (st : State) :
  exists st',
    sort_elements localeCompare comparefn l st
    = Returned (sort_values (value_of localeCompare comparefn) l) st' /\
    same_document st st' /\ sort_calls st' = sort_calls st.
Proof.
  revert st. induction l as [|x l IH]; intros st; cbn [sort_elements sort_values].
  - eexists. split; [reflexivity|]. repeat split.
  - unfold bind. destruct (IH st) as (st1 & -> & D1 & C1).
    destruct (insert_sorted_returns comparefn x
                (sort_values (value_of localeCompare comparefn) l) st1)
      as (st2 & -> & D2 & C2).
    eexists. split; [reflexivity|]. split; [eapply same_document_trans; eassumption|].
    congruence.
Qed.

Lemma array_sort_returns (comparefn : option comparator) (l : list entry) (st : State) :
  exists st',
    array_sort localeCompare comparefn l st
    = Returned (sort_values (value_of localeCompare comparefn) l) st' /\
    same_document st st' /\ sort_calls st' = S (sort_calls st).
Proof.
  unfold array_sort, bind, modify.
  destruct (sort_elements_returns comparefn l (count_sort st)) as (st1 & -> & D & C).
  eexists. split; [reflexivity|]. split; [exact D | exact C].
Qed.

End ArraySort.

(** *** The array returned *)

Lemma insert_value_perm (cmp : entry -> entry -> number) (x : entry) (l : list entry) :
  Permutation (insert_value cmp x l) (x :: l).
Proof.
  induction l as [|y l IH]; simpl; [reflexivity|].
  destruct (is_positive (cmp x y)); [|reflexivity].
  rewrite IH. apply perm_swap.
Qed.

Lemma sort_values_perm (cmp : entry -> entry -> number) (l : list entry) :
  Permutation (sort_values cmp l) l.
Proof.
  induction l as [|x l IH]; simpl; [reflexivity|].
  rewrite insert_value_perm, IH. reflexivity.
Qed.

Lemma total_on_spec (cmp : entry -> entry -> number) (l : list entry) (a b : entry) :
  total_on cmp l = true -> In a l -> In b l ->
  le_by cmp a b = false -> le_by cmp b a = true.
Proof.
  unfold total_on. rewrite forallb_forall. intros H Ha Hb Hab.
  specialize (H a Ha). rewrite forallb_forall in H. specialize (H b Hb).
  rewrite Hab in H. exact H.
Qed.

Lemma transitive_on_spec (cmp : entry -> entry -> number) (l : list entry) (a b c : entry) :
  transitive_on cmp l = true -> In a l -> In b l -> In c l ->
  le_by cmp a b = true -> le_by cmp b c = true -> le_by cmp a c = true.
Proof.
  unfold transitive_on. rewrite forallb_forall. intros H Ha Hb Hc Hab Hbc.
  specialize (H a Ha). rewrite forallb_forall in H. specialize (H b Hb).
  rewrite forallb_forall in H. specialize (H c Hc).
  rewrite Hab, Hbc in H. exact H.
Qed.

Lemma insert_value_sorted (cmp : entry -> entry -> number) (u : list entry)
    (x : entry) (l : list entry) :
  consistent_on cmp u = true -> In x u -> (forall y, In y l -> In y u) ->
  StronglySorted (fun a b => le_by cmp a b = true) l ->
  StronglySorted (fun a b => le_by cmp a b = true) (insert_value cmp x l).
Proof.
  intros Hc Hx. apply andb_true_iff in Hc as [Htot Htr].
  induction l as [|y l IH]; intros Hl Hs; simpl.
  - constructor; constructor.
  - inversion Hs as [|? ? Hs' Hy]; subst.
    destruct (is_positive (cmp x y)) eqn:E.
    + constructor.
      * apply IH; [intros; apply Hl; right; assumption | exact Hs'].
      * assert (Hyx : le_by cmp y x = true).
        { apply (total_on_spec cmp u x y Htot Hx); [apply Hl; left; reflexivity|].
          unfold le_by. rewrite E. reflexivity. }
        rewrite List.Forall_forall. intros z Hz.
        apply (Permutation_in _ (insert_value_perm cmp x l)) in Hz.
        destruct Hz as [<-|Hz]; [exact Hyx|].
        rewrite List.Forall_forall in Hy. apply Hy, Hz.
    + assert (Hxy : le_by cmp x y = true) by (unfold le_by; rewrite E; reflexivity).
      constructor; [exact Hs|].
      constructor; [exact Hxy|].
      rewrite List.Forall_forall in *. intros z Hz.
      apply (transitive_on_spec cmp u x y z Htr Hx); auto.
      * apply Hl; left; reflexivity.
      * apply Hl; right; assumption.
Qed.

(** Under a comparator that is consistent on the elements, the array
    returned is in ascending order: no element compares positive with an
    element after it. *)
Lemma sort_values_sorted (cmp : entry -> entry -> number) (l : list entry) :
  consistent_on cmp l = true ->
  StronglySorted (fun a b => le_by cmp a b = true) (sort_values cmp l).
Proof.
  intros Hc.
  assert (H : forall l', (forall y, In y l' -> In y l) ->
            StronglySorted (fun a b => le_by cmp a b = true) (sort_values cmp l')).
  { induction l' as [|x l' IH]; intros Hl; simpl; [constructor|].
    apply (insert_value_sorted cmp l); auto.
    - apply Hl; left; reflexivity.
    - intros y Hy. apply (Permutation_in _ (sort_values_perm cmp l')) in Hy.
      apply Hl; right; assumption.
    - apply IH. intros; apply Hl; right; assumption. }
  apply H. auto.
Qed.

(** ** The fragment and the tbody *)

Lemma remove_row_absent (r : Row) (l : list Row) :
  ~ In (row_id r) (map row_id l) -> remove_row r l = l.
Proof.
  induction l as [|x l IH]; simpl; intros H; [reflexivity|].
  destruct (Nat.eqb_spec (row_id x) (row_id r)) as [E|E]; simpl.
  - exfalso. apply H. left. exact E.
  - rewrite IH; [reflexivity|]. intros Hin. apply H. right. exact Hin.
Qed.

Lemma without_nil (l : list Row) : without [] l = l.
Proof. unfold without. induction l as [|x l IH]; simpl in *; [reflexivity|]. rewrite IH. reflexivity. Qed.

Lemma without_remove_row (r : Row) (rows l : list Row) :
  without rows (remove_row r l) = without (r :: rows) l.
Proof.
  induction l as [|x l IH]; [reflexivity|].
  unfold without, remove_row in *. simpl.
  rewrite (Nat.eqb_sym (row_id r) (row_id x)).
  destruct (Nat.eqb (row_id x) (row_id r)); simpl; rewrite IH; reflexivity.
Qed.

Lemma existsb_row_id (rows : list Row) (r : Row) :
  existsb (fun x => Nat.eqb (row_id x) (row_id r)) rows = true <->
  In (row_id r) (map row_id rows).
Proof.
  rewrite existsb_exists, in_map_iff. split.
  - intros (x & Hx & E). apply Nat.eqb_eq in E. eauto.
  - intros (x & E & Hx). exists x. split; [exact Hx|]. apply Nat.eqb_eq. exact E.
Qed.

(** Nothing is left of a list once all its nodes are taken away. *)
Lemma without_all (rows l : list Row) :
  (forall r, In r l -> In (row_id r) (map row_id rows)) -> without rows l = [].
Proof.
  induction l as [|x l IH]; intros H; [reflexivity|].
  unfold without in *. simpl.
  rewrite (proj2 (existsb_row_id rows x)) by (apply H; left; reflexivity).
  simpl. apply IH. intros r Hr. apply H. right. exact Hr.
Qed.

Lemma set_tbodies_same (st : State) : set_tbodies (tbodies st) st = st.
Proof. destruct st; reflexivity. Qed.

(** Appending distinct nodes to a fragment takes them out of every
    tbody and puts them at the end of the fragment, in order. *)
Lemma append_rows_returns (l fragment : list Row) (st : State) :
  NoDup (map row_id (fragment ++ l)) ->
  append_rows fragment l st
  = Returned (fragment ++ l) (set_tbodies (map (without l) (tbodies st)) st).
Proof.
  revert fragment st. induction l as [|r l IH]; intros fragment st H.
  - simpl. unfold ret. rewrite app_nil_r.
    replace (map (without []) (tbodies st)) with (tbodies st).
    + rewrite set_tbodies_same. reflexivity.
    + induction (tbodies st) as [|b bs IHb]; simpl; [reflexivity|].
      rewrite without_nil, <- IHb. reflexivity.
  - cbn [append_rows]. unfold bind, fragment_appendChild, bind, modify, ret.
    rewrite remove_row_absent.
    + rewrite IH.
      * rewrite <- app_assoc. simpl. f_equal.
        unfold set_tbodies; simpl. f_equal.
        rewrite map_map. apply map_ext. intros b. apply without_remove_row.
      * rewrite <- app_assoc. exact H.
    + rewrite map_app in H. simpl in H.
      apply NoDup_app in H as (_ & H & _). intros Hin.
      apply (H (row_id r)); [apply list_elem_of_In; exact Hin | constructor].
Qed.

Lemma tbody_appendChild_returns (tb : nat) (fragment rows : list Row) (st : State) :
  tbodies st !! tb = Some rows ->
  tbody_appendChild tb fragment st
  = Returned tt (set_tbodies (<[tb := rows ++ fragment]> (tbodies st)) st).
Proof.
  intros H. unfold tbody_appendChild, bind, modify. rewrite H. reflexivity.
Qed.

(** ** Header cells *)

Lemma lookup_alter_cell {A : Type} (f : A -> A) (hs : list (list A)) (row i : nat) (h : A) :
  (hs !! row ≫= (λ cs, cs !! i)) = Some h ->
  (alter (alter f i) row hs !! row ≫= (λ cs, cs !! i)) = Some (f h).
Proof.
  intros H.
  rewrite list_lookup_alter.
  destruct (decide (row = row)); [|done].
  destruct (hs !! row) as [cs|]; simpl in *; [|discriminate].
  rewrite list_lookup_alter.
  destruct (decide (i = i)); [|done].
  rewrite H. reflexivity.
Qed.

Lemma map_m_keyed (column : nat) (rows : list Row) (st : State) :
  Forall (fun row => is_Some (cells row !! column)) rows ->
  map_m (keyed column) rows st = Returned (entries column rows) st.
Proof.
  induction 1 as [|row rows [t Ht] _ IH]; [reflexivity|].
  cbn [map_m]. unfold bind at 1. unfold keyed at 1, getElementText, bind, defined, ret.
  rewrite Ht. unfold bind in IH. rewrite IH.
  unfold entries, key_of. simpl. rewrite Ht. reflexivity.
Qed.

(** ** jrSortTables.sort, branch by branch *)

Lemma column_state_inv (k : tblNumber) (column : nat) (st : State) (hd : HeaderCell) :
  column_state k column st = Some hd ->
  exists prop hrow,
    tableProp st !! k = Some prop /\ headerCells prop = cells_of hrow /\
    header_cell hrow column st = Some hd.
Proof.
  unfold column_state. destruct (tableProp st !! k) as [prop|]; simpl; [|discriminate].
  destruct (headerCells prop) as [|hrow] eqn:E; [discriminate|].
  intros H. exists prop, hrow. auto.
Qed.

Lemma NoDup_rev_ids (l : list Row) :
  NoDup (map row_id l) -> NoDup (map row_id (rev l)).
Proof.
  rewrite map_rev. intros H.
  apply (proj1 (NoDup_Permutation_proper _ _ (Permutation_rev (map row_id l)))), H.
Qed.

Section SortBranches.

Variable localeCompare : string -> string -> Z.

(** The column is sorted already: the request replays the cache, front
    to back or back to front. *)
Lemma sort_toggle (k : tblNumber) (th : th_ref) (st : State)
    (hd : HeaderCell) (cache : list entry) (rows : list Row) :
  column_state k (cellIndex th) st = Some hd ->
  isSorted hd = true ->
  currentSortedTBody hd = Some cache ->
  table_rows k st = Some rows ->
  NoDup (map row_id (map snd cache)) ->
  let d := match sortdir hd with Some up => down | _ => up end in
  let l := match d with up => map snd cache | down => rev (map snd cache) end in
  exists st',
    sort localeCompare k th st = Returned l st' /\
    column_state k (cellIndex th) st'
    = Some (write_sortdir (Some d) (write_currentSortedTBody cache hd)) /\
    table_rows k st' = Some (without l rows ++ l) /\
    tableProp st' = tableProp st /\
    closure st' = closure st /\
    sort_calls st' = sort_calls st /\ compare_calls st' = compare_calls st.
Proof.
  intros Hcol Hsorted Hcache Hrows Hnodup d l.
  destruct (column_state_inv _ _ _ _ Hcol) as (prop & hrow & Hprop & Hcells & Hhd).
  unfold table_rows in Hrows. rewrite Hprop in Hrows. simpl in Hrows.
  assert (Hl : NoDup (map row_id ([] ++ l))).
  { simpl. subst l. destruct d; [exact Hnodup | apply NoDup_rev_ids, Hnodup]. }
  unfold sort. unfold bind at 1. rewrite Hprop. cbn [defined ret].
  rewrite Hcells. unfold bind at 1. rewrite Hhd. cbn [defined ret].
  rewrite Hsorted. unfold bind at 1. unfold bind at 1. rewrite Hcache. cbn [defined ret].
  unfold bind at 1. fold d. fold l.
  rewrite (append_rows_returns l [] st Hl). cbn [ret app].
  unfold bind at 1.
  erewrite tbody_appendChild_returns.
  2:{ cbn [tbodies set_tbodies]. rewrite list_lookup_fmap, Hrows. reflexivity. }
  unfold bind, modify, update_header_cell, modify, ret.
  eexists. split; [reflexivity|].
  cbn [tableProp closure sort_calls compare_calls header_rows tbodies spans
       set_tbodies set_spans set_header_rows].
  repeat split.
  - unfold column_state.
    cbn [tableProp set_header_rows set_spans set_tbodies]. rewrite Hprop.
    cbn [mbind option_bind]. rewrite Hcells.
    unfold header_cell. cbn [header_rows set_header_rows set_spans set_tbodies].
    apply lookup_alter_cell, lookup_alter_cell, Hhd.
  - unfold table_rows.
    cbn [tableProp tbodies set_header_rows set_spans set_tbodies]. rewrite Hprop.
    cbn [mbind option_bind].
    apply list_lookup_insert_eq. rewrite length_fmap. eapply lookup_lt_Some, Hrows.
Qed.

Lemma entries_rows (column : nat) (rows : list Row) :
  map snd (entries column rows) = rows.
Proof.
  unfold entries. rewrite map_map. simpl. apply map_id.
Qed.

Lemma sorted_rows_perm (cmp : entry -> entry -> number) (column : nat) (rows : list Row) :
  Permutation (map snd (sort_values cmp (entries column rows))) rows.
Proof.
  rewrite <- (entries_rows column rows) at 2.
  apply Permutation_map, sort_values_perm.
Qed.

(** The column has not been sorted: the request reads the rows of the
    tbody, sorts them by the keys of the column and orders the tbody so. *)
Lemma sort_first (k : tblNumber) (th : th_ref) (st : State)
    (hd : HeaderCell) (rows : list Row) :
  column_state k (cellIndex th) st = Some hd ->
  isSorted hd = false ->
  table_rows k st = Some rows ->
  Forall (fun row => is_Some (cells row !! cellIndex th)) rows ->
  NoDup (map row_id rows) ->
  let sorted :=
    sort_values (value_of localeCompare (sortfn hd)) (entries (cellIndex th) rows) in
  exists st',
    sort localeCompare k th st = Returned (map snd sorted) st' /\
    column_state k (cellIndex th) st'
    = Some (write_sortdir (sortdir hd)
              (write_currentSortedTBody sorted (write_isSorted true hd))) /\
    table_rows k st' = Some (map snd sorted) /\
    tableProp st' = tableProp st /\
    sort_calls st' = S (sort_calls st).
Proof.
  intros Hcol Hsorted Hrows Hcells_ok Hnodup sorted.
  destruct (column_state_inv _ _ _ _ Hcol) as (prop & hrow & Hprop & Hcells & Hhd).
  unfold table_rows in Hrows. rewrite Hprop in Hrows. cbn [mbind option_bind] in Hrows.
  pose proof (sorted_rows_perm (value_of localeCompare (sortfn hd)) (cellIndex th) rows)
    as Hperm. fold sorted in Hperm.
  assert (Hl : NoDup (map row_id ([] ++ map snd sorted))).
  { simpl. eapply NoDup_Permutation_proper; [|exact Hnodup].
    apply Permutation_map, Hperm. }
  unfold sort. unfold bind at 1. rewrite Hprop. cbn [defined ret].
  rewrite Hcells. unfold bind at 1. rewrite Hhd. cbn [defined ret].
  rewrite Hsorted. unfold bind at 1. unfold bind at 1. rewrite Hrows. cbn [defined ret].
  unfold bind at 1. rewrite (map_m_keyed _ _ _ Hcells_ok).
  unfold bind at 1.
  destruct (array_sort_returns localeCompare (sortfn hd) (entries (cellIndex th) rows) st)
    as (st1 & -> & (D1 & D2 & D3 & D4) & C). fold sorted.
  unfold bind at 1. unfold update_header_cell at 1, modify at 1.
  unfold bind at 1.
  rewrite (append_rows_returns (map snd sorted) [] _ Hl). cbn [ret app].
  unfold bind at 1.
  erewrite tbody_appendChild_returns.
  2:{ cbn [tbodies set_tbodies set_header_rows]. rewrite D3, list_lookup_fmap, Hrows.
      reflexivity. }
  unfold bind, modify, update_header_cell, modify, ret.
  eexists. split; [reflexivity|].
  cbn [tableProp closure sort_calls compare_calls header_rows tbodies spans
       set_tbodies set_spans set_header_rows].
  rewrite D1, D2, D3.
  split; [|split; [|split; [reflexivity | exact C]]].
  - unfold column_state.
    cbn [tableProp set_header_rows set_spans set_tbodies]. rewrite D1, Hprop.
    cbn [mbind option_bind]. rewrite Hcells.
    unfold header_cell. cbn [header_rows set_header_rows set_spans set_tbodies].
    apply lookup_alter_cell, lookup_alter_cell, lookup_alter_cell, Hhd.
  - unfold table_rows.
    cbn [tableProp tbodies set_header_rows set_spans set_tbodies]. rewrite D1, Hprop.
    cbn [mbind option_bind].
    rewrite list_lookup_insert_eq
      by (rewrite length_fmap; eapply lookup_lt_Some, Hrows).
    rewrite without_all; [reflexivity|].
    intros r Hr. apply in_map. apply (Permutation_in _ (Permutation_sym Hperm)), Hr.
Qed.

End SortBranches.

(** ** Three requests on a column that has never been sorted *)

Lemma without_perm (l rows : list Row) :
  Permutation l rows -> without l rows = [].
Proof.
  intros H. apply without_all. intros r Hr.
  apply in_map. apply (Permutation_in _ (Permutation_sym H)), Hr.
Qed.

Section Requests.

Variable localeCompare : string -> string -> Z.

Lemma three_sorts (k : tblNumber) (th : th_ref) (st : State)
    (hd : HeaderCell) (rows : list Row) :
  column_state k (cellIndex th) st = Some hd ->
  isSorted hd = false ->
  sortdir hd = Some up ->
  table_rows k st = Some rows ->
  Forall (fun row => is_Some (cells row !! cellIndex th)) rows ->
  NoDup (map row_id rows) ->
  let cmp := value_of localeCompare (sortfn hd) in
  let sorted := sort_values cmp (entries (cellIndex th) rows) in
  exists st1 st2 st3,
    sort localeCompare k th st = Returned (map snd sorted) st1 /\
    sort localeCompare k th st1 = Returned (rev (map snd sorted)) st2 /\
    sort localeCompare k th st2 = Returned (map snd sorted) st3 /\
    table_rows k st1 = Some (map snd sorted) /\
    table_rows k st2 = Some (rev (map snd sorted)) /\
    table_rows k st3 = Some (map snd sorted).
Proof.
  intros Hcol Hsorted Hdir Hrows Hcells Hnodup cmp sorted.
  destruct (sort_first localeCompare k th st hd rows Hcol Hsorted Hrows Hcells Hnodup)
    as (st1 & E1 & Hcol1 & Hrows1 & _).
  fold cmp in E1, Hcol1, Hrows1. fold sorted in E1, Hcol1, Hrows1.
  assert (Hnd : NoDup (map row_id (map snd sorted))).
  { eapply NoDup_Permutation_proper; [|exact Hnodup].
    apply Permutation_map, sorted_rows_perm. }
  destruct (sort_toggle localeCompare k th st1 _ sorted _ Hcol1 eq_refl eq_refl Hrows1 Hnd)
    as (st2 & E2 & Hcol2 & Hrows2 & _).
  cbn [sortdir write_sortdir write_currentSortedTBody write_isSorted] in E2, Hcol2, Hrows2.
  rewrite Hdir in E2, Hcol2, Hrows2.
  rewrite without_perm in Hrows2 by (symmetry; apply Permutation_rev).
  cbn [app] in Hrows2.
  destruct (sort_toggle localeCompare k th st2 _ sorted _ Hcol2 eq_refl eq_refl Hrows2 Hnd)
    as (st3 & E3 & Hcol3 & Hrows3 & _).
  cbn [sortdir write_sortdir write_currentSortedTBody write_isSorted] in E3, Hrows3.
  rewrite without_perm in Hrows3 by apply Permutation_rev.
  cbn [app] in Hrows3.
  exists st1, st2, st3. repeat split; assumption.
Qed.

End Requests.

(** ** prepareTables *)

Lemma same_but_headers_refl (st : State) : same_but_headers st st.
Proof. repeat split. Qed.

Lemma same_but_headers_trans (st1 st2 st3 : State) :
  same_but_headers st1 st2 -> same_but_headers st2 st3 -> same_but_headers st1 st3.
Proof.
  intros (A1 & A2 & A3 & A4 & A5 & A6) (B1 & B2 & B3 & B4 & B5 & B6).
  repeat split; congruence.
Qed.

Lemma same_shape_refl (st : State) : same_shape st st.
Proof. intros r. reflexivity. Qed.

Lemma same_shape_trans (st1 st2 st3 : State) :
  same_shape st1 st2 -> same_shape st2 st3 -> same_shape st1 st3.
Proof. intros A B r. rewrite B. apply A. Qed.

Lemma lookup_alter_cell_ne {A : Type} (f : A -> A) (hs : list (list A)) (row i r j : nat) :
  r <> row \/ j <> i ->
  (alter (alter f i) row hs !! r ≫= (λ cs, cs !! j)) = (hs !! r ≫= (λ cs, cs !! j)).
Proof.
  intros H. rewrite list_lookup_alter.
  destruct (decide (row = r)) as [<-|]; [|reflexivity].
  destruct (hs !! row) as [cs|]; simpl; [|reflexivity].
  rewrite list_lookup_alter.
  destruct (decide (i = j)) as [<-|]; [|reflexivity].
  destruct H; congruence.
Qed.

Lemma alter_cell_shape {A : Type} (f : A -> A) (hs : list (list A)) (row i r : nat) :
  length <$> alter (alter f i) row hs !! r = length <$> hs !! r.
Proof.
  rewrite list_lookup_alter.
  destruct (decide (row = r)) as [<-|]; [|reflexivity].
  destruct (hs !! row) as [cs|]; simpl; [|reflexivity].
  rewrite length_alter. reflexivity.
Qed.

(** One write to a property of a header cell. *)
Lemma update_header_cell_returns (row i : nat) (f : HeaderCell -> HeaderCell) (st : State) :
  exists st',
    update_header_cell row i f st = Returned tt st' /\
    same_but_headers st st' /\ same_shape st st' /\
    (forall h, header_cell row i st = Some h -> header_cell row i st' = Some (f h)) /\
    (forall r j, r <> row \/ j <> i -> header_cell r j st' = header_cell r j st).
Proof.
  eexists. split; [reflexivity|].
  split; [repeat split|]. split; [|split].
  - intros r. apply alter_cell_shape.
  - intros h H. apply lookup_alter_cell, H.
  - intros r j H. apply lookup_alter_cell_ne, H.
Qed.

(** A loop over distinct columns, each step of which rewrites the header
    cell of its column in the row [row] and nothing else. *)
Lemma for_each_cells (row : nat) (G : nat -> HeaderCell -> HeaderCell)
    (body : nat -> M State unit) (P : State -> Prop) (l : list nat) :
  (forall i st h, i ∈ l -> P st -> header_cell row i st = Some h ->
     exists st',
       body i st = Returned tt st' /\ P st' /\
       same_but_headers st st' /\ same_shape st st' /\
       header_cell row i st' = Some (G i h) /\
       (forall r j, r <> row \/ j <> i -> header_cell r j st' = header_cell r j st)) ->
  NoDup l ->
  forall st, P st -> (forall i, i ∈ l -> is_Some (header_cell row i st)) ->
  exists st',
    for_each l body st = Returned tt st' /\ P st' /\
    same_but_headers st st' /\ same_shape st st' /\
    (forall i h, header_cell row i st = Some h ->
       header_cell row i st' = Some (if bool_decide (i ∈ l) then G i h else h)) /\
    (forall r j, r <> row -> header_cell r j st' = header_cell r j st).
Proof.
  intros Hstep. induction l as [|i l IH]; intros Hnd st HP Hdef.
  - exists st. split; [reflexivity|]. split; [exact HP|].
    split; [apply same_but_headers_refl|]. split; [apply same_shape_refl|].
    split; [|reflexivity]. intros i h H.
    rewrite bool_decide_eq_false_2 by apply not_elem_of_nil. exact H.
  - apply NoDup_cons in Hnd as [Hi Hnd].
    assert (Hil : i ∈ i :: l) by (apply elem_of_cons; left; reflexivity).
    destruct (Hdef i Hil) as [h Hh].
    destruct (Hstep i st h Hil HP Hh) as (st1 & E1 & HP1 & B1 & S1 & C1 & F1).
    assert (Hstep' : forall j st0 h0, j ∈ l -> P st0 -> header_cell row j st0 = Some h0 ->
       exists st', body j st0 = Returned tt st' /\ P st' /\
         same_but_headers st0 st' /\ same_shape st0 st' /\
         header_cell row j st' = Some (G j h0) /\
         (forall r j', r <> row \/ j' <> j -> header_cell r j' st' = header_cell r j' st0)).
    { intros j st0 h0 Hj. apply Hstep, elem_of_cons. right. exact Hj. }
    destruct (IH Hstep' Hnd st1 HP1) as (st2 & E2 & HP2 & B2 & S2 & C2 & F2).
    { intros j Hj. rewrite F1; [apply Hdef, elem_of_cons; right; exact Hj|].
      right. intros ->. apply Hi, Hj. }
    exists st2. cbn [for_each]. unfold bind. rewrite E1, E2.
    split; [reflexivity|]. split; [exact HP2|].
    split; [eapply same_but_headers_trans; eassumption|].
    split; [eapply same_shape_trans; eassumption|].
    split.
    + intros j hj Hj. destruct (decide (j = i)) as [->|Hne].
      * rewrite Hh in Hj. injection Hj as <-.
        rewrite (C2 i (G i h) C1).
        rewrite bool_decide_eq_false_2 by exact Hi.
        rewrite bool_decide_eq_true_2 by exact Hil. reflexivity.
      * rewrite (C2 j hj) by (rewrite F1; [exact Hj | right; exact Hne]).
        f_equal. rewrite (bool_decide_ext (j ∈ i :: l) (j ∈ l)); [reflexivity|].
        rewrite elem_of_cons. intuition congruence.
    + intros r j Hr. rewrite F2 by exact Hr. apply F1. left. exact Hr.
Qed.

Lemma header_cell_length (row i : nat) (st : State) (cs : list HeaderCell) :
  header_rows st !! row = Some cs ->
  (is_Some (header_cell row i st) <-> (i < length cs)%nat).
Proof.
  intros H. unfold header_cell. rewrite H. simpl. apply lookup_lt_is_Some.
Qed.

Lemma addEvent_returns (k : tblNumber) (row : nat) (st : State) :
  is_Some (header_rows st !! row) ->
  exists st',
    addEvent k row st = Returned tt st' /\
    same_but_headers st st' /\ same_shape st st' /\
    (forall i h, header_cell row i st = Some h ->
       header_cell row i st' = Some (write_onclick k h)) /\
    (forall r j, r <> row -> header_cell r j st' = header_cell r j st).
Proof.
  intros [cs Hcs]. unfold addEvent, bind. rewrite Hcs. cbn [defined ret].
  destruct (for_each_cells row (fun _ => write_onclick k)
              (fun i => update_header_cell row i (write_onclick k)) (fun _ => True)
              (rev (seq 0 (length cs)))) with (st := st)
    as (st' & E & _ & B & S & C & F).
  - intros i st0 h _ _ Hh.
    destruct (update_header_cell_returns row i (write_onclick k) st0)
      as (st1 & E1 & B1 & S1 & C1 & F1).
    exists st1. repeat split; try assumption; try apply B1. apply C1, Hh.
  - apply NoDup_ListNoDup. apply List.NoDup_rev, List.seq_NoDup.
  - exact I.
  - intros i Hi. apply (header_cell_length row i st cs Hcs).
    apply list_elem_of_In, in_rev, in_seq in Hi. lia.
  - exists st'. split; [exact E|]. split; [exact B|]. split; [exact S|].
    split; [|exact F].
    intros i h Hh. rewrite (C i h Hh).
    rewrite bool_decide_eq_true_2; [reflexivity|].
    apply list_elem_of_In. rewrite <- in_rev. apply in_seq.
    assert (is_Some (header_cell row i st)) as Hs by eauto.
    apply (header_cell_length row i st cs Hcs) in Hs. lia.
Qed.

Section Prepare.

Variables (tableElem : TableElem) (k : tblNumber).
Variables (hs : list HeaderCell) (row0 : Row) (rest : list Row).

(** The table has a first body row, with a cell under every header cell. *)
Hypothesis first_row_cells : (length hs <= length (cells row0))%nat.

(** One step of the loop over the header cells. *)
Lemma prepare_step (i : nat) (st : State) (h : HeaderCell) :
  i ∈ seq 0 (length hs) ->
  tbodies st !! tBody tableElem = Some (row0 :: rest) ->
  header_cell (tHead tableElem) i st = Some h ->
  exists st',
    (update_header_cell (tHead tableElem) i (write_sortdir (Some up)) ;;
     update_header_cell (tHead tableElem) i (write_isSorted false) ;;
     th <- (fun st => defined (header_cell (tHead tableElem) i st) st) ;;
     match getSortFn (className th) with
     | Some fn => update_header_cell (tHead tableElem) i (write_sortfn fn)
     | None =>
         rows <- (fun st => defined (tbodies st !! tBody tableElem) st) ;;
         row0 <- defined (rows !! 0%nat) ;;
         txt <- getElementText (cells row0 !! i) ;;
         update_header_cell (tHead tableElem) i (write_sortfn (guessDataType txt))
     end)%js st = Returned tt st' /\
    tbodies st' !! tBody tableElem = Some (row0 :: rest) /\
    same_but_headers st st' /\ same_shape st st' /\
    header_cell (tHead tableElem) i st' = Some (prepare_cell row0 i h) /\
    (forall r j, r <> tHead tableElem \/ j <> i -> header_cell r j st' = header_cell r j st).
Proof.
  intros Hi Hrows Hh.
  apply list_elem_of_In, in_seq in Hi.
  destruct (lookup_lt_is_Some_2 (cells row0) i) as [t Ht]; [lia|].
  destruct (update_header_cell_returns (tHead tableElem) i (write_sortdir (Some up)) st)
    as (st1 & E1 & B1 & S1 & C1 & F1).
  destruct (update_header_cell_returns (tHead tableElem) i (write_isSorted false) st1)
    as (st2 & E2 & B2 & S2 & C2 & F2).
  pose proof (C2 _ (C1 _ Hh)) as Hh2.
  set (fn := chosen_comparator row0 i h).
  destruct (update_header_cell_returns (tHead tableElem) i (write_sortfn fn) st2)
    as (st3 & E3 & B3 & S3 & C3 & F3).
  assert (Hrows2 : tbodies st2 !! tBody tableElem = Some (row0 :: rest)).
  { destruct B1 as (_ & _ & T1 & _), B2 as (_ & _ & T2 & _). rewrite T2, T1. exact Hrows. }
  exists st3.
  split.
  { unfold bind at 1. rewrite E1. unfold bind at 1. rewrite E2.
    unfold bind at 1. rewrite Hh2. cbn [defined ret className write_isSorted write_sortdir].
    subst fn. unfold chosen_comparator in E3.
    destruct (getSortFn (className h)) as [f|]; [exact E3|].
    unfold bind at 1. rewrite Hrows2. cbn [defined ret].
    unfold bind at 1. cbn [lookup list_lookup defined ret].
    unfold bind at 1. unfold getElementText, bind. rewrite Ht. cbn [defined ret].
    unfold key_of in E3. rewrite Ht in E3. exact E3. }
  split.
  { destruct B3 as (_ & _ & T3 & _). rewrite T3. exact Hrows2. }
  split; [eapply same_but_headers_trans; [eapply same_but_headers_trans|]; eassumption|].
  split; [eapply same_shape_trans; [eapply same_shape_trans|]; eassumption|].
  split; [apply C3, Hh2|].
  intros r j H. rewrite F3, F2, F1 by exact H. reflexivity.
Qed.

End Prepare.

Lemma prepared_onclick (row0 : Row) (i : nat) (k : tblNumber) (h h' : HeaderCell) :
  prepared row0 i k h h' -> prepared row0 i k h (write_onclick k h').
Proof. intros (A & B & C & D & E & F). repeat split; assumption. Qed.

Lemma prepare_cell_prepared (row0 : Row) (i : nat) (k : tblNumber) (h : HeaderCell) :
  prepared row0 i k h (write_onclick k (prepare_cell row0 i h)).
Proof. repeat split. Qed.

(** [prepareTables], on a table with a header row and a first body row
    that has a cell under every header cell: the table is entered in
    [tableProp] under [k], every column has its comparator, the direction
    ['up'] and the flag [isSorted] off, and the rest of the store is as it
    was. *)
Lemma prepareTables_returns (tableElem : TableElem) (k : tblNumber) (st0 : State)
    (hs : list HeaderCell) (row0 : Row) (rest : list Row) :
  header_rows st0 !! tHead tableElem = Some hs ->
  tbodies st0 !! tBody tableElem = Some (row0 :: rest) ->
  (length hs <= length (cells row0))%nat ->
  (forall f, tFoot tableElem = Some f -> is_Some (header_rows st0 !! f)) ->
  exists st,
    prepareTables tableElem k st0 = Returned tt st /\
    tableProp st =
      <[k := {| headerCells := cells_of (tHead tableElem);
                spanArrowId := "jrSortSpan" +:+ tblNumber_to_string k;
                tbody := tBody tableElem |}]> (tableProp st0) /\
    closure st = closure st0 /\ tbodies st = tbodies st0 /\ spans st = spans st0 /\
    sort_calls st = sort_calls st0 /\ compare_calls st = compare_calls st0 /\
    same_shape st0 st /\
    (forall i h, hs !! i = Some h ->
       exists h', header_cell (tHead tableElem) i st = Some h' /\ prepared row0 i k h h').
Proof.
  intros Hhead Hbody Hcells Hfoot.
  set (p0 := {| headerCells := no_cells;
                spanArrowId := "jrSortSpan" +:+ tblNumber_to_string k;
                tbody := tBody tableElem |}).
  set (sta := set_tableProp (<[k := p0]> (tableProp st0)) st0).
  (* the loop over the header cells *)
  destruct (for_each_cells (tHead tableElem) (prepare_cell row0)
      (fun i =>
         update_header_cell (tHead tableElem) i (write_sortdir (Some up)) ;;
         update_header_cell (tHead tableElem) i (write_isSorted false) ;;
         th <- (fun st => defined (header_cell (tHead tableElem) i st) st) ;;
         match getSortFn (className th) with
         | Some fn => update_header_cell (tHead tableElem) i (write_sortfn fn)
         | None =>
             rows <- (fun st => defined (tbodies st !! tBody tableElem) st) ;;
             row0 <- defined (rows !! 0%nat) ;;
             txt <- getElementText (cells row0 !! i) ;;
             update_header_cell (tHead tableElem) i (write_sortfn (guessDataType txt))
         end)%js
      (fun st => tbodies st !! tBody tableElem = Some (row0 :: rest))
      (seq 0 (length hs))) with (st := sta)
    as (stb & Eb & Pb & Bb & Sb & Cb & Fb).
  { intros i st h Hi HP Hh. eapply prepare_step; eassumption. }
  { apply NoDup_ListNoDup, List.seq_NoDup. }
  { exact Hbody. }
  { intros i Hi. apply (header_cell_length _ i sta hs Hhead).
    apply list_elem_of_In, in_seq in Hi. lia. }
  set (stc := set_tableProp
    (alter (fun p => {| headerCells := cells_of (tHead tableElem);
                        spanArrowId := spanArrowId p; tbody := tbody p |}) k
       (tableProp stb)) stb).
  (* the handlers of the header row *)
  destruct (addEvent_returns k (tHead tableElem) stc) as (std & Ed & Bd & Sd & Cd & Fd).
  { cbn [stc header_rows set_tableProp].
    pose proof (Sb (tHead tableElem)) as Hs. cbn [sta header_rows set_tableProp] in Hs.
    rewrite Hhead in Hs. destruct (header_rows stb !! tHead tableElem); [eauto|discriminate]. }
  assert (Hshape : same_shape st0 std).
  { intros r. rewrite (Sd r). apply (Sb r). }
  assert (Hcell : forall i h, hs !! i = Some h ->
            exists h', header_cell (tHead tableElem) i std = Some h' /\ prepared row0 i k h h').
  { intros i h Hi.
    assert (Hh : header_cell (tHead tableElem) i sta = Some h).
    { unfold header_cell. cbn [sta header_rows set_tableProp]. rewrite Hhead. exact Hi. }
    pose proof (Cb i h Hh) as Hb.
    rewrite bool_decide_eq_true_2 in Hb.
    2:{ apply list_elem_of_In, in_seq. apply lookup_lt_Some in Hi. lia. }
    eexists. split; [apply Cd; exact Hb|]. apply prepare_cell_prepared. }
  assert (Hprop : tableProp stc =
    <[k := {| headerCells := cells_of (tHead tableElem);
              spanArrowId := "jrSortSpan" +:+ tblNumber_to_string k;
              tbody := tBody tableElem |}]> (tableProp st0)).
  { cbn [stc tableProp set_tableProp]. destruct Bb as (_ & -> & _).
    cbn [sta tableProp set_tableProp]. rewrite alter_insert_eq. reflexivity. }
  assert (Hrest : closure std = closure st0 /\ tableProp std = tableProp stc /\
                  tbodies std = tbodies st0 /\ spans std = spans st0 /\
                  sort_calls std = sort_calls st0 /\ compare_calls std = compare_calls st0).
  { destruct Bb as (b1 & b2 & b3 & b4 & b5 & b6), Bd as (d1 & d2 & d3 & d4 & d5 & d6).
    cbn [stc closure tableProp tbodies spans sort_calls compare_calls set_tableProp] in *.
    rewrite d1, d2, d3, d4, d5, d6, b1, b3, b4, b5, b6. repeat split. }
  destruct Hrest as (r1 & r2 & r3 & r4 & r5 & r6).
  assert (Hrun : forall st,
            match tFoot tableElem with
            | Some tfoot => addEvent k tfoot
            | None => ret tt
            end std = Returned tt st ->
            prepareTables tableElem k st0 = Returned tt st).
  { intros st Hm. unfold prepareTables.
    unfold bind at 1. unfold modify at 1. fold p0. fold sta.
    unfold bind at 1. cbn [sta header_rows set_tableProp]. rewrite Hhead.
    cbn [defined ret]. fold sta.
    unfold bind at 1. rewrite Eb.
    unfold bind at 1. unfold modify at 1. fold stc.
    unfold bind at 1. rewrite Ed. exact Hm. }
  destruct (tFoot tableElem) as [f|] eqn:Ef.
  - (* the handlers of the footer row *)
    destruct (addEvent_returns k f std) as (ste & Ee & Be & Se & Ce & Fe).
    { destruct (Hfoot f eq_refl) as [cs Hcs]. pose proof (Hshape f) as Hs.
      rewrite Hcs in Hs. destruct (header_rows std !! f); [eauto|discriminate]. }
    destruct Be as (e1 & e2 & e3 & e4 & e5 & e6).
    exists ste. split; [apply Hrun, Ee|].
    split; [congruence|]. split; [congruence|]. split; [congruence|].
    split; [congruence|]. split; [congruence|]. split; [congruence|].
    split; [intros r; rewrite (Se r); apply Hshape|].
    intros i h Hi. destruct (Hcell i h Hi) as (h' & Hh' & Hp).
    destruct (decide (tHead tableElem = f)) as [<-|Hne].
    + eexists. split; [apply Ce, Hh'|]. apply prepared_onclick, Hp.
    + exists h'. split; [|exact Hp]. rewrite Fe by exact Hne. exact Hh'.
  - exists std. split; [apply Hrun; reflexivity|].
    split; [congruence|]. repeat split; try assumption.
Qed.

(** ** What a request that returns tells of the store it started from *)

Lemma append_rows_total (l fragment : list Row) (st : State) :
  exists fragment' bodies,
    append_rows fragment l st = Returned fragment' (set_tbodies bodies st) /\
    length bodies = length (tbodies st).
Proof.
  revert fragment st. induction l as [|r l IH]; intros fragment st.
  - exists fragment, (tbodies st). rewrite set_tbodies_same. split; reflexivity.
  - cbn [append_rows]. unfold bind, fragment_appendChild, bind, modify, ret.
    destruct (IH (remove_row r fragment ++ [r])
                 (set_tbodies (map (remove_row r) (tbodies st)) st))
      as (f' & bs & E & L).
    exists f', bs. rewrite E. split; [reflexivity|].
    rewrite L. cbn [tbodies set_tbodies]. apply length_map.
Qed.

Lemma map_m_keyed_cases (column : nat) (rows : list Row) (st : State) :
  Forall (fun row => is_Some (cells row !! column)) rows \/
  exists st', map_m (keyed column) rows st = Thrown TypeError st'.
Proof.
  induction rows as [|row rows IH]; [left; constructor|].
  destruct (cells row !! column) as [t|] eqn:Ht.
  - destruct IH as [IH|[st' IH]].
    + left. constructor; [rewrite Ht; eauto | exact IH].
    + right. exists st'. cbn [map_m]. unfold bind at 1.
      unfold keyed at 1, getElementText, bind, defined, ret. rewrite Ht.
      unfold bind in IH. rewrite IH. reflexivity.
  - right. exists st. cbn [map_m]. unfold bind at 1.
    unfold keyed at 1, getElementText, bind, defined, throw. rewrite Ht. reflexivity.
Qed.

Section Inversion.

Variable localeCompare : string -> string -> Z.

Lemma sort_returns_inv (k : tblNumber) (th : th_ref) (st st' : State) (r : list Row) :
  sort localeCompare k th st = Returned r st' ->
  exists hd rows,
    column_state k (cellIndex th) st = Some hd /\
    table_rows k st = Some rows /\
    (isSorted hd = true -> is_Some (currentSortedTBody hd)) /\
    (isSorted hd = false ->
     Forall (fun row => is_Some (cells row !! cellIndex th)) rows).
Proof.
  unfold sort, column_state, table_rows.
  unfold bind at 1. destruct (tableProp st !! k) as [prop|]; [|cbn [defined throw]; discriminate].
  cbn [defined ret mbind option_bind].
  destruct (headerCells prop) as [|hrow]; [cbn [defined throw]; discriminate|].
  unfold bind at 1. destruct (header_cell hrow (cellIndex th) st) as [hd|]; [|cbn [defined throw]; discriminate].
  cbn [defined ret].
  destruct (isSorted hd) eqn:Hs.
  - unfold bind at 1. unfold bind at 1.
    destruct (currentSortedTBody hd) as [cache|] eqn:Hc; [|cbn [defined throw]; discriminate].
    cbn [defined ret]. unfold bind at 1.
    match goal with |- context [append_rows [] ?l st] =>
      destruct (append_rows_total l [] st) as (f' & bs & -> & L)
    end.
    cbn [ret]. unfold bind at 1. unfold tbody_appendChild at 1. unfold bind at 1.
    cbn [tbodies set_tbodies].
    destruct (tbodies st !! tbody prop) as [rows|] eqn:Hrows.
    + intros _. exists hd, rows.
      split; [reflexivity|]. split; [reflexivity|].
      split; [intros _; rewrite Hc; eauto | intros H; congruence].
    + assert (bs !! tbody prop = None) as ->.
      { apply lookup_ge_None. rewrite L. apply lookup_ge_None. exact Hrows. }
      discriminate.
  - unfold bind at 1. unfold bind at 1.
    destruct (tbodies st !! tbody prop) as [rows|]; [|cbn [defined throw]; discriminate].
    cbn [defined ret]. unfold bind at 1.
    destruct (map_m_keyed_cases (cellIndex th) rows st) as [H|[st1 ->]]; [|cbn [defined throw]; discriminate].
    intros _. exists hd, rows.
    split; [reflexivity|]. split; [reflexivity|].
    split; [intros H'; congruence | intros _; exact H].
Qed.

End Inversion.

(** ** The requests of the specification *)

Lemma without_disjoint (l rows : list Row) :
  (forall x, In x rows -> ~ In (row_id x) (map row_id l)) -> without l rows = rows.
Proof.
  induction rows as [|x rows IH]; intros H; [reflexivity|].
  unfold without in *. simpl.
  destruct (existsb (fun y => Nat.eqb (row_id y) (row_id x)) l) eqn:E.
  - exfalso. apply (H x (or_introl eq_refl)). apply existsb_row_id. exact E.
  - simpl. rewrite IH; [reflexivity|]. intros y Hy. apply H. right. exact Hy.
Qed.

Lemma without_app (l a b : list Row) :
  without l (a ++ b) = without l a ++ without l b.
Proof. unfold without. apply List.filter_app. Qed.

Lemma without_ids (l rows : list Row) (x : nat) :
  In x (map row_id (without l rows)) ->
  In x (map row_id rows) /\ ~ In x (map row_id l).
Proof.
  intros H. apply in_map_iff in H as (y & <- & Hy).
  apply filter_In in Hy as [Hy Hn]. split; [apply in_map, Hy|].
  intros Hin. apply existsb_row_id in Hin. rewrite Hin in Hn. discriminate.
Qed.

Lemma without_NoDup (l rows : list Row) :
  NoDup (map row_id rows) -> NoDup (map row_id (without l rows)).
Proof.
  induction rows as [|x rows IH]; intros H; [exact H|].
  simpl in H. apply NoDup_cons in H as [Hx H].
  unfold without in *. simpl.
  destruct (negb (existsb (fun y => Nat.eqb (row_id y) (row_id x)) l)); [|apply IH, H].
  simpl. apply NoDup_cons. split; [|apply IH, H].
  intros Hin. apply Hx. apply list_elem_of_In. apply list_elem_of_In in Hin.
  apply (without_ids l rows), Hin.
Qed.

(** The rows left in place and the rows moved behind them are distinct
    nodes, when the rows of the tbody are and the rows moved are. *)
Lemma rows_after_NoDup (l rows : list Row) :
  NoDup (map row_id rows) -> NoDup (map row_id l) ->
  NoDup (map row_id (without l rows ++ l)).
Proof.
  intros Hr Hl. rewrite map_app. apply NoDup_app.
  split; [apply without_NoDup, Hr|]. split; [|exact Hl].
  intros x Hx Hx'. apply list_elem_of_In in Hx, Hx'.
  apply (without_ids l rows) in Hx as [_ Hx]. contradiction.
Qed.

(** Moving the rows of [r2] behind a tbody that ends with the same rows
    in another order leaves the rows before them in place. *)
Lemma without_replayed (front r1 r2 : list Row) :
  NoDup (map row_id (front ++ r1)) -> Permutation r2 r1 ->
  without r2 (front ++ r1) = front.
Proof.
  intros Hnd Hp. rewrite without_app, (without_perm r2 r1 Hp), app_nil_r.
  apply without_disjoint. intros x Hx Hin.
  rewrite map_app in Hnd. apply NoDup_app in Hnd as (_ & Hd & _).
  apply (Hd (row_id x)); apply list_elem_of_In.
  - apply in_map, Hx.
  - apply (Permutation_in _ (Permutation_map row_id Hp)), Hin.
Qed.

Section Claims.

Variable localeCompare : string -> string -> Z.

(** C8.  Once a request on a column has returned, the next request on it
    is a toggle: it leaves the cached sequence as it is, calls neither
    [Array.prototype.sort] nor a comparator, and moves the cached rows,
    front to back or back to front, to the end of the tbody.  The rows of
    the tbody before the toggle are the rows of the previous result [r1]
    behind the rows [front] that the previous request left in place; after
    the toggle the tbody holds [front] and, behind it, the rows of [r1] in
    the order of the toggle: the same rows, each once, none dropped and
    none duplicated. *)
Theorem toggle_replays_cache (k : tblNumber) (th : th_ref) (st0 st1 : State)
    (r1 : list Row) :
  sort localeCompare k th st0 = Returned r1 st1 ->
  distinct_nodes k (cellIndex th) st0 ->
  exists hd1 cache front r2 st2 hd2,
    column_state k (cellIndex th) st1 = Some hd1 /\
    isSorted hd1 = true /\ currentSortedTBody hd1 = Some cache /\
    table_rows k st1 = Some (front ++ r1) /\
    sort localeCompare k th st1 = Returned r2 st2 /\
    column_state k (cellIndex th) st2 = Some hd2 /\
    isSorted hd2 = true /\ currentSortedTBody hd2 = Some cache /\
    sort_calls st2 = sort_calls st1 /\ compare_calls st2 = compare_calls st1 /\
    closure st2 = closure st1 /\
    (r2 = map snd cache \/ r2 = rev (map snd cache)) /\
    Permutation r2 r1 /\
    table_rows k st2 = Some (front ++ r2) /\
    Permutation (front ++ r2) (front ++ r1) /\
    NoDup (map row_id (front ++ r2)).
Proof.
  intros E [Hrows_nd Hcache_nd].
  destruct (sort_returns_inv localeCompare k th st0 st1 r1 E)
    as (hd0 & rows0 & Hcol0 & Hrows0 & Hsome & Hall).
  assert (Hstep : exists hd1 cache front,
            column_state k (cellIndex th) st1 = Some hd1 /\
            isSorted hd1 = true /\ currentSortedTBody hd1 = Some cache /\
            table_rows k st1 = Some (front ++ r1) /\
            NoDup (map row_id (front ++ r1)) /\
            NoDup (map row_id (map snd cache)) /\
            Permutation r1 (map snd cache)).
  { destruct (isSorted hd0) eqn:Hs.
    - destruct (Hsome eq_refl) as [cache Hc].
      pose proof (Hcache_nd hd0 cache Hcol0 Hc) as Hnd.
      destruct (sort_toggle localeCompare k th st0 hd0 cache rows0 Hcol0 Hs Hc Hrows0 Hnd)
        as (st' & E' & Hcol' & Hrows' & _).
      rewrite E in E'. injection E' as Er <-.
      assert (Hp : Permutation r1 (map snd cache)).
      { rewrite Er. destruct (sortdir hd0) as [[|]|]; try reflexivity.
        symmetry. apply Permutation_rev. }
      rewrite <- Er in Hrows'.
      eexists _, cache, (without r1 rows0). split; [exact Hcol'|]. split; [exact Hs|].
      split; [reflexivity|]. split; [exact Hrows'|].
      split; [|split; [exact Hnd | exact Hp]].
      apply rows_after_NoDup; [apply Hrows_nd, Hrows0|].
      eapply NoDup_Permutation_proper; [|exact Hnd].
      apply Permutation_map, Hp.
    - pose proof (Hrows_nd rows0 Hrows0) as Hnd.
      destruct (sort_first localeCompare k th st0 hd0 rows0 Hcol0 Hs Hrows0
                  (Hall eq_refl) Hnd)
        as (st' & E' & Hcol' & Hrows' & _).
      rewrite E in E'. injection E' as -> <-.
      assert (Hnd' : NoDup (map row_id (map snd
                (sort_values (value_of localeCompare (sortfn hd0))
                   (entries (cellIndex th) rows0))))).
      { eapply NoDup_Permutation_proper; [|exact Hnd].
        apply Permutation_map, sorted_rows_perm. }
      eexists _, _, []. split; [exact Hcol'|]. split; [reflexivity|].
      split; [reflexivity|]. split; [exact Hrows'|].
      split; [exact Hnd'|]. split; [exact Hnd' | reflexivity]. }
  destruct Hstep as (hd1 & cache & front & Hcol1 & Hs1 & Hc1 & Hrows1 & Hnd1 & Hndc & Hperm).
  destruct (sort_toggle localeCompare k th st1 hd1 cache (front ++ r1)
              Hcol1 Hs1 Hc1 Hrows1 Hndc)
    as (st2 & E2 & Hcol2 & Hrows2 & _ & Hcl & Hsc & Hcc).
  set (r2 := match match sortdir hd1 with Some up => down | _ => up end with
             | up => map snd cache
             | down => rev (map snd cache)
             end) in *.
  assert (Hr2 : r2 = map snd cache \/ r2 = rev (map snd cache))
    by (subst r2; destruct (sortdir hd1) as [[|]|]; auto).
  assert (Hp2 : Permutation r2 r1).
  { rewrite Hperm. destruct Hr2 as [->| ->]; [reflexivity|].
    symmetry. apply Permutation_rev. }
  rewrite (without_replayed front r1 r2 Hnd1 Hp2) in Hrows2.
  eexists hd1, cache, front, r2, st2, _.
  split; [exact Hcol1|]. split; [exact Hs1|]. split; [exact Hc1|].
  split; [exact Hrows1|]. split; [exact E2|]. split; [exact Hcol2|].
  split; [exact Hs1|]. split; [reflexivity|].
  split; [exact Hsc|]. split; [exact Hcc|]. split; [exact Hcl|].
  split; [exact Hr2|]. split; [exact Hp2|]. split; [exact Hrows2|].
  split; [apply Permutation_app_head, Hp2|].
  eapply NoDup_Permutation_proper; [|exact Hnd1].
  apply Permutation_map, Permutation_app_head, Hp2.
Qed.

(** C1.  A table with a header row and at least one body row, each row
    a distinct node with a cell under every header cell, is prepared
    under [k]; a column of it is then requested three times.  The first
    request returns the rows of the table in the order
    [Array.prototype.sort] gives them by the keys of the column under the
    comparator of the column: a permutation of the rows, ascending when
    the comparator is consistent on the keys.  The second request returns
    the reverse of the first result, the third the reverse of the second,
    which is the first result; after each request the tbody holds the rows
    in the order returned. *)
Theorem toggle_involution (tableElem : TableElem) (k : tblNumber) (th : th_ref)
    (st0 : State) (hs : list HeaderCell) (h : HeaderCell) (row0 : Row) (rest : list Row) :
  header_rows st0 !! tHead tableElem = Some hs ->
  hs !! cellIndex th = Some h ->
  tbodies st0 !! tBody tableElem = Some (row0 :: rest) ->
  Forall (fun row => (length hs <= length (cells row))%nat) (row0 :: rest) ->
  NoDup (map row_id (row0 :: rest)) ->
  (forall f, tFoot tableElem = Some f -> is_Some (header_rows st0 !! f)) ->
  let fn := chosen_comparator row0 (cellIndex th) h in
  let cmp := fun a b : entry => compare_value localeCompare fn a.1 b.1 in
  let unsorted := entries (cellIndex th) (row0 :: rest) in
  exists (sorted : list entry) (st st1 st2 st3 : State),
    prepareTables tableElem k st0 = Returned tt st /\
    (sortfn <$> column_state k (cellIndex th) st) = Some (Some fn) /\
    sort localeCompare k th st = Returned (map snd sorted) st1 /\
    sort localeCompare k th st1 = Returned (rev (map snd sorted)) st2 /\
    sort localeCompare k th st2 = Returned (rev (rev (map snd sorted))) st3 /\
    rev (rev (map snd sorted)) = map snd sorted /\
    table_rows k st1 = Some (map snd sorted) /\
    table_rows k st2 = Some (rev (map snd sorted)) /\
    table_rows k st3 = Some (map snd sorted) /\
    Permutation sorted unsorted /\
    Permutation (map snd sorted) (row0 :: rest) /\
    (consistent_on cmp unsorted = true ->
     StronglySorted (fun a b => le_by cmp a b = true) sorted).
Proof.
  intros Hhead Hh Hbody Hgrid Hnd Hfoot fn cmp unsorted.
  assert (Hcol : (cellIndex th < length hs)%nat) by (eapply lookup_lt_Some, Hh).
  destruct (prepareTables_returns tableElem k st0 hs row0 rest Hhead Hbody)
    as (st & E & Hprop & _ & Htb & _ & _ & _ & _ & Hcells); [|exact Hfoot|].
  { inversion Hgrid; assumption. }
  destruct (Hcells _ _ Hh) as (h' & Hh' & Hfn & Hdir & Hs & _).
  assert (Hcs : column_state k (cellIndex th) st = Some h').
  { unfold column_state. rewrite Hprop, lookup_insert_eq. exact Hh'. }
  assert (Hrows : table_rows k st = Some (row0 :: rest)).
  { unfold table_rows. rewrite Hprop, lookup_insert_eq. cbn [mbind option_bind tbody].
    rewrite Htb. exact Hbody. }
  assert (Hall : Forall (fun row => is_Some (cells row !! cellIndex th)) (row0 :: rest)).
  { eapply Forall_impl; [exact Hgrid|]. intros row Hrow. simpl in Hrow.
    apply lookup_lt_is_Some. lia. }
  destruct (three_sorts localeCompare k th st h' (row0 :: rest) Hcs Hs Hdir Hrows Hall Hnd)
    as (st1 & st2 & st3 & E1 & E2 & E3 & R1 & R2 & R3).
  rewrite Hfn in E1, E2, E3, R1, R2, R3.
  change (value_of localeCompare (Some fn)) with cmp in *.
  fold unsorted in E1, E2, E3, R1, R2, R3.
  exists (sort_values cmp unsorted), st, st1, st2, st3.
  rewrite rev_involutive.
  split; [exact E|]. split; [rewrite Hcs; simpl; rewrite Hfn; reflexivity|].
  repeat (split; [assumption|]). split; [reflexivity|].
  repeat (split; [assumption|]).
  split; [apply sort_values_perm|]. split; [apply sorted_rows_perm|].
  apply sort_values_sorted.
Qed.

End Claims.

(** ** The page with two tables *)

Lemma prices_rows_distinct : NoDup (map row_id prices_rows).
Proof. apply NoDup_ListNoDup. repeat constructor; simpl; intuition discriminate. Defined.

Lemma toggle_involution_witness :
  let fn := SortNumberJS in
  let cmp := fun a b : entry => compare_value code_unit_compare fn a.1 b.1 in
  header_rows two_tables_page !! tHead prices_table = Some prices_header /\
  tbodies two_tables_page !! tBody prices_table = Some prices_rows /\
  consistent_on cmp (entries 0 prices_rows) = true /\
  exists (sorted : list entry) (st st1 st2 st3 : State),
    prepareTables prices_table (Some 0%nat) two_tables_page = Returned tt st /\
    (sortfn <$> column_state (Some 0%nat) 0 st) = Some (Some fn) /\
    sort code_unit_compare (Some 0%nat) prices_th0 st = Returned (map snd sorted) st1 /\
    sort code_unit_compare (Some 0%nat) prices_th0 st1
    = Returned (rev (map snd sorted)) st2 /\
    sort code_unit_compare (Some 0%nat) prices_th0 st2
    = Returned (rev (rev (map snd sorted))) st3 /\
    rev (rev (map snd sorted)) = map snd sorted /\
    table_rows (Some 0%nat) st1 = Some (map snd sorted) /\
    table_rows (Some 0%nat) st2 = Some (rev (map snd sorted)) /\
    table_rows (Some 0%nat) st3 = Some (map snd sorted) /\
    Permutation sorted (entries 0 prices_rows) /\
    Permutation (map snd sorted) prices_rows /\
    StronglySorted (fun a b => le_by cmp a b = true) sorted.
Proof.
  intros fn cmp.
  split; [reflexivity|]. split; [reflexivity|].
  assert (Hc : consistent_on cmp (entries 0 prices_rows) = true) by (vm_compute; reflexivity).
  split; [exact Hc|].
  destruct (toggle_involution code_unit_compare prices_table (Some 0%nat) prices_th0
              two_tables_page prices_header (th_element "")
              {| row_id := 1; cells := ["$1,234.50"; "25/12/2023"; "pear"] |}
              [ {| row_id := 2; cells := ["$99.90"; "01/11/2023"; "007"] |};
                {| row_id := 3; cells := ["N/A"; "13/02/2024"; "7"] |} ])
    as (sorted & st & st1 & st2 & st3 & H).
  - reflexivity.
  - reflexivity.
  - reflexivity.
  - repeat constructor.
  - exact prices_rows_distinct.
  - intros f Hf. discriminate Hf.
  - exists sorted, st, st1, st2, st3.
    repeat (split; [apply H|]; apply proj2 in H). apply H, Hc.
Defined.

Lemma toggle_replays_cache_witness :
  exists st0 st1 r1,
    sort code_unit_compare None {| th_row := 1; cellIndex := 0 |} st0 = Returned r1 st1 /\
    distinct_nodes None 0 st0 /\
    exists hd1 cache front r2 st2 hd2,
      column_state None 0 st1 = Some hd1 /\
      isSorted hd1 = true /\ currentSortedTBody hd1 = Some cache /\
      table_rows None st1 = Some (front ++ r1) /\
      sort code_unit_compare None {| th_row := 1; cellIndex := 0 |} st1 = Returned r2 st2 /\
      column_state None 0 st2 = Some hd2 /\
      isSorted hd2 = true /\ currentSortedTBody hd2 = Some cache /\
      sort_calls st2 = sort_calls st1 /\ compare_calls st2 = compare_calls st1 /\
      closure st2 = closure st1 /\
      (r2 = map snd cache \/ r2 = rev (map snd cache)) /\
      Permutation r2 r1 /\
      table_rows None st2 = Some (front ++ r2) /\
      Permutation (front ++ r2) (front ++ r1) /\
      NoDup (map row_id (front ++ r2)).
Proof.
  pose (st0 := final (setup [names_table] two_tables_page)).
  pose (o := sort code_unit_compare None {| th_row := 1; cellIndex := 0 |} st0).
  assert (E : o = Returned (default [] (result o)) (final o)) by (vm_compute; reflexivity).
  assert (D : distinct_nodes None 0 st0).
  { split.
    - intros rows [= <-]. apply NoDup_ListNoDup. repeat constructor; simpl; intuition discriminate.
    - intros hd cache [= <-]. discriminate. }
  exists st0, (final o), (default [] (result o)).
  split; [exact E|]. split; [exact D|].
  exact (toggle_replays_cache code_unit_compare None {| th_row := 1; cellIndex := 0 |}
           st0 (final o) (default [] (result o)) E D).
Defined.

(** ** sortNumberJS *)

Lemma sortNumberJS_result (a b : entry) (c : Closure) :
  result (sortNumberJS a b c)
  = Some (js_sub (number_or_zero (string_filter number_char_JS a.1))
                 (number_or_zero (string_filter number_char_JS b.1))).
Proof.
  destruct (sortNumberJS_returns a b c) as [c' ->].
  rewrite !number_text_JS_filter. reflexivity.
Qed.

Lemma array_sort_result (localeCompare : string -> string -> Z)
    (comparefn : option comparator) (l : list entry) (st : State) :
  result (array_sort localeCompare comparefn l st)
  = Some (sort_values (value_of localeCompare comparefn) l).
Proof.
  destruct (array_sort_returns localeCompare comparefn l st) as (st' & -> & _).
  reflexivity.
Qed.

(** C5.  [sortNumberJS] keeps of each key its digits, periods and minus
    signs, reads what is left as a number and takes 0 when it is not one;
    it returns the difference of the two numbers.  So ["$1,234.50"] is
    1234.5, ["$99.90"] is 99.9 and ["N/A"] is 0, and the three keys sort
    to ["N/A"], ["$99.90"], ["$1,234.50"]. *)
Theorem sortNumberJS_example :
  (forall (a b : entry) (c : Closure),
      result (sortNumberJS a b c)
      = Some (js_sub (number_or_zero (string_filter number_char_JS a.1))
                     (number_or_zero (string_filter number_char_JS b.1)))) /\
  (forall t : string,
      number_or_zero t = if is_nan (string_to_number t) then Finite 0 else string_to_number t) /\
  string_filter number_char_JS "$1,234.50" = "1234.50" /\
  string_filter number_char_JS "$99.90" = "99.90" /\
  string_filter number_char_JS "N/A" = "" /\
  number_or_zero "1234.50" = binary64 (12345 # 10) /\
  number_or_zero "99.90" = binary64 (999 # 10) /\
  number_or_zero "" = Finite 0 /\
  number_or_zero "1.2.3" = Finite 0 /\
  (forall (ra rb : Row) (c : Closure),
      (is_negative <$> result (sortNumberJS ("N/A", ra) ("$99.90", rb) c)) = Some true /\
      (is_negative <$> result (sortNumberJS ("$99.90", ra) ("$1,234.50", rb) c)) = Some true /\
      (is_negative <$> result (sortNumberJS ("N/A", ra) ("$1,234.50", rb) c)) = Some true) /\
  (forall (localeCompare : string -> string -> Z) (r1 r2 r3 : Row) (st : State),
      result (array_sort localeCompare (Some SortNumberJS)
                [("$1,234.50", r1); ("$99.90", r2); ("N/A", r3)] st)
      = Some [("N/A", r3); ("$99.90", r2); ("$1,234.50", r1)] /\
      result (array_sort localeCompare (Some SortNumberJS)
                [("N/A", r3); ("$1,234.50", r1); ("$99.90", r2)] st)
      = Some [("N/A", r3); ("$99.90", r2); ("$1,234.50", r1)]).
Proof.
  split; [exact sortNumberJS_result|].
  split; [reflexivity|].
  do 7 (split; [vm_compute; reflexivity|]).
  split.
  - intros ra rb c. rewrite !sortNumberJS_result. repeat split; vm_compute; reflexivity.
  - intros localeCompare r1 r2 r3 st. rewrite !array_sort_result.
    split; vm_compute; reflexivity.
Qed.

(** ** The classifier and the override *)

(** C6: the three samples of the specification classify as it says, but
    the rule fails for a date written with periods.  ["25.12.2023"]
    matches the date pattern with 25 as its first group, so the rule picks
    the day-first comparator; since the text also matches the pattern for
    numbers, which is tried first, [guessDataType] returns
    [sortNumberJS]. *)
Theorem guessDataType_dotted_date :
  guessDataType "25/12/2023" = SortDate /\
  guessDataType "02/25/2023" = SortDate_American /\
  guessDataType "03/04/2023" = SortDate /\
  (group 1 <$> (groups <$> exec re_date "25.12.2023")) = Some "25" /\
  js_gt (parseInt10 "25") (of_Z 12) = true /\
  is_Some (exec re_number "25.12.2023") /\
  guessDataType "25.12.2023" = SortNumberJS.
Proof.
  repeat split; try (vm_compute; reflexivity).
  vm_compute. eauto.
Qed.

(** C3: the names [alphaNumeric], [sortDate], [sortNumberJS] and
    [sortNumber_nonJS] select their comparators, but [sortDate_American]
    does not: [sortDate] stands before it in the pattern built from the
    registry and matches its first eight characters, so the class
    [sortDate_American] selects [sortDate], and [prepareTables] gives the
    column the day-first comparator. *)
Theorem getSortFn_sortDate_American :
  getSortFn "alphaNumeric" = Some AlphaNumeric /\
  getSortFn "sortDate" = Some SortDate /\
  getSortFn "sortNumberJS" = Some SortNumberJS /\
  getSortFn "sortNumber_nonJS" = Some SortNumber_nonJS /\
  (matched <$> exec rxFn "sortDate_American") = Some "sortDate" /\
  getSortFn "sortDate_American" = Some SortDate /\
  (sortfn <$> column_state None 0
     (final (prepareTables {| tHead := 0; tBody := 0; tFoot := None |} None
        (page [[th_element "sortDate_American"]]
              [[ {| row_id := 1; cells := ["02/25/2023"] |};
                 {| row_id := 2; cells := ["11/30/2022"] |} ]]))))
  = Some (Some SortDate).
Proof. repeat split; vm_compute; reflexivity. Qed.

(** ** Several tables *)

(** C2: [setup] calls [prepareTables] with the table and nothing else, so
    [tblNumber] is [undefined] for every table: the second table takes the
    place of the first in [tableProp], under the same key and with the
    same arrow identifier, and a click on a header cell of the first table
    sorts the rows of the second and leaves those of the first as they
    were. *)
Theorem setup_shares_one_key :
  let st := final (setup [prices_table; names_table] two_tables_page) in
  let clicked := click code_unit_compare prices_th0 st in
  result (setup [prices_table; names_table] two_tables_page) = Some tt /\
  tableProp st !! None
  = Some {| headerCells := cells_of (tHead names_table);
            spanArrowId := "jrSortSpanundefined";
            tbody := tBody names_table |} /\
  (forall k, k <> None -> tableProp st !! k = None) /\
  (onclick <$> header_cell 0 0 st) = Some (Some None) /\
  (onclick <$> header_cell 1 0 st) = Some (Some None) /\
  (map row_id <$> result clicked) = Some [12; 11]%nat /\
  tbodies (final clicked) !! tBody prices_table = Some prices_rows /\
  (map row_id <$> tbodies (final clicked) !! tBody names_table) = Some [12; 11]%nat /\
  (isSorted <$> header_cell 0 0 (final clicked)) = Some false /\
  (isSorted <$> header_cell 1 0 (final clicked)) = Some true.
Proof.
  cbv zeta. split; [vm_compute; reflexivity|]. split; [vm_compute; reflexivity|].
  split.
  - intros [n|] Hk; [|congruence].
    assert (E : tableProp (final (setup [prices_table; names_table] two_tables_page))
                = {[ None := {| headerCells := cells_of (tHead names_table);
                                spanArrowId := "jrSortSpanundefined";
                                tbody := tBody names_table |} ]})
      by (vm_compute; reflexivity).
    rewrite E. apply lookup_singleton_ne. discriminate.
  - repeat split; vm_compute; reflexivity.
Qed.

(** * Further properties of the code *)

(** ** A request, step by step *)

Lemma append_rows_eq (l fragment : list Row) (st : State) :
  append_rows fragment l st
  = Returned (fragment_rows fragment l)
             (set_tbodies (map (without l) (tbodies st)) st).
Proof.
  revert fragment st. induction l as [|r l IH]; intros fragment st.
  - cbn [append_rows fragment_rows]. unfold ret.
    replace (map (without []) (tbodies st)) with (tbodies st).
    + rewrite set_tbodies_same. reflexivity.
    + induction (tbodies st) as [|b bs IHb]; simpl; [reflexivity|].
      rewrite without_nil, <- IHb. reflexivity.
  - cbn [append_rows fragment_rows]. unfold bind, fragment_appendChild, bind, modify, ret.
    rewrite IH. f_equal. unfold set_tbodies; simpl. f_equal.
    rewrite map_map. apply map_ext. intros b. apply without_remove_row.
Qed.

Lemma remove_row_ids (r : Row) (l : list Row) (x : nat) :
  In x (map row_id l) -> x <> row_id r -> In x (map row_id (remove_row r l)).
Proof.
  intros H Hne. apply in_map_iff in H as (y & <- & Hy).
  apply in_map. apply filter_In. split; [exact Hy|].
  apply negb_true_iff, Nat.eqb_neq. exact Hne.
Qed.

(** Every node appended is in the fragment at the end, and so is every
    node that was in it. *)
Lemma fragment_rows_ids (l fragment : list Row) (x : nat) :
  In x (map row_id (fragment ++ l)) -> In x (map row_id (fragment_rows fragment l)).
Proof.
  revert fragment. induction l as [|r l IH]; intros fragment H.
  - rewrite app_nil_r in H. exact H.
  - cbn [fragment_rows]. apply IH.
    rewrite !map_app in *. simpl in *.
    apply in_app_or in H as [H|[H|H]].
    + destruct (Nat.eq_dec x (row_id r)) as [->|Hne].
      * apply in_or_app. left. apply in_or_app. right. left. reflexivity.
      * apply in_or_app. left. apply in_or_app. left. apply remove_row_ids; assumption.
    + apply in_or_app. left. apply in_or_app. right. left. exact H.
    + apply in_or_app. right. exact H.
Qed.

Lemma fragment_rows_distinct (l : list Row) :
  NoDup (map row_id l) -> fragment_rows [] l = l.
Proof.
  intros H.
  assert (G : forall fragment, NoDup (map row_id (fragment ++ l)) ->
                               fragment_rows fragment l = fragment ++ l).
  { clear H. induction l as [|r l IH]; intros fragment H.
    - cbn. rewrite app_nil_r. reflexivity.
    - cbn [fragment_rows]. rewrite remove_row_absent.
      + rewrite IH; rewrite <- app_assoc; [reflexivity | exact H].
      + rewrite map_app in H. simpl in H.
        apply NoDup_app in H as (_ & H & _). intros Hin.
        apply (H (row_id r)); [apply list_elem_of_In; exact Hin | constructor]. }
  apply (G []). exact H.
Qed.

Lemma write_fields (d : option direction) (cache : list entry) (hd : HeaderCell) :
  requested hd cache
    (write_sortdir (next_direction hd) (write_currentSortedTBody cache (write_isSorted true hd))).
Proof. repeat split. Qed.

Lemma write_fields_sorted (cache : list entry) (hd : HeaderCell) :
  isSorted hd = true ->
  requested hd cache (write_sortdir (next_direction hd) (write_currentSortedTBody cache hd)).
Proof. intros H. repeat split. exact H. Qed.

Lemma map_m_keyed_throws (column : nat) (rows : list Row) (st : State) :
  Exists (fun row => cells row !! column = None) rows ->
  map_m (keyed column) rows st = Thrown TypeError st.
Proof.
  induction rows as [|row rows IH]; intros H; [inversion H|].
  cbn [map_m]. unfold bind at 1. unfold keyed at 1, getElementText, bind, defined, ret, throw.
  destruct (cells row !! column) as [t|] eqn:Ht; [|reflexivity].
  inversion H as [? ? Hx|? ? Hx]; subst; [congruence|].
  unfold bind in IH. rewrite (IH Hx). reflexivity.
Qed.

Section Requests2.

Variable localeCompare : string -> string -> Z.

(** What a request does when it can run: the table is known, the column
    has a header cell, the tbody is there, and the column has its cache
    if it is sorted, or every row its cell if it is not. *)
Lemma sort_runs (k : tblNumber) (th : th_ref) (st : State)
    (prop : TableProp) (hrow : nat) (hd : HeaderCell) (rows : list Row) :
  tableProp st !! k = Some prop ->
  headerCells prop = cells_of hrow ->
  header_cell hrow (cellIndex th) st = Some hd ->
  tbodies st !! tbody prop = Some rows ->
  (isSorted hd = true -> is_Some (currentSortedTBody hd)) ->
  (isSorted hd = false ->
   Forall (fun row => is_Some (cells row !! cellIndex th)) rows) ->
  exists (cache : list entry) (hd' : HeaderCell) (st' : State),
    sort localeCompare k th st = Returned (fragment_rows [] (replayed hd cache)) st' /\
    (if isSorted hd then currentSortedTBody hd = Some cache
     else cache = sort_values (value_of localeCompare (sortfn hd))
                              (entries (cellIndex th) rows)) /\
    tableProp st' = tableProp st /\
    header_cell hrow (cellIndex th) st' = Some hd' /\ requested hd cache hd' /\
    (forall r j, r <> hrow \/ j <> cellIndex th ->
                 header_cell r j st' = header_cell r j st) /\
    same_shape st st' /\
    tbodies st'
    = <[tbody prop := without (replayed hd cache) rows
                      ++ fragment_rows [] (replayed hd cache)]>
        (map (without (replayed hd cache)) (tbodies st)) /\
    spans st'
    = <[spanArrowId prop := {| parentNode := th; innerHTML := arrows (next_direction hd) |}]>
        (spans st) /\
    (isSorted hd = true ->
     closure st' = closure st /\ sort_calls st' = sort_calls st /\
     compare_calls st' = compare_calls st) /\
    (isSorted hd = false -> sort_calls st' = S (sort_calls st)).
Proof.
  intros Hprop Hcells Hhd Hrows Hcache Hall.
  unfold sort. unfold bind at 1. rewrite Hprop. cbn [defined ret].
  rewrite Hcells. unfold bind at 1. rewrite Hhd. cbn [defined ret].
  unfold replayed, next_direction.
  destruct (isSorted hd) eqn:Hs.
  - destruct (Hcache eq_refl) as [cache Hc].
    set (d := match sortdir hd with Some up => down | _ => up end).
    set (l := match Some d with Some down => rev (map snd cache) | _ => map snd cache end).
    assert (Hl : l = match d with up => map snd cache | down => rev (map snd cache) end)
      by (subst l; destruct d; reflexivity).
    unfold bind at 1. unfold bind at 1. rewrite Hc. cbn [defined ret].
    unfold bind at 1. fold d. rewrite <- Hl. rewrite append_rows_eq. cbn [ret].
    unfold bind at 1.
    erewrite tbody_appendChild_returns.
    2:{ cbn [tbodies set_tbodies]. rewrite list_lookup_fmap, Hrows. reflexivity. }
    unfold bind, modify, update_header_cell, modify, ret.
    exists cache. eexists. eexists. split; [reflexivity|].
    cbn [tableProp closure sort_calls compare_calls header_rows tbodies spans
         set_tbodies set_spans set_header_rows].
    split; [reflexivity|]. split; [reflexivity|].
    split.
    { unfold header_cell. cbn [header_rows set_header_rows set_spans set_tbodies].
      apply lookup_alter_cell, lookup_alter_cell, Hhd. }
    split.
    { pose proof (write_fields_sorted cache hd Hs) as H.
      unfold next_direction in H. rewrite Hs in H. exact H. }
    split.
    { intros r j H. unfold header_cell.
      cbn [header_rows set_header_rows set_spans set_tbodies].
      rewrite !lookup_alter_cell_ne by exact H. reflexivity. }
    split.
    { intros r. cbn [header_rows set_header_rows set_spans set_tbodies].
      rewrite !alter_cell_shape. reflexivity. }
    split; [reflexivity|].
    split; [apply insert_delete_eq|].
    split; [auto | discriminate].
  - cbn [defined ret].
    set (sorted := sort_values (value_of localeCompare (sortfn hd))
                               (entries (cellIndex th) rows)).
    unfold bind at 1. unfold bind at 1. rewrite Hrows. cbn [defined ret].
    unfold bind at 1. rewrite (map_m_keyed _ _ _ (Hall eq_refl)).
    unfold bind at 1.
    destruct (array_sort_returns localeCompare (sortfn hd) (entries (cellIndex th) rows) st)
      as (st1 & -> & (D1 & D2 & D3 & D4) & C). fold sorted.
    unfold bind at 1. unfold update_header_cell at 1, modify at 1.
    unfold bind at 1. rewrite append_rows_eq. cbn [ret].
    unfold bind at 1.
    erewrite tbody_appendChild_returns.
    2:{ cbn [tbodies set_tbodies set_header_rows]. rewrite D3, list_lookup_fmap, Hrows.
        reflexivity. }
    unfold bind, modify, update_header_cell, modify, ret.
    exists sorted. eexists. eexists. split; [reflexivity|].
    cbn [tableProp closure sort_calls compare_calls header_rows tbodies spans
         set_tbodies set_spans set_header_rows].
    rewrite D1, D2, D3, D4.
    split; [reflexivity|]. split; [reflexivity|].
    split.
    { unfold header_cell. cbn [header_rows set_header_rows set_spans set_tbodies].
      apply lookup_alter_cell, lookup_alter_cell, lookup_alter_cell, Hhd. }
    split.
    { pose proof (write_fields None sorted hd) as H.
      unfold next_direction in H. rewrite Hs in H. exact H. }
    split.
    { intros r j H. unfold header_cell.
      cbn [header_rows set_header_rows set_spans set_tbodies].
      rewrite !lookup_alter_cell_ne by exact H. reflexivity. }
    split.
    { intros r. cbn [header_rows set_header_rows set_spans set_tbodies].
      rewrite !alter_cell_shape. reflexivity. }
    split; [reflexivity|].
    split; [apply insert_delete_eq|].
    split; [discriminate | intros _; exact C].
Qed.

End Requests2.

Lemma fragment_rows_ids_inv (l fragment : list Row) (x : nat) :
  In x (map row_id (fragment_rows fragment l)) -> In x (map row_id (fragment ++ l)).
Proof.
  revert fragment. induction l as [|r l IH]; intros fragment H.
  - rewrite app_nil_r. exact H.
  - cbn [fragment_rows] in H. apply IH in H.
    rewrite !map_app in *. simpl in *.
    apply in_app_or in H as [H|H].
    + apply in_app_or in H as [H|[H|[]]].
      * apply in_or_app. left. apply in_map_iff in H as (y & <- & Hy).
        apply filter_In in Hy as [Hy _]. apply in_map. exact Hy.
      * apply in_or_app. right. left. exact H.
    + apply in_or_app. right. right. exact H.
Qed.

Lemma without_same_nodes (l l' rows : list Row) :
  (forall x, In x (map row_id l) <-> In x (map row_id l')) ->
  without l rows = without l' rows.
Proof.
  intros H. unfold without. apply filter_ext. intros r. f_equal.
  destruct (existsb (fun x => Nat.eqb (row_id x) (row_id r)) l) eqn:E;
    destruct (existsb (fun x => Nat.eqb (row_id x) (row_id r)) l') eqn:E'; try reflexivity.
  - apply existsb_row_id, H, existsb_row_id in E. congruence.
  - apply existsb_row_id, H, existsb_row_id in E'. congruence.
Qed.

Lemma without_fragment_rows (l rows : list Row) :
  without (fragment_rows [] l) rows = without l rows.
Proof.
  apply without_same_nodes. intros x. split.
  - exact (fragment_rows_ids_inv l [] x).
  - exact (fragment_rows_ids l [] x).
Qed.

Lemma column_state_cases (k : tblNumber) (column : nat) (st : State) (hd : HeaderCell) :
  column_state k column st = Some hd ->
  exists prop hrow,
    tableProp st !! k = Some prop /\ headerCells prop = cells_of hrow /\
    header_cell hrow column st = Some hd.
Proof.
  unfold column_state. destruct (tableProp st !! k) as [prop|]; [|discriminate].
  cbn [mbind option_bind]. destruct (headerCells prop) as [|hrow] eqn:E; [discriminate|].
  intros H. exists prop, hrow. auto.
Qed.

Lemma table_rows_cases (k : tblNumber) (st : State) (prop : TableProp) (rows : list Row) :
  tableProp st !! k = Some prop -> table_rows k st = Some rows ->
  tbodies st !! tbody prop = Some rows.
Proof. unfold table_rows. intros ->. cbn [mbind option_bind]. auto. Qed.

Lemma cells_cases (column : nat) (rows : list Row) :
  Forall (fun row => is_Some (cells row !! column)) rows \/
  Exists (fun row => cells row !! column = None) rows.
Proof.
  induction rows as [|row rows [IH|IH]].
  - left. constructor.
  - destruct (cells row !! column) as [t|] eqn:E.
    + left. constructor; [rewrite E; eauto | exact IH].
    + right. constructor. exact E.
  - right. constructor 2. exact IH.
Qed.

Section RequestFacts.

Variable localeCompare : string -> string -> Z.

(** X1. [jrSortTables.sort] returns exactly when the table is known, its
    header row has a cell at the column of the [th], and the column has
    its cache if it is marked as sorted, or every row of the tbody a cell
    at that column if it is not.  In every other case it does not
    return. *)
Theorem sort_returns_iff (k : tblNumber) (th : th_ref) (st : State) :
  (exists r st', sort localeCompare k th st = Returned r st') <->
  can_run k (cellIndex th) st.
Proof.
  split.
  - intros (r & st' & H). exact (sort_returns_inv localeCompare k th st st' r H).
  - intros (hd & rows & Hc & Hr & H1 & H2).
    destruct (column_state_cases _ _ _ _ Hc) as (prop & hrow & Hp & Hh & Hd).
    destruct (sort_runs localeCompare k th st prop hrow hd rows Hp Hh Hd
                (table_rows_cases _ _ _ _ Hp Hr) H1 H2) as (cache & hd' & st' & E & _).
    eauto.
Qed.

(** X2. A request that fails changes nothing: when [jrSortTables.sort]
    throws for a table whose tbody is in the document, the exception is a
    TypeError and the store (the document, [tableProp], the closure of the
    comparators) is as it was before the call. *)
Theorem sort_throws_unchanged (k : tblNumber) (th : th_ref) (st st' : State) (e : exn) :
  sort localeCompare k th st = Thrown e st' ->
  (forall prop, tableProp st !! k = Some prop -> is_Some (tbodies st !! tbody prop)) ->
  e = TypeError /\ st' = st.
Proof.
  intros H Hb. destruct e. split; [reflexivity|].
  destruct (tableProp st !! k) as [prop|] eqn:Hp.
  2:{ unfold sort in H. unfold bind at 1 in H. rewrite Hp in H. cbv [defined throw] in H. congruence. }
  destruct (Hb prop eq_refl) as [rows Hrows].
  destruct (headerCells prop) as [|hrow] eqn:Hh.
  { unfold sort in H. unfold bind at 1 in H. rewrite Hp in H. cbn [defined ret] in H.
    rewrite Hh in H. cbv [defined throw] in H. congruence. }
  destruct (header_cell hrow (cellIndex th) st) as [hd|] eqn:Hd.
  2:{ unfold sort in H. unfold bind at 1 in H. rewrite Hp in H. cbn [defined ret] in H.
      rewrite Hh in H. unfold bind at 1 in H. rewrite Hd in H. cbv [defined throw] in H. congruence. }
  assert (R : (isSorted hd = true -> is_Some (currentSortedTBody hd)) ->
              (isSorted hd = false ->
               Forall (fun row => is_Some (cells row !! cellIndex th)) rows) -> False).
  { intros H1 H2.
    destruct (sort_runs localeCompare k th st prop hrow hd rows Hp Hh Hd Hrows H1 H2)
      as (cache & hd' & st1 & E & _). congruence. }
  unfold sort in H. unfold bind at 1 in H. rewrite Hp in H. cbn [defined ret] in H.
  rewrite Hh in H. unfold bind at 1 in H. rewrite Hd in H. cbn [defined ret] in H.
  destruct (isSorted hd) eqn:Hs.
  - destruct (currentSortedTBody hd) as [cache|] eqn:Hc.
    + exfalso. apply R; [eauto | discriminate].
    + unfold bind at 1 in H. unfold bind at 1 in H. cbv [defined throw] in H. congruence.
  - destruct (cells_cases (cellIndex th) rows) as [F|F].
    + exfalso. apply R; [discriminate | auto].
    + unfold bind at 1 in H. unfold bind at 1 in H. rewrite Hrows in H. cbn [defined ret] in H.
      unfold bind at 1 in H. rewrite (map_m_keyed_throws _ _ _ F) in H. congruence.
Qed.

(** X3. After every request the table has its arrow in the header cell
    that was clicked, and the arrow shows the direction the column now
    has; the elements with any other [id] are as they were. *)
Theorem sort_moves_the_arrow (k : tblNumber) (th : th_ref) (st st' : State) (r : list Row) :
  sort localeCompare k th st = Returned r st' ->
  exists prop hd',
    tableProp st !! k = Some prop /\
    column_state k (cellIndex th) st' = Some hd' /\
    spans st' !! spanArrowId prop
    = Some {| parentNode := th; innerHTML := arrows (sortdir hd') |} /\
    forall id, id <> spanArrowId prop -> spans st' !! id = spans st !! id.
Proof.
  intros H.
  destruct (sort_returns_inv localeCompare k th st st' r H) as (hd & rows & Hc & Hr & H1 & H2).
  destruct (column_state_cases _ _ _ _ Hc) as (prop & hrow & Hp & Hh & Hd).
  destruct (sort_runs localeCompare k th st prop hrow hd rows Hp Hh Hd
              (table_rows_cases _ _ _ _ Hp Hr) H1 H2)
    as (cache & hd' & st1 & E & _ & T & C & (_ & _ & D & _) & _ & _ & _ & Sp & _).
  rewrite H in E. injection E as _ <-.
  exists prop, hd'. split; [exact Hp|]. split.
  { unfold column_state. rewrite T, Hp. cbn [mbind option_bind]. rewrite Hh. exact C. }
  rewrite Sp, D. split.
  - apply lookup_insert_eq.
  - intros id Hid. apply lookup_insert_ne. congruence.
Qed.

(** X4. Whatever the request, the tbody afterwards holds the rows the
    request did not move, in the order they had, followed by the rows it
    returned: a row added to the table after a column was sorted stays in
    front when that column is toggled, and a row of the cache that was
    removed from the table comes back. *)
Theorem tbody_after_request (k : tblNumber) (th : th_ref) (st st' : State)
    (r rows : list Row) :
  sort localeCompare k th st = Returned r st' ->
  table_rows k st = Some rows ->
  table_rows k st' = Some (without r rows ++ r).
Proof.
  intros H Hrows.
  destruct (sort_returns_inv localeCompare k th st st' r H) as (hd & rows' & Hc & Hr & H1 & H2).
  rewrite Hrows in Hr. injection Hr as <-.
  destruct (column_state_cases _ _ _ _ Hc) as (prop & hrow & Hp & Hh & Hd).
  pose proof (table_rows_cases _ _ _ _ Hp Hrows) as Hb.
  destruct (sort_runs localeCompare k th st prop hrow hd rows Hp Hh Hd Hb H1 H2)
    as (cache & hd' & st1 & E & _ & T & _ & _ & _ & _ & B & _).
  rewrite H in E. injection E as -> <-.
  unfold table_rows. rewrite T, Hp. cbn [mbind option_bind]. rewrite B.
  rewrite without_fragment_rows. apply list_lookup_insert_eq.
  rewrite length_map. apply (lookup_lt_Some _ _ _ Hb).
Qed.

(** X5. A request leaves every other header cell as it was, so the cache
    of a column survives the sorting of another one: when column A has
    been sorted and then column B, the next request for column A replays
    the cache of A, front to back or back to front, and calls neither
    [Array.prototype.sort] nor a comparator. *)
Theorem cache_survives_other_column (k : tblNumber) (tha thb : th_ref)
    (st0 st1 st2 : State) (r1 r2 : list Row) :
  sort localeCompare k tha st0 = Returned r1 st1 ->
  sort localeCompare k thb st1 = Returned r2 st2 ->
  cellIndex thb <> cellIndex tha ->
  exists hd cache r3 st3,
    column_state k (cellIndex tha) st1 = Some hd /\
    column_state k (cellIndex tha) st2 = Some hd /\
    isSorted hd = true /\ currentSortedTBody hd = Some cache /\
    sort localeCompare k tha st2 = Returned r3 st3 /\
    (r3 = fragment_rows [] (map snd cache) \/
     r3 = fragment_rows [] (rev (map snd cache))) /\
    sort_calls st3 = sort_calls st2 /\ compare_calls st3 = compare_calls st2 /\
    closure st3 = closure st2.
Proof.
  intros Ha Hb Hne.
  (* the first request *)
  destruct (sort_returns_inv localeCompare k tha st0 st1 r1 Ha)
    as (hd0 & rows0 & Hc0 & Hr0 & H01 & H02).
  destruct (column_state_cases _ _ _ _ Hc0) as (prop & hrow & Hp & Hh & Hd0).
  destruct (sort_runs localeCompare k tha st0 prop hrow hd0 rows0 Hp Hh Hd0
              (table_rows_cases _ _ _ _ Hp Hr0) H01 H02)
    as (cache & hd & s1 & E & _ & T1 & C1 & (S1 & K1 & _) & _ & _ & _).
  rewrite Ha in E. injection E as _ <-.
  (* the second request *)
  destruct (sort_returns_inv localeCompare k thb st1 st2 r2 Hb)
    as (hdb & rows1 & Hcb & Hr1 & Hb1 & Hb2).
  rewrite <- T1 in Hp.
  destruct (column_state_cases _ _ _ _ Hcb) as (prop' & hrow' & Hp' & Hh' & Hdb).
  rewrite Hp in Hp'. injection Hp' as <-. rewrite Hh in Hh'. injection Hh' as <-.
  pose proof (table_rows_cases _ _ _ _ Hp Hr1) as Hrows1.
  destruct (sort_runs localeCompare k thb st1 prop hrow hdb rows1 Hp Hh Hdb Hrows1 Hb1 Hb2)
    as (cacheb & hdb' & s2 & E & _ & T2 & _ & _ & F2 & _ & B2 & _).
  rewrite Hb in E. injection E as _ <-.
  assert (C2 : header_cell hrow (cellIndex tha) st2 = Some hd).
  { rewrite F2; [exact C1 | right; congruence]. }
  rewrite <- T2 in Hp.
  assert (Hrows2 : is_Some (tbodies st2 !! tbody prop)).
  { rewrite B2. apply lookup_lt_is_Some. rewrite length_insert, length_map.
    apply (lookup_lt_Some _ _ _ Hrows1). }
  destruct Hrows2 as [rows2 Hrows2].
  (* the third request *)
  destruct (sort_runs localeCompare k tha st2 prop hrow hd rows2 Hp Hh C2 Hrows2)
    as (cache' & hd3 & st3 & E & Hcache & _ & _ & _ & _ & _ & _ & _ & Q & _).
  { intros _. rewrite K1. eauto. }
  { congruence. }
  rewrite S1 in Hcache. rewrite K1 in Hcache. injection Hcache as <-.
  destruct (Q S1) as (Q1 & Q2 & Q3).
  exists hd, cache, (fragment_rows [] (replayed hd cache)), st3.
  split. { unfold column_state. rewrite T2 in Hp. rewrite Hp. cbn [mbind option_bind].
           rewrite Hh. exact C1. }
  split. { unfold column_state. rewrite Hp. cbn [mbind option_bind]. rewrite Hh. exact C2. }
  split; [exact S1|]. split; [exact K1|]. split; [exact E|].
  split; [|auto].
  unfold replayed. rewrite S1. destruct (next_direction hd) as [[|]|]; auto.
Qed.

(** X6. A request for one table leaves another table alone: when the
    other table has its own tbody, header row and arrow [id], and none of
    its rows is among the rows the request moved, its rows, its header
    cells and its arrow are as they were. *)
Theorem other_table_untouched (k k' : tblNumber) (th : th_ref) (st st' : State)
    (r rows' : list Row) (prop prop' : TableProp) :
  sort localeCompare k th st = Returned r st' ->
  tableProp st !! k = Some prop ->
  tableProp st !! k' = Some prop' ->
  tbody prop' <> tbody prop ->
  headerCells prop' <> headerCells prop ->
  spanArrowId prop' <> spanArrowId prop ->
  table_rows k' st = Some rows' ->
  (forall x, In x rows' -> ~ In (row_id x) (map row_id r)) ->
  table_rows k' st' = Some rows' /\
  (forall j, column_state k' j st' = column_state k' j st) /\
  spans st' !! spanArrowId prop' = spans st !! spanArrowId prop' /\
  tableProp st' = tableProp st.
Proof.
  intros H Hp Hp' Hb Hc Hs Hrows' Hdis.
  destruct (sort_returns_inv localeCompare k th st st' r H) as (hd & rows & Hcs & Hr & H1 & H2).
  destruct (column_state_cases _ _ _ _ Hcs) as (prop0 & hrow & Hp0 & Hh & Hd).
  rewrite Hp in Hp0. injection Hp0 as <-.
  destruct (sort_runs localeCompare k th st prop hrow hd rows Hp Hh Hd
              (table_rows_cases _ _ _ _ Hp Hr) H1 H2)
    as (cache & hd' & st1 & E & _ & T & _ & _ & F & _ & B & Sp & _).
  rewrite H in E. injection E as -> <-.
  pose proof (table_rows_cases _ _ _ _ Hp' Hrows') as Hb'.
  split.
  { unfold table_rows. rewrite T, Hp'. cbn [mbind option_bind]. rewrite B.
    rewrite list_lookup_insert_ne by congruence.
    rewrite list_lookup_fmap, Hb'. cbn. f_equal.
    rewrite <- without_fragment_rows. apply without_disjoint. exact Hdis. }
  split.
  { intros j. unfold column_state. rewrite T, Hp'. cbn [mbind option_bind].
    destruct (headerCells prop') as [|hrow'] eqn:Hh'; [reflexivity|].
    apply F. left. congruence. }
  split; [|exact T].
  rewrite Sp. apply lookup_insert_ne. congruence.
Qed.

(** X7. The header cell passed to [jrSortTables.sort] counts by its
    [cellIndex] only, apart from being the parent of the arrow: a click
    on a cell of the tfoot does to the rows, the header cells, [tableProp]
    and the closure what a click on the cell of the thead above it does,
    shows the same arrows, and fails when that one fails. *)
Theorem sort_from_footer (k : tblNumber) (th th' : th_ref) (st : State) :
  cellIndex th' = cellIndex th ->
  match sort localeCompare k th st, sort localeCompare k th' st with
  | Returned r s, Returned r' s' =>
      r' = r /\ set_spans (spans s) s' = s /\
      forall id, innerHTML <$> spans s' !! id = innerHTML <$> spans s !! id
  | Thrown _ s, Thrown _ s' => s' = s
  | _, _ => False
  end.
Proof.
  destruct th as [ra c], th' as [rb c']. cbn [cellIndex]. intros ->.
  unfold sort, bind. cbn [cellIndex].
  destruct (defined (tableProp st !! k) st) as [prop s0|e s0]; [|reflexivity].
  destruct (headerCells prop) as [|hrow]; [reflexivity|].
  destruct (defined (header_cell hrow c s0) s0) as [hd s1|e s1]; [|reflexivity].
  assert (G : forall (d : option direction) (cache : list entry) (f : list Row) (s2 : State),
    match
      match tbody_appendChild (tbody prop) f s2 with
      | Returned _ s3 =>
          match modify (fun st => set_spans (delete (spanArrowId prop) (spans st)) st) s3 with
          | Returned _ s4 =>
              match modify (fun st => set_spans
                      (<[spanArrowId prop := {| parentNode := {| th_row := ra; cellIndex := c |};
                                               innerHTML := arrows d |}]> (spans st)) st) s4 with
              | Returned _ s5 =>
                  match update_header_cell hrow c (write_currentSortedTBody cache) s5 with
                  | Returned _ s6 =>
                      match update_header_cell hrow c (write_sortdir d) s6 with
                      | Returned _ s7 => ret f s7
                      | Thrown e s7 => Thrown e s7
                      end
                  | Thrown e s6 => Thrown e s6
                  end
              | Thrown e s5 => Thrown e s5
              end
          | Thrown e s4 => Thrown e s4
          end
      | Thrown e s3 => Thrown e s3
      end,
      match tbody_appendChild (tbody prop) f s2 with
      | Returned _ s3 =>
          match modify (fun st => set_spans (delete (spanArrowId prop) (spans st)) st) s3 with
          | Returned _ s4 =>
              match modify (fun st => set_spans
                      (<[spanArrowId prop := {| parentNode := {| th_row := rb; cellIndex := c |};
                                               innerHTML := arrows d |}]> (spans st)) st) s4 with
              | Returned _ s5 =>
                  match update_header_cell hrow c (write_currentSortedTBody cache) s5 with
                  | Returned _ s6 =>
                      match update_header_cell hrow c (write_sortdir d) s6 with
                      | Returned _ s7 => ret f s7
                      | Thrown e s7 => Thrown e s7
                      end
                  | Thrown e s6 => Thrown e s6
                  end
              | Thrown e s5 => Thrown e s5
              end
          | Thrown e s4 => Thrown e s4
          end
      | Thrown e s3 => Thrown e s3
      end
    with
    | Returned r s, Returned r' s' =>
        r' = r /\ set_spans (spans s) s' = s /\
        forall id, innerHTML <$> spans s' !! id = innerHTML <$> spans s !! id
    | Thrown _ s, Thrown _ s' => s' = s
    | _, _ => False
    end).
  { intros d cache f s2.
    destruct (tbody_appendChild (tbody prop) f s2) as [[] s3|e s3]; [|reflexivity].
    unfold modify, update_header_cell, modify, ret.
    split; [reflexivity|]. split; [reflexivity|].
    intros id. cbn [spans set_spans set_header_rows].
    destruct (decide (id = spanArrowId prop)) as [->|Hne].
    - rewrite !lookup_insert_eq. reflexivity.
    - rewrite !lookup_insert_ne by congruence. reflexivity. }
  destruct (isSorted hd).
  - destruct (defined (currentSortedTBody hd) s1) as [cache s2|e s2]; [|reflexivity].
    destruct (append_rows [] _ s2) as [f s3|e s3]; [|reflexivity].
    apply G.
  - destruct (defined (tbodies s1 !! tbody prop) s1) as [tbr s2|e s2]; [|reflexivity].
    destruct (map_m (keyed c) tbr s2) as [unsorted s3|e s3]; [|reflexivity].
    destruct (array_sort localeCompare (sortfn hd) unsorted s3) as [sorted s4|e s4];
      [|reflexivity].
    destruct (update_header_cell hrow c (write_isSorted true) s4) as [[] s5|e s5];
      [|reflexivity].
    destruct (append_rows [] (map snd sorted) s5) as [f s6|e s6]; [|reflexivity].
    apply G.
Qed.

End RequestFacts.

Lemma sort_throws_unchanged_witness :
  let o := sort code_unit_compare (Some 0%nat) prices_th1 ragged_page in
  o = Thrown TypeError (final o) /\
  (forall prop, tableProp ragged_page !! Some 0%nat = Some prop ->
                is_Some (tbodies ragged_page !! tbody prop)) /\
  TypeError = TypeError /\ final o = ragged_page.
Proof.
  intros o.
  assert (E : o = Thrown TypeError (final o)) by (vm_compute; reflexivity).
  assert (B : forall prop, tableProp ragged_page !! Some 0%nat = Some prop ->
                           is_Some (tbodies ragged_page !! tbody prop)).
  { intros prop [= <-]. vm_compute. eauto. }
  split; [exact E|]. split; [exact B|].
  exact (sort_throws_unchanged code_unit_compare (Some 0%nat) prices_th1 ragged_page
           (final o) TypeError E B).
Defined.

Lemma sort_moves_the_arrow_witness :
  let o := sort code_unit_compare (Some 0%nat) prices_th0 numbered_page in
  o = Returned (default [] (result o)) (final o) /\
  exists prop hd',
    tableProp numbered_page !! Some 0%nat = Some prop /\
    column_state (Some 0%nat) (cellIndex prices_th0) (final o) = Some hd' /\
    spans (final o) !! spanArrowId prop
    = Some {| parentNode := prices_th0; innerHTML := arrows (sortdir hd') |} /\
    forall id, id <> spanArrowId prop -> spans (final o) !! id = spans numbered_page !! id.
Proof.
  intros o.
  assert (E : o = Returned (default [] (result o)) (final o)) by (vm_compute; reflexivity).
  split; [exact E|].
  exact (sort_moves_the_arrow code_unit_compare (Some 0%nat) prices_th0 numbered_page
           (final o) (default [] (result o)) E).
Defined.

Lemma tbody_after_request_witness :
  let o := sort code_unit_compare (Some 0%nat) prices_th0 numbered_page in
  o = Returned (default [] (result o)) (final o) /\
  table_rows (Some 0%nat) numbered_page = Some prices_rows /\
  table_rows (Some 0%nat) (final o)
  = Some (without (default [] (result o)) prices_rows ++ default [] (result o)).
Proof.
  intros o.
  assert (E : o = Returned (default [] (result o)) (final o)) by (vm_compute; reflexivity).
  assert (R : table_rows (Some 0%nat) numbered_page = Some prices_rows)
    by (vm_compute; reflexivity).
  split; [exact E|]. split; [exact R|].
  exact (tbody_after_request code_unit_compare (Some 0%nat) prices_th0 numbered_page
           (final o) (default [] (result o)) prices_rows E R).
Defined.

Lemma cache_survives_other_column_witness :
  let o1 := sort code_unit_compare (Some 0%nat) prices_th0 numbered_page in
  let o2 := sort code_unit_compare (Some 0%nat) prices_th1 (final o1) in
  o1 = Returned (default [] (result o1)) (final o1) /\
  o2 = Returned (default [] (result o2)) (final o2) /\
  cellIndex prices_th1 <> cellIndex prices_th0 /\
  exists hd cache r3 st3,
    column_state (Some 0%nat) (cellIndex prices_th0) (final o1) = Some hd /\
    column_state (Some 0%nat) (cellIndex prices_th0) (final o2) = Some hd /\
    isSorted hd = true /\ currentSortedTBody hd = Some cache /\
    sort code_unit_compare (Some 0%nat) prices_th0 (final o2) = Returned r3 st3 /\
    (r3 = fragment_rows [] (map snd cache) \/
     r3 = fragment_rows [] (rev (map snd cache))) /\
    sort_calls st3 = sort_calls (final o2) /\ compare_calls st3 = compare_calls (final o2) /\
    closure st3 = closure (final o2).
Proof.
  intros o1 o2.
  assert (E1 : o1 = Returned (default [] (result o1)) (final o1)) by (vm_compute; reflexivity).
  assert (E2 : o2 = Returned (default [] (result o2)) (final o2)) by (vm_compute; reflexivity).
  assert (N : cellIndex prices_th1 <> cellIndex prices_th0) by (simpl; lia).
  split; [exact E1|]. split; [exact E2|]. split; [exact N|].
  exact (cache_survives_other_column code_unit_compare (Some 0%nat) prices_th0 prices_th1
           numbered_page (final o1) (final o2) (default [] (result o1))
           (default [] (result o2)) E1 E2 N).
Defined.

Lemma other_table_untouched_witness :
  let o := sort code_unit_compare (Some 0%nat) prices_th0 numbered_page in
  let prop := {| headerCells := cells_of 0; spanArrowId := "jrSortSpan0"; tbody := 0 |} in
  let prop' := {| headerCells := cells_of 1; spanArrowId := "jrSortSpan1"; tbody := 1 |} in
  o = Returned (default [] (result o)) (final o) /\
  tableProp numbered_page !! Some 0%nat = Some prop /\
  tableProp numbered_page !! Some 1%nat = Some prop' /\
  tbody prop' <> tbody prop /\
  headerCells prop' <> headerCells prop /\
  spanArrowId prop' <> spanArrowId prop /\
  table_rows (Some 1%nat) numbered_page = Some names_rows /\
  (forall x, In x names_rows -> ~ In (row_id x) (map row_id (default [] (result o)))) /\
  table_rows (Some 1%nat) (final o) = Some names_rows /\
  (forall j, column_state (Some 1%nat) j (final o) = column_state (Some 1%nat) j numbered_page) /\
  spans (final o) !! spanArrowId prop' = spans numbered_page !! spanArrowId prop' /\
  tableProp (final o) = tableProp numbered_page.
Proof.
  intros o prop prop'.
  assert (E : o = Returned (default [] (result o)) (final o)) by (vm_compute; reflexivity).
  assert (P : tableProp numbered_page !! Some 0%nat = Some prop) by (vm_compute; reflexivity).
  assert (P' : tableProp numbered_page !! Some 1%nat = Some prop') by (vm_compute; reflexivity).
  assert (B : tbody prop' <> tbody prop) by (simpl; lia).
  assert (C : headerCells prop' <> headerCells prop) by (simpl; discriminate).
  assert (S : spanArrowId prop' <> spanArrowId prop) by (simpl; discriminate).
  assert (R : table_rows (Some 1%nat) numbered_page = Some names_rows)
    by (vm_compute; reflexivity).
  assert (D : forall x, In x names_rows ->
                        ~ In (row_id x) (map row_id (default [] (result o)))).
  { intros x Hx. vm_compute in Hx. vm_compute.
    destruct Hx as [<-|[<-|[]]]; simpl; lia. }
  split; [exact E|]. split; [exact P|]. split; [exact P'|]. split; [exact B|].
  split; [exact C|]. split; [exact S|]. split; [exact R|]. split; [exact D|].
  exact (other_table_untouched code_unit_compare (Some 0%nat) (Some 1%nat) prices_th0
           numbered_page (final o) (default [] (result o)) names_rows prop prop'
           E P P' B C S R D).
Defined.

Lemma sort_from_footer_witness :
  let th := prices_th0 in
  let th' := {| th_row := 2; cellIndex := 0 |} in
  cellIndex th' = cellIndex th /\
  match sort code_unit_compare (Some 0%nat) th numbered_page,
        sort code_unit_compare (Some 0%nat) th' numbered_page with
  | Returned r s, Returned r' s' =>
      r' = r /\ set_spans (spans s) s' = s /\
      forall id, innerHTML <$> spans s' !! id = innerHTML <$> spans s !! id
  | Thrown _ s, Thrown _ s' => s' = s
  | _, _ => False
  end.
Proof.
  intros th th'. split; [reflexivity|].
  exact (sort_from_footer code_unit_compare (Some 0%nat) th th' numbered_page eq_refl).
Defined.

(** ** The date comparators *)

Lemma ascii_compare_refl (x : ascii) : Ascii.compare x x = Eq.
Proof. unfold Ascii.compare. apply N.compare_refl. Qed.

Lemma string_compare_refl (x : string) : String.compare x x = Eq.
Proof.
  induction x as [|a x IH]; [reflexivity|].
  simpl. rewrite ascii_compare_refl. exact IH.
Qed.

Lemma compare_keys_compare (x y : string) :
  compare_keys x y = sign_of (String.compare x y).
Proof.
  unfold compare_keys, str_lt, String.ltb.
  destruct (String.eqb_spec x y) as [->|Hne].
  - rewrite string_compare_refl. reflexivity.
  - destruct (String.compare x y) eqn:E; try reflexivity.
    apply String.compare_eq_iff in E. contradiction.
Qed.

Lemma string_compare_app (a a' b b' : string) :
  String.length a = String.length a' ->
  String.compare (a +:+ b) (a' +:+ b')
  = match String.compare a a' with
    | Eq => String.compare b b'
    | o => o
    end.
Proof.
  revert a'. induction a as [|x a IH]; intros [|x' a'] H; try discriminate H.
  - reflexivity.
  - simpl. destruct (Ascii.compare x x'); try reflexivity.
    apply IH. simpl in H. congruence.
Qed.

Lemma ascii_compare_lt_trans (x y z : ascii) :
  Ascii.compare x y = Lt -> Ascii.compare y z = Lt -> Ascii.compare x z = Lt.
Proof.
  unfold Ascii.compare. rewrite !N.compare_lt_iff. lia.
Qed.

Lemma string_compare_lt_trans (a b c : string) :
  String.compare a b = Lt -> String.compare b c = Lt -> String.compare a c = Lt.
Proof.
  revert b c. induction a as [|x a IH]; intros [|y b] [|z c]; simpl;
    try discriminate; try reflexivity.
  destruct (Ascii.compare x y) eqn:E1; try discriminate;
    destruct (Ascii.compare y z) eqn:E2; try discriminate; intros H1 H2.
  - apply Ascii.compare_eq_iff in E1, E2. subst.
    rewrite ascii_compare_refl. eauto.
  - apply Ascii.compare_eq_iff in E1. subst. rewrite E2. reflexivity.
  - apply Ascii.compare_eq_iff in E2. subst. rewrite E1. reflexivity.
  - rewrite (ascii_compare_lt_trans _ _ _ E1 E2). reflexivity.
Qed.

(** Not after: the order of strings is total and transitive. *)
Lemma string_compare_total (a b : string) :
  String.compare a b = Gt -> String.compare b a <> Gt.
Proof.
  intros H. rewrite String.compare_antisym, H. discriminate.
Qed.

Lemma string_compare_le_trans (a b c : string) :
  String.compare a b <> Gt -> String.compare b c <> Gt -> String.compare a c <> Gt.
Proof.
  intros H1 H2.
  destruct (String.compare a b) eqn:E1; [| |congruence].
  - apply String.compare_eq_iff in E1. subst. exact H2.
  - destruct (String.compare b c) eqn:E2; [| |congruence].
    + apply String.compare_eq_iff in E2. subst. rewrite E1. discriminate.
    + rewrite (string_compare_lt_trans _ _ _ E1 E2). discriminate.
Qed.

Lemma sign_of_positive (o : comparison) :
  is_positive (sign_of o) = match o with Gt => true | _ => false end.
Proof. destruct o; vm_compute; reflexivity. Qed.

Lemma keys_consistent (key : string -> string) (l : list entry) :
  consistent_on (fun a b => compare_keys (key a.1) (key b.1)) l = true.
Proof.
  unfold consistent_on, total_on, transitive_on, le_by.
  apply andb_true_iff. split.
  - apply forallb_forall. intros a _. apply forallb_forall. intros b _.
    rewrite !compare_keys_compare, !sign_of_positive.
    destruct (String.compare (key a.1) (key b.1)) eqn:E; try reflexivity.
    pose proof (string_compare_total _ _ E) as T.
    destruct (String.compare (key b.1) (key a.1)); [reflexivity | reflexivity | congruence].
  - apply forallb_forall. intros a _. apply forallb_forall. intros b _.
    apply forallb_forall. intros c _.
    rewrite !compare_keys_compare, !sign_of_positive.
    pose proof (string_compare_le_trans (key a.1) (key b.1) (key c.1)) as T.
    destruct (String.compare (key a.1) (key b.1));
      destruct (String.compare (key b.1) (key c.1));
      destruct (String.compare (key a.1) (key c.1)); try reflexivity;
      exfalso; apply T; congruence.
Qed.

(** X8. The two date comparators are consistent on every array of keys,
    whatever the texts: any two keys compare one way or the other and the
    order is transitive.  The array that [Array.prototype.sort] returns
    with one of them is therefore in ascending order of the comparator. *)
Theorem date_comparators_consistent (localeCompare : string -> string -> Z)
    (f : comparator) (l : list entry) :
  f = SortDate \/ f = SortDate_American ->
  consistent_on (value_of localeCompare (Some f)) l = true /\
  StronglySorted (fun a b => le_by (value_of localeCompare (Some f)) a b = true)
                 (sort_values (value_of localeCompare (Some f)) l).
Proof.
  intros Hf.
  assert (C : consistent_on (value_of localeCompare (Some f)) l = true).
  { destruct Hf as [->| ->]; unfold value_of, compare_value.
    - apply (keys_consistent date_key).
    - apply (keys_consistent date_key_American). }
  split; [exact C | apply sort_values_sorted, C].
Qed.

Lemma date_comparators_consistent_witness :
  let l := entries 1 prices_rows in
  (SortDate = SortDate \/ SortDate = SortDate_American) /\
  consistent_on (value_of code_unit_compare (Some SortDate)) l = true /\
  StronglySorted (fun a b => le_by (value_of code_unit_compare (Some SortDate)) a b = true)
                 (sort_values (value_of code_unit_compare (Some SortDate)) l).
Proof.
  intros l. split; [left; reflexivity|].
  exact (date_comparators_consistent code_unit_compare SortDate l (or_introl eq_refl)).
Defined.

(** *** Dates in two, two and four digits *)

Lemma two_digits_table :
  forallb (fun n => forallb (fun n' =>
    match String.compare (two_digits n) (two_digits n'), Nat.compare n n' with
    | Eq, Eq | Lt, Lt | Gt, Gt => true
    | _, _ => false
    end) (seq 0 100)) (seq 0 100) = true.
Proof. vm_compute. reflexivity. Qed.

Lemma two_digits_compare (n n' : nat) :
  (n < 100)%nat -> (n' < 100)%nat ->
  String.compare (two_digits n) (two_digits n') = Nat.compare n n'.
Proof.
  intros H H'. pose proof two_digits_table as T.
  rewrite forallb_forall in T. specialize (T n).
  rewrite forallb_forall in T.
  assert (In n (seq 0 100)) as Hn by (apply in_seq; lia).
  assert (In n' (seq 0 100)) as Hn' by (apply in_seq; lia).
  specialize (T Hn n' Hn').
  destruct (String.compare (two_digits n) (two_digits n'));
    destruct (Nat.compare n n'); congruence.
Qed.

Lemma compare_by_hundreds (y y' : nat) :
  match Nat.compare (y / 100) (y' / 100) with
  | Eq => Nat.compare (y mod 100) (y' mod 100)
  | o => o
  end = Nat.compare y y'.
Proof.
  pose proof (Nat.div_mod_eq y 100) as E. pose proof (Nat.div_mod_eq y' 100) as E'.
  pose proof (Nat.mod_upper_bound y 100 ltac:(lia)) as B.
  pose proof (Nat.mod_upper_bound y' 100 ltac:(lia)) as B'.
  revert E E' B B'.
  generalize (y / 100)%nat, (y mod 100)%nat, (y' / 100)%nat, (y' mod 100)%nat.
  intros q r q' r' E E' B B'.
  destruct (Nat.compare_spec q q') as [Hq|Hq|Hq].
  - destruct (Nat.compare_spec r r'); symmetry;
      [apply Nat.compare_eq_iff | apply Nat.compare_lt_iff | apply Nat.compare_gt_iff]; lia.
  - symmetry. apply Nat.compare_lt_iff. lia.
  - symmetry. apply Nat.compare_gt_iff. lia.
Qed.

Lemma four_digits_compare (y y' : nat) :
  (y < 100 * 100)%nat -> (y' < 100 * 100)%nat ->
  String.compare (four_digits y) (four_digits y') = Nat.compare y y'.
Proof.
  intros H H'. unfold four_digits.
  rewrite string_compare_app by reflexivity.
  rewrite !two_digits_compare;
    try (apply Nat.mod_upper_bound; lia);
    try (apply Nat.Div0.div_lt_upper_bound; lia).
  apply compare_by_hundreds.
Qed.

Lemma four_digits_length (y : nat) : String.length (four_digits y) = 4%nat.
Proof. reflexivity. Qed.

Lemma date_keys_compare (y m d y' m' d' : nat) :
  (y < 100 * 100)%nat -> (m < 100)%nat -> (d < 100)%nat ->
  (y' < 100 * 100)%nat -> (m' < 100)%nat -> (d' < 100)%nat ->
  compare_keys (four_digits y +:+ two_digits m +:+ two_digits d)
               (four_digits y' +:+ two_digits m' +:+ two_digits d')
  = sign_of (date_order y m d y' m' d').
Proof.
  intros. rewrite compare_keys_compare. f_equal. unfold date_order.
  rewrite string_compare_app by reflexivity.
  rewrite four_digits_compare by assumption.
  rewrite string_compare_app by reflexivity.
  rewrite !two_digits_compare by assumption.
  reflexivity.
Qed.

Lemma date_key_date_text (s1 s2 : ascii) (d m y : nat) :
  date_key (date_text s1 s2 d m y) = four_digits y +:+ two_digits m +:+ two_digits d.
Proof. reflexivity. Qed.

Lemma date_key_American_date_text (s1 s2 : ascii) (m d y : nat) :
  date_key_American (date_text s1 s2 m d y)
  = four_digits y +:+ two_digits m +:+ two_digits d.
Proof. reflexivity. Qed.

(** X9. On dates written in two, two and four digits with any separator
    characters, [sortDate] (day first) and [sortDate_American] (month
    first) order by the calendar: the result is -1, 0 or 1 as the first
    date is earlier than, the same as or later than the second, by year,
    then month, then day. *)
Theorem date_comparators_chronological (s1 s2 s1' s2' : ascii)
    (y m d y' m' d' : nat) (ra rb : Row) (c : Closure) :
  (y < 100 * 100)%nat -> (m < 100)%nat -> (d < 100)%nat ->
  (y' < 100 * 100)%nat -> (m' < 100)%nat -> (d' < 100)%nat ->
  result (sortDate (date_text s1 s2 d m y, ra) (date_text s1' s2' d' m' y', rb) c)
  = Some (sign_of (date_order y m d y' m' d')) /\
  result (sortDate_American (date_text s1 s2 m d y, ra) (date_text s1' s2' m' d' y', rb) c)
  = Some (sign_of (date_order y m d y' m' d')).
Proof.
  intros. split.
  - destruct (sortDate_returns (date_text s1 s2 d m y, ra) (date_text s1' s2' d' m' y', rb) c)
      as [c' ->].
    cbn [result fst]. rewrite !date_key_date_text. f_equal. apply date_keys_compare; assumption.
  - destruct (sortDate_American_returns (date_text s1 s2 m d y, ra)
                (date_text s1' s2' m' d' y', rb) c) as [c' ->].
    cbn [result fst]. rewrite !date_key_American_date_text. f_equal.
    apply date_keys_compare; assumption.
Qed.

Lemma date_comparators_chronological_witness :
  let c := initial_closure in
  let ra := {| row_id := 1; cells := [] |} in
  (2023 < 100 * 100)%nat /\ (12 < 100)%nat /\ (25 < 100)%nat /\
  (2024 < 100 * 100)%nat /\ (2 < 100)%nat /\ (13 < 100)%nat /\
  result (sortDate (date_text "/" "/" 25 12 2023, ra) (date_text "-" "-" 13 2 2024, ra) c)
  = Some (sign_of (date_order 2023 12 25 2024 2 13)) /\
  result (sortDate_American (date_text "/" "/" 12 25 2023, ra)
                            (date_text "-" "-" 2 13 2024, ra) c)
  = Some (sign_of (date_order 2023 12 25 2024 2 13)).
Proof.
  intros c ra.
  split; [lia|]. split; [lia|]. split; [lia|]. split; [lia|]. split; [lia|]. split; [lia|].
  apply (date_comparators_chronological "/" "/" "-" "-" 2023 12 25 2024 2 13 ra ra c); lia.
Defined.

(** ** getElementText *)

Lemma or_else_None {R : Type} (x : option R) : or_else x None = x.
Proof. destruct x; reflexivity. Qed.

(** A greedy run of one class before something that matches at the end
    of the text only: the run must reach the end. *)
Lemma star_class_to_end {R : Type} (p : ascii -> bool)
    (k : nat -> string -> captures -> option R) :
  (forall i a s c, k i (String a s) c = None) ->
  forall s n i c,
    (String.length s <= n)%nat ->
    star_loop (rx (Cls p)) true k n i s c
    = if string_forall p s then k (i + String.length s)%nat "" c else None.
Proof.
  intros Hk. induction s as [|a s IH]; intros n i c Hn.
  - cbn [string_forall String.length]. rewrite Nat.add_0_r.
    destruct n; cbn [star_loop]; [reflexivity|].
    rewrite rx_Cls_Empty. reflexivity.
  - destruct n as [|n]; [simpl in Hn; lia|].
    cbn [star_loop]. rewrite Hk, or_else_None, rx_Cls_String.
    cbn [string_forall String.length]. destruct (p a); [|reflexivity].
    rewrite (proj2 (Nat.ltb_lt i (S i))) by lia.
    rewrite IH by (simpl in Hn; lia). cbn [andb].
    replace (S i + String.length s)%nat with (i + S (String.length s))%nat by lia.
    reflexivity.
Qed.

Lemma match_at_trim_start (s : string) :
  match_at re_trim 0 s =
  match s with
  | String a s' =>
      if is_space a then
        Some {| index := 0;
                matched := substring 0 (S (run_length is_space s')) s;
                groups := [] |}
      else None
  | EmptyString => None
  end.
Proof.
  pose proof (match_at_plus_class is_space 0 s) as H.
  assert (E : match_at re_trim 0 s
              = or_else (match_at (plus (Cls is_space)) 0 s)
                        (rx (cat [plus (Cls is_space); Eol]) 0 s []
                            (fun i' _ c => Some {| index := 0;
                                                   matched := substring 0 (i' - 0) s;
                                                   groups := c |})))
    by reflexivity.
  rewrite E, H. clear E H.
  destruct s as [|a s']; [reflexivity|].
  destruct (is_space a) eqn:Ha.
  - cbn [or_else]. rewrite Nat.sub_0_r. reflexivity.
  - cbn [or_else]. unfold cat, plus. cbn [foldr]. rewrite !rx_Seq, rx_Cls_String, Ha.
    reflexivity.
Qed.

Lemma match_at_trim_inside (i : nat) (s : string) :
  (0 < i)%nat ->
  match_at re_trim i s =
  match s with
  | String a s' =>
      if string_forall is_space s then
        Some {| index := i; matched := s; groups := [] |}
      else None
  | EmptyString => None
  end.
Proof.
  intros Hi. unfold match_at, re_trim, cat. cbn [foldr].
  change (rx (Alt ?r1 ?r2) ?i ?s ?c ?k) with (or_else (rx r1 i s c k) (rx r2 i s c k)).
  rewrite rx_Seq. cbn [rx]. rewrite (proj2 (Nat.eqb_neq i 0)) by lia. cbn [or_else].
  unfold plus. rewrite !rx_Seq.
  destruct s as [|a s']; [reflexivity|].
  rewrite rx_Cls_String. cbn [string_forall].
  destruct (is_space a); [|reflexivity]. cbn [andb].
  rewrite rx_Star.
  rewrite star_class_to_end; [| intros; reflexivity | lia].
  destruct (string_forall is_space s'); [|reflexivity].
  cbn [rx]. f_equal. f_equal.
  replace (S i + String.length s' - i)%nat with (String.length (String a s'))
    by (simpl; lia).
  apply substring_whole.
Qed.

Lemma drop_trailing_spaces (p : ascii -> bool) (s : string) :
  string_forall p s = true -> drop_trailing p s = "".
Proof. destruct s; [reflexivity|]. cbn [drop_trailing]. intros ->. reflexivity. Qed.

Lemma replace_from_empty (n : nat) (r : regex) (i : nat) :
  match_at r i "" = None -> replace_from n r "" i "" = "".
Proof. intros H. destruct n; [reflexivity|]. cbn [replace_from]. rewrite H. reflexivity. Qed.

Lemma substring_none (n : nat) (s : string) : substring n 0 s = "".
Proof.
  revert s. induction n as [|n IH]; intros [|a s]; simpl; auto.
Qed.

Lemma replace_from_trim_inside (n i : nat) (s : string) :
  (0 < i)%nat -> (String.length s < n)%nat ->
  replace_from n re_trim "" i s = drop_trailing is_space s.
Proof.
  revert i s. induction n as [|n IH]; intros i s Hi Hn; [lia|].
  cbn [replace_from]. rewrite match_at_trim_inside by exact Hi.
  destruct s as [|a s']; [reflexivity|].
  cbn [drop_trailing]. destruct (string_forall is_space (String a s')) eqn:E.
  - cbn [matched]. rewrite Nat.sub_diag, substring_none.
    cbn [String.length].
    rewrite replace_from_empty; [reflexivity|].
    apply match_at_trim_inside. lia.
  - rewrite IH by (simpl in Hn; lia). reflexivity.
Qed.

(** What [replace(/^\s+|\s+$/g, '')] makes of a text. *)
Lemma replace_all_trim (s : string) :
  replace_all re_trim "" s = drop_trailing is_space (drop_while is_space s).
Proof.
  unfold replace_all. cbn [replace_from]. rewrite match_at_trim_start.
  destruct s as [|a s']; [reflexivity|].
  cbn [drop_while]. destruct (is_space a) eqn:E.
  - cbn [matched].
    pose proof (run_length_le is_space s') as L.
    rewrite (substring_prefix_length (String a s') (S (run_length is_space s')))
      by (simpl; lia).
    cbn [String.length substring Nat.sub Nat.add append].
    rewrite substring_after_run.
    apply replace_from_trim_inside; [lia|].
    pose proof (drop_while_length is_space s'). lia.
  - cbn [drop_trailing string_forall]. rewrite E. cbn [andb]. f_equal.
    apply replace_from_trim_inside; simpl; lia.
Qed.

Lemma append_String (a : ascii) (s r : string) :
  String a s +:+ r = String a (s +:+ r).
Proof. reflexivity. Qed.

Lemma append_Empty (r : string) : "" +:+ r = r.
Proof. reflexivity. Qed.

Lemma drop_while_spaces (p : ascii -> bool) (l s : string) :
  string_forall p l = true -> drop_while p (l +:+ s) = drop_while p s.
Proof.
  induction l as [|a l IH]; [reflexivity|].
  rewrite append_String. cbn [string_forall drop_while]. intros H.
  apply andb_true_iff in H as [Ha H]. rewrite Ha. auto.
Qed.

Lemma drop_while_all (p : ascii -> bool) (r : string) :
  string_forall p r = true -> drop_while p r = "".
Proof.
  induction r as [|b r IH]; [reflexivity|].
  cbn [string_forall drop_while]. intros H.
  apply andb_true_iff in H as [Hb H]. rewrite Hb. auto.
Qed.

Lemma string_forall_last (p : ascii -> bool) (s r : string) (a : ascii) :
  p (last_char a s) = false -> string_forall p (String a (s +:+ r)) = false.
Proof.
  revert a. induction s as [|b s IH]; intros a H.
  - rewrite append_Empty. cbn [last_char] in H. cbn [string_forall]. rewrite H. reflexivity.
  - cbn [last_char] in H. specialize (IH b H).
    rewrite append_String. cbn [string_forall] in IH |- *.
    rewrite IH. apply andb_false_r.
Qed.

Lemma drop_trailing_last (p : ascii -> bool) (s r : string) (a : ascii) :
  p (last_char a s) = false -> string_forall p r = true ->
  drop_trailing p (String a (s +:+ r)) = String a s.
Proof.
  revert a. induction s as [|b s IH]; intros a H Hr.
  - rewrite append_Empty. cbn [last_char] in H.
    cbn [drop_trailing string_forall]. rewrite H. cbn [andb].
    rewrite (drop_trailing_spaces p r Hr). reflexivity.
  - cbn [drop_trailing]. rewrite (string_forall_last p (String b s) r a H).
    cbn [last_char] in H. rewrite append_String, (IH b H Hr). reflexivity.
Qed.

(** X10. [getElementText] returns the text of the cell without the
    white space at its ends: for a text made of white space, a core that
    neither starts nor ends with white space, and white space again, it
    returns the core, white space inside the core included, and it
    leaves the store alone. *)
Theorem getElementText_trims (l core r : string) (st : State) :
  string_forall is_space l = true ->
  string_forall is_space r = true ->
  no_space_at_ends core = true ->
  getElementText (Some (l +:+ core +:+ r)) st = Returned core st.
Proof.
  intros Hl Hr Hc. unfold getElementText, bind, defined, ret. f_equal.
  rewrite replace_all_trim, (drop_while_spaces _ _ _ Hl).
  destruct core as [|a s].
  - rewrite append_Empty, (drop_while_all _ _ Hr). reflexivity.
  - cbn [no_space_at_ends] in Hc. apply andb_true_iff in Hc as [Ha Hz].
    apply negb_true_iff in Ha, Hz.
    rewrite append_String. cbn [drop_while]. rewrite Ha.
    apply drop_trailing_last; assumption.
Qed.

Lemma getElementText_trims_witness :
  let sp := String " " (String LF "  ") in
  string_forall is_space sp = true /\
  string_forall is_space "  " = true /\
  no_space_at_ends "New  York" = true /\
  getElementText (Some (sp +:+ "New  York" +:+ "  ")) two_tables_page
  = Returned "New  York" two_tables_page.
Proof.
  intros sp.
  split; [reflexivity|]. split; [reflexivity|]. split; [reflexivity|].
  exact (getElementText_trims sp "New  York" "  " two_tables_page eq_refl eq_refl eq_refl).
Defined.

(** ** guessDataType *)

Lemma or_else_is_Some {R : Type} (x y : option R) :
  is_Some y -> is_Some (or_else x y).
Proof. destruct x; simpl; eauto. Qed.

Lemma or_else_is_Some_l {R : Type} (x y : option R) :
  is_Some x -> is_Some (or_else x y).
Proof. intros [v ->]. simpl. eauto. Qed.

Lemma append_empty_r (s : string) : s +:+ "" = s.
Proof. induction s as [|a s IH]; [reflexivity|]. rewrite append_String, IH. reflexivity. Qed.

Lemma length_append (s r : string) :
  String.length (s +:+ r) = (String.length s + String.length r)%nat.
Proof.
  induction s as [|a s IH]; [reflexivity|].
  rewrite append_String. cbn [String.length]. rewrite IH. reflexivity.
Qed.

(** A run of one class, greedy or lazy, can take a text of that class
    when what follows the quantifier matches the rest. *)
Lemma class_run_then {R : Type} (g : bool) (p : ascii -> bool)
    (k : nat -> string -> captures -> option R) (rest : string) :
  (forall i c, is_Some (k i rest c)) ->
  forall d n i c,
    string_forall p d = true -> (String.length d <= n)%nat ->
    is_Some (star_loop (rx (Cls p)) g k n i (d +:+ rest) c).
Proof.
  intros Hk. induction d as [|a d IH]; intros n i c Hd Hn.
  - rewrite append_Empty. destruct n; cbn [star_loop]; [apply Hk|].
    destruct g; [apply or_else_is_Some | apply or_else_is_Some_l]; apply Hk.
  - destruct n as [|n]; [simpl in Hn; lia|].
    cbn [string_forall] in Hd. apply andb_true_iff in Hd as [Ha Hd].
    assert (S : is_Some (rx (Cls p) i (String a d +:+ rest) c
                  (fun i' s' c' =>
                     if Nat.ltb i i' then star_loop (rx (Cls p)) g k n i' s' c' else None))).
    { rewrite append_String, rx_Cls_String, Ha.
      rewrite (proj2 (Nat.ltb_lt i (S i))) by lia.
      apply IH; [exact Hd | simpl in Hn; lia]. }
    cbn [star_loop].
    destruct g; [apply or_else_is_Some_l | apply or_else_is_Some]; exact S.
Qed.

Lemma re_number_matches (p d t : string) (a : ascii) :
  string_forall is_non_digit p = true ->
  string_forall is_number_char (String a d) = true ->
  string_forall is_percent_or_space t = true ->
  is_Some (match_at re_number 0 (p +:+ String a d +:+ t)).
Proof.
  intros Hp Hd Ht.
  set (s := p +:+ String a d +:+ t).
  set (kf := fun (i' : nat) (_ : string) (c : captures) =>
               Some {| index := 0%nat; matched := substring 0 (i' - 0) s; groups := c |}).
  set (k_end := fun i' s' c' => rx (Seq Eol Eps) i' s' c' kf).
  set (k_tail := fun i' s' c' =>
                   star_loop (rx (Cls is_percent_or_space)) false k_end
                             (String.length s') i' s' c').
  set (k_num := fun i' s' c' =>
                  rx (Cls is_number_char) i' s' c'
                     (fun i2 s2 c2 =>
                        star_loop (rx (Cls is_number_char)) true k_tail
                                  (String.length s2) i2 s2 c2)).
  set (k_sign := fun i' s' c' =>
                   star_loop (rx (Cls is_non_digit)) false k_num
                             (String.length s') i' s' c').
  assert (E : match_at re_number 0 s
              = or_else (rx (chr "-") 0%nat s [] k_sign) (k_sign 0%nat s [])) by reflexivity.
  rewrite E. apply or_else_is_Some.
  assert (T : forall i c, is_Some (k_tail i t c)).
  { intros i c. unfold k_tail. rewrite <- (append_empty_r t) at 2.
    apply class_run_then; [|exact Ht|lia].
    intros i' c'. unfold k_end, kf. cbn. eauto. }
  assert (N : forall i c, is_Some (k_num i (String a d +:+ t) c)).
  { intros i c. unfold k_num. rewrite append_String, rx_Cls_String.
    cbn [string_forall] in Hd. apply andb_true_iff in Hd as [Ha Hd]. rewrite Ha.
    apply class_run_then; [exact T | exact Hd | rewrite length_append; lia]. }
  unfold k_sign, s.
  apply class_run_then; [exact N | exact Hp | rewrite length_append; lia].
Qed.

(** A text that ends in a run of digits, commas and periods, after any
    characters that are not digits and before any percent signs and white
    space, is taken for a number. *)
Lemma guessDataType_number (p d t : string) :
  string_forall is_non_digit p = true ->
  string_forall is_number_char d = true ->
  d <> "" ->
  string_forall is_percent_or_space t = true ->
  guessDataType (p +:+ d +:+ t) = SortNumberJS.
Proof.
  intros Hp Hd Hne Ht. destruct d as [|a d]; [contradiction|].
  destruct (re_number_matches p d t a Hp Hd Ht) as [f Hf].
  unfold guessDataType, exec.
  assert (L : Nat.ltb 0 (String.length (p +:+ String a d +:+ t)) = true).
  { apply Nat.ltb_lt. rewrite length_append. simpl. lia. }
  rewrite L.
  destruct (p +:+ String a d +:+ t); cbn [exec_from]; rewrite Hf; reflexivity.
Qed.

(** ** getSortFn *)

Lemma rx_lit_app {R : Type} (n s : string) (i : nat) (c : captures)
    (k : nat -> string -> captures -> option R) :
  rx (lit n) i (n +:+ s) c k = k (i + String.length n)%nat s c.
Proof.
  revert i. induction n as [|a n IH]; intros i.
  - cbn [lit rx String.length]. rewrite append_Empty, Nat.add_0_r. reflexivity.
  - cbn [lit]. rewrite rx_Seq, append_String. unfold chr. rewrite rx_Cls_String.
    unfold is_char. rewrite Ascii.eqb_refl, IH. cbn [String.length]. f_equal. lia.
Qed.

Lemma rx_lit_inv {R : Type} (n s : string) (i : nat) (c : captures)
    (k : nat -> string -> captures -> option R) (x : R) :
  rx (lit n) i s c k = Some x ->
  exists s', s = n +:+ s' /\ k (i + String.length n)%nat s' c = Some x.
Proof.
  revert i s. induction n as [|a n IH]; intros i s H.
  - cbn [lit rx String.length] in H. rewrite Nat.add_0_r. exists s. auto.
  - cbn [lit] in H. rewrite rx_Seq in H. unfold chr in H.
    destruct s as [|b s]; [rewrite rx_Cls_Empty in H; discriminate|].
    rewrite rx_Cls_String in H. unfold is_char in H.
    destruct (Ascii.eqb_spec a b) as [<-|]; [|discriminate].
    apply IH in H as (s' & -> & H). exists s'. split; [reflexivity|].
    cbn [String.length]. rewrite <- H. f_equal. lia.
Qed.

Lemma substring_append (n s : string) : substring 0 (String.length n) (n +:+ s) = n.
Proof.
  induction n as [|a n IH]; [apply substring_empty|].
  rewrite append_String. cbn [String.length substring]. rewrite IH. reflexivity.
Qed.

(** A name matched where the registry pattern is tried. *)
Lemma match_at_lit_inv (n s : string) (i : nat) (f : found) :
  rx (lit n) i s []
     (fun i' _ c => Some {| index := i; matched := substring 0 (i' - i) s; groups := c |})
  = Some f ->
  matched f = n /\ exists s', s = n +:+ s'.
Proof.
  intros H. apply rx_lit_inv in H as (s' & -> & [= <-]). cbn [matched].
  replace (i + String.length n - i)%nat with (String.length n) by lia.
  split; [apply substring_append | eauto].
Qed.

Lemma match_at_rxFn (i : nat) (s : string) :
  match_at rxFn i s =
  let k := fun (i' : nat) (_ : string) (c : captures) =>
             Some {| index := i; matched := substring 0 (i' - i) s; groups := c |} in
  or_else (rx (lit "alphaNumeric") i s [] k)
    (or_else (rx (lit "sortDate") i s [] k)
       (or_else (rx (lit "sortDate_American") i s [] k)
          (or_else (rx (lit "sortNumberJS") i s [] k)
             (rx (lit "sortNumber_nonJS") i s [] k)))).
Proof. reflexivity. Qed.

(** What the registry pattern matches is a name of the registry, and
    never the third one: where that name stands, the second matches. *)
Lemma match_at_rxFn_inv (i : nat) (s : string) (f : found) :
  match_at rxFn i s = Some f ->
  (exists s', s = matched f +:+ s') /\
  In (matched f) (map fst sort_functions) /\
  matched f <> "sortDate_American".
Proof.
  rewrite match_at_rxFn. cbv zeta.
  set (k := fun (i' : nat) (_ : string) (c : captures) =>
              Some {| index := i; matched := substring 0 (i' - i) s; groups := c |}).
  destruct (rx (lit "alphaNumeric") i s [] k) as [x|] eqn:E1.
  { intros [= <-]. apply match_at_lit_inv in E1 as [-> E1].
    split; [exact E1|]. split; [simpl; auto | discriminate]. }
  destruct (rx (lit "sortDate") i s [] k) as [x|] eqn:E2.
  { intros [= <-]. apply match_at_lit_inv in E2 as [-> E2].
    split; [exact E2|]. split; [simpl; auto | discriminate]. }
  destruct (rx (lit "sortDate_American") i s [] k) as [x|] eqn:E3.
  { exfalso. apply match_at_lit_inv in E3 as [_ [s' ->]].
    change ("sortDate_American" +:+ s') with ("sortDate" +:+ ("_American" +:+ s')) in E2.
    rewrite rx_lit_app in E2. discriminate. }
  destruct (rx (lit "sortNumberJS") i s [] k) as [x|] eqn:E4.
  { intros [= <-]. apply match_at_lit_inv in E4 as [-> E4].
    split; [exact E4|]. split; [simpl; auto 6 | discriminate]. }
  cbn [or_else]. intros E5. apply match_at_lit_inv in E5 as [-> E5].
  split; [exact E5|]. split; [simpl; auto 6 | discriminate].
Qed.

Lemma match_at_rxFn_name (i : nat) (name s : string) :
  In name (map fst sort_functions) -> is_Some (match_at rxFn i (name +:+ s)).
Proof.
  intros H. rewrite match_at_rxFn. cbv zeta.
  simpl in H. destruct H as [<-|[<-|[<-|[<-|[<-|[]]]]]].
  - apply or_else_is_Some_l. rewrite rx_lit_app. eauto.
  - apply or_else_is_Some, or_else_is_Some_l. rewrite rx_lit_app. eauto.
  - apply or_else_is_Some, or_else_is_Some, or_else_is_Some_l. rewrite rx_lit_app. eauto.
  - apply or_else_is_Some, or_else_is_Some, or_else_is_Some, or_else_is_Some_l.
    rewrite rx_lit_app. eauto.
  - apply or_else_is_Some, or_else_is_Some, or_else_is_Some, or_else_is_Some.
    rewrite rx_lit_app. eauto.
Qed.

Lemma exec_from_inv (r : regex) (s : string) (i : nat) (f : found) :
  exec_from r i s = Some f ->
  exists pre s', s = pre +:+ s' /\ match_at r (i + String.length pre) s' = Some f.
Proof.
  revert i. induction s as [|a s IH]; intros i H; cbn [exec_from] in H.
  - destruct (match_at r i "") eqn:E; [|discriminate]. injection H as ->.
    exists "", "". rewrite Nat.add_0_r. auto.
  - destruct (match_at r i (String a s)) eqn:E.
    + injection H as ->. exists "", (String a s). rewrite Nat.add_0_r. auto.
    + apply IH in H as (pre & s' & -> & H). exists (String a pre), s'.
      split; [reflexivity|]. cbn [String.length]. rewrite <- H. f_equal. lia.
Qed.

Lemma exec_from_is_Some (r : regex) (pre s : string) (i : nat) :
  is_Some (match_at r (i + String.length pre) s) -> is_Some (exec_from r i (pre +:+ s)).
Proof.
  revert i. induction pre as [|a pre IH]; intros i H.
  - rewrite append_Empty. cbn [String.length] in H. rewrite Nat.add_0_r in H.
    destruct H as [f H]. destruct s; cbn [exec_from]; rewrite H; eauto.
  - rewrite append_String. cbn [exec_from].
    destruct (match_at r i (String a (pre +:+ s))); [eauto|].
    apply IH. cbn [String.length] in H.
    replace (S i + String.length pre)%nat with (i + S (String.length pre))%nat by lia.
    exact H.
Qed.

Lemma property_name (name : string) :
  In name (map fst sort_functions) -> is_Some (property name sort_functions).
Proof.
  simpl. intros [<-|[<-|[<-|[<-|[<-|[]]]]]]; vm_compute; eauto.
Qed.

Lemma property_American (name : string) :
  property name sort_functions = Some SortDate_American -> name = "sortDate_American".
Proof.
  unfold sort_functions. cbn [property].
  repeat match goal with
         | |- context [String.eqb name ?n] => destruct (String.eqb_spec name n)
         end; congruence.
Qed.

Lemma getSortFn_head (s : string) (f : found) :
  match_at rxFn 0 s = Some f -> getSortFn s = property (matched f) sort_functions.
Proof.
  intros H. unfold getSortFn, exec. destruct s; cbn [exec_from]; rewrite H; reflexivity.
Qed.

Lemma getSortFn_name (name rest : string) (f : comparator) :
  In (name, f) sort_functions ->
  getSortFn (name +:+ rest)
  = Some match f with
         | SortDate_American => SortDate
         | _ => f
         end.
Proof.
  intros H.
  assert (I : In name (map fst sort_functions)) by (apply (in_map fst _ _ H)).
  destruct (match_at_rxFn_name 0 name rest I) as [x E].
  rewrite (getSortFn_head _ _ E).
  apply match_at_rxFn_inv in E as ((s' & Es) & I' & N).
  simpl in H. simpl in I'.
  destruct H as [H|[H|[H|[H|[H|[]]]]]]; injection H as <- <-;
    destruct I' as [I'|[I'|[I'|[I'|[I'|[]]]]]]; rewrite <- I' in Es, N |- *;
    try (simpl in Es; discriminate Es); try contradiction; reflexivity.
Qed.

(** X12. [getSortFn] never returns [sortDate_American]: the registry
    pattern tries the names in the order of the registry, and wherever
    ["sortDate_American"] stands in a class attribute ["sortDate"]
    matches first.  A class attribute that begins with a name of the
    registry gets the function of that name, except for this one, which
    gets [sortDate]. *)
Theorem getSortFn_never_American (className rest : string) :
  getSortFn className <> Some SortDate_American /\
  getSortFn ("sortDate_American" +:+ rest) = Some SortDate /\
  getSortFn ("alphaNumeric" +:+ rest) = Some AlphaNumeric /\
  getSortFn ("sortDate" +:+ rest) = Some SortDate /\
  getSortFn ("sortNumberJS" +:+ rest) = Some SortNumberJS /\
  getSortFn ("sortNumber_nonJS" +:+ rest) = Some SortNumber_nonJS.
Proof.
  split.
  - unfold getSortFn, exec. destruct (exec_from rxFn 0 className) as [f|] eqn:E; [|discriminate].
    apply exec_from_inv in E as (pre & s' & _ & E).
    apply match_at_rxFn_inv in E as (_ & _ & N).
    intros H. apply property_American in H. contradiction.
  - split; [apply (getSortFn_name "sortDate_American" rest SortDate_American); simpl; auto|].
    split; [apply (getSortFn_name "alphaNumeric" rest AlphaNumeric); simpl; auto|].
    split; [apply (getSortFn_name "sortDate" rest SortDate); simpl; auto|].
    split; [apply (getSortFn_name "sortNumberJS" rest SortNumberJS); simpl; auto 6|].
    apply (getSortFn_name "sortNumber_nonJS" rest SortNumber_nonJS); simpl; auto 6.
Qed.

(** X13. [getSortFn] finds a function exactly when a name of the
    registry stands somewhere in the class attribute, at the start, after
    other classes or inside a longer word. *)
Theorem getSortFn_contains_name (className : string) :
  is_Some (getSortFn className) <->
  exists pre name rest,
    In name (map fst sort_functions) /\ className = pre +:+ name +:+ rest.
Proof.
  unfold getSortFn, exec. split.
  - destruct (exec_from rxFn 0 className) as [f|] eqn:E; [|intros [x Hx]; discriminate].
    intros _. apply exec_from_inv in E as (pre & s' & -> & E).
    apply match_at_rxFn_inv in E as ((rest & ->) & I & _).
    exists pre, (matched f), rest. auto.
  - intros (pre & name & rest & I & ->).
    destruct (exec_from_is_Some rxFn pre (name +:+ rest) 0
                (match_at_rxFn_name _ name rest I)) as [f E].
    rewrite E. apply exec_from_inv in E as (pre' & s' & _ & E).
    apply match_at_rxFn_inv in E as (_ & I' & _).
    apply property_name, I'.
Qed.

(** ** setup and prepareTables: what they keep, and when they stop *)

Lemma keeps_document_refl (st : State) : keeps_document st st.
Proof.
  do 5 (split; [reflexivity|]). split; [apply same_shape_refl|].
  intros r i h H. eauto.
Qed.

Lemma keeps_document_trans (st1 st2 st3 : State) :
  keeps_document st1 st2 -> keeps_document st2 st3 -> keeps_document st1 st3.
Proof.
  intros (A1 & A2 & A3 & A4 & A5 & A6 & A7) (B1 & B2 & B3 & B4 & B5 & B6 & B7).
  do 5 (split; [congruence|]). split; [eapply same_shape_trans; eassumption|].
  intros r i h H. destruct (A7 r i h H) as (h' & H' & C1 & C2).
  destruct (B7 r i h' H') as (h'' & H'' & D1 & D2).
  exists h''. split; [exact H''|]. split; congruence.
Qed.

Lemma keeps_tables_refl (st : State) : keeps_tables st st.
Proof. split; [apply keeps_document_refl | reflexivity]. Qed.

Lemma keeps_tables_trans (st1 st2 st3 : State) :
  keeps_tables st1 st2 -> keeps_tables st2 st3 -> keeps_tables st1 st3.
Proof.
  intros [A1 A2] [B1 B2]. split; [eapply keeps_document_trans; eassumption | congruence].
Qed.

Section Preserves.

Variable R : State -> State -> Prop.
Hypothesis R_refl : forall st, R st st.
Hypothesis R_trans : forall st1 st2 st3, R st1 st2 -> R st2 st3 -> R st1 st3.

Lemma preserves_ret {A : Type} (a : A) : preserves R (ret a).
Proof. intros st. apply R_refl. Qed.

Lemma preserves_defined {A : Type} (o : option A) : preserves R (defined o).
Proof. intros st. destruct o; apply R_refl. Qed.

Lemma preserves_read {A : Type} (f : State -> option A) :
  preserves R (fun st => defined (f st) st).
Proof. intros st. cbv beta. destruct (f st); apply R_refl. Qed.

Lemma preserves_modify (f : State -> State) :
  (forall st, R st (f st)) -> preserves R (modify f).
Proof. intros H st. apply H. Qed.

Lemma preserves_bind {A B : Type} (m : M State A) (k : A -> M State B) :
  preserves R m -> (forall a, preserves R (k a)) -> preserves R (bind m k).
Proof.
  intros Hm Hk st. unfold bind. specialize (Hm st).
  destruct (m st) as [a s|e s]; cbn [final] in *.
  - eapply R_trans; [exact Hm | apply Hk].
  - exact Hm.
Qed.

Lemma preserves_for_each {A : Type} (l : list A) (body : A -> M State unit) :
  (forall x, preserves R (body x)) -> preserves R (for_each l body).
Proof.
  intros H. induction l as [|x l IH]; cbn [for_each].
  - apply preserves_ret.
  - apply preserves_bind; [apply H | intros _; exact IH].
Qed.

Lemma preserves_getElementText (el : option string) :
  preserves R (getElementText el).
Proof.
  unfold getElementText. apply preserves_bind; [apply preserves_defined|].
  intros t. apply preserves_ret.
Qed.

End Preserves.

Lemma update_keeps_tables (row i : nat) (f : HeaderCell -> HeaderCell) :
  (forall h, className (f h) = className h /\
             currentSortedTBody (f h) = currentSortedTBody h) ->
  preserves keeps_tables (update_header_cell row i f).
Proof.
  intros Hf st. unfold update_header_cell, modify. cbn [final].
  split; [|reflexivity].
  do 5 (split; [reflexivity|]). split; [intros r; apply alter_cell_shape|].
  intros r j h H. unfold header_cell in *. cbn [header_rows set_header_rows].
  destruct (decide (r = row /\ j = i)) as [[-> ->]|Hne].
  - exists (f h). split; [apply lookup_alter_cell, H | apply Hf].
  - exists h. split; [|auto].
    rewrite lookup_alter_cell_ne; [exact H|].
    destruct (decide (r = row)); [right; intros ->; apply Hne; auto | left; assumption].
Qed.

Lemma header_step_keeps (thead tbody_ i : nat) :
  preserves keeps_tables (header_step thead tbody_ i).
Proof.
  unfold header_step.
  apply preserves_bind; [apply keeps_tables_trans | |intros _].
  { apply update_keeps_tables. intros h. split; reflexivity. }
  apply preserves_bind; [apply keeps_tables_trans | |intros _].
  { apply update_keeps_tables. intros h. split; reflexivity. }
  apply preserves_bind; [apply keeps_tables_trans | |intros th].
  { apply preserves_read, keeps_tables_refl. }
  destruct (getSortFn (className th)) as [fn|].
  { apply update_keeps_tables. intros h. split; reflexivity. }
  apply preserves_bind; [apply keeps_tables_trans | |intros rows].
  { apply preserves_read, keeps_tables_refl. }
  apply preserves_bind; [apply keeps_tables_trans | |intros row0].
  { apply preserves_defined, keeps_tables_refl. }
  apply preserves_bind; [apply keeps_tables_trans | |intros txt].
  { apply preserves_getElementText; [apply keeps_tables_refl | apply keeps_tables_trans]. }
  apply update_keeps_tables. intros h. split; reflexivity.
Qed.

Lemma keeps_tables_document (m : M State unit) :
  preserves keeps_tables m -> preserves keeps_document m.
Proof. intros H st. apply H. Qed.

Lemma set_tableProp_keeps (p : gmap tblNumber TableProp) (st : State) :
  keeps_document st (set_tableProp p st).
Proof.
  do 5 (split; [reflexivity|]). split; [intros r; reflexivity|].
  intros r i h H. exists h. auto.
Qed.

Lemma addEvent_keeps (k : tblNumber) (row : nat) :
  preserves keeps_document (addEvent k row).
Proof.
  unfold addEvent.
  apply preserves_bind; [apply keeps_document_trans | |intros cs].
  { apply preserves_read, keeps_document_refl. }
  apply preserves_for_each; [apply keeps_document_refl | apply keeps_document_trans|].
  intros i. apply keeps_tables_document, update_keeps_tables.
  intros h. split; reflexivity.
Qed.

Lemma prepareTables_unfold (t : TableElem) (k : tblNumber) :
  prepareTables t k =
  (modify (fun st => set_tableProp (<[k := table_entry_no_cells t k]> (tableProp st)) st) ;;
   arrTh <- (fun st => defined (header_rows st !! tHead t) st) ;;
   for_each (seq 0 (length arrTh)) (header_step (tHead t) (tBody t)) ;;
   modify (fun st => set_tableProp
     (alter (fun p => {| headerCells := cells_of (tHead t);
                         spanArrowId := spanArrowId p;
                         tbody := tbody p |}) k (tableProp st)) st) ;;
   addEvent k (tHead t) ;;
   match tFoot t with
   | Some tfoot => addEvent k tfoot
   | None => ret tt
   end)%js.
Proof. reflexivity. Qed.

Lemma prepareTables_keeps (t : TableElem) (k : tblNumber) :
  preserves keeps_document (prepareTables t k).
Proof.
  rewrite prepareTables_unfold.
  apply preserves_bind; [apply keeps_document_trans | |intros _].
  { apply preserves_modify. intros st. apply set_tableProp_keeps. }
  apply preserves_bind; [apply keeps_document_trans | |intros arrTh].
  { apply preserves_read, keeps_document_refl. }
  apply preserves_bind; [apply keeps_document_trans | |intros _].
  { apply preserves_for_each; [apply keeps_document_refl | apply keeps_document_trans|].
    intros i. apply keeps_tables_document, header_step_keeps. }
  apply preserves_bind; [apply keeps_document_trans | |intros _].
  { apply preserves_modify. intros st. apply set_tableProp_keeps. }
  apply preserves_bind; [apply keeps_document_trans | |intros _].
  { apply addEvent_keeps. }
  destruct (tFoot t); [apply addEvent_keeps | apply preserves_ret, keeps_document_refl].
Qed.

(** X14. [setup], whether it returns or throws, changes nothing in the
    document but the properties it hangs on header cells: the rows of
    every tbody, the spans, and the closure of the comparators are as
    they were, and every header row keeps its cells, each with its class
    attribute. *)
Theorem setup_keeps_document (tables : list TableElem) (st0 : State) :
  keeps_document st0 (final (setup tables st0)).
Proof.
  apply (preserves_for_each keeps_document keeps_document_refl keeps_document_trans).
  intros t. apply prepareTables_keeps.
Qed.

(** *** Tables that can be prepared *)

Lemma well_formed_kept (st st' : State) (t : TableElem) :
  keeps_document st st' -> well_formed st t -> well_formed st' t.
Proof.
  intros (_ & B & _ & _ & _ & S & _) (hs & row0 & rest & H1 & H2 & H3 & H4).
  pose proof (S (tHead t)) as Sh. rewrite H1 in Sh.
  destruct (header_rows st' !! tHead t) as [hs'|] eqn:E; [|discriminate].
  injection Sh as Sh.
  exists hs', row0, rest. split; [exact E|]. split; [rewrite B; exact H2|].
  split; [rewrite Sh; exact H3|].
  intros f Hf. destruct (H4 f Hf) as [cs Hcs]. pose proof (S f) as Sf.
  rewrite Hcs in Sf. destruct (header_rows st' !! f); [eauto | discriminate].
Qed.

Lemma setup_runs (tables : list TableElem) (st0 : State) :
  Forall (well_formed st0) tables ->
  exists st,
    setup tables st0 = Returned tt st /\
    tableProp st = match last tables with
                   | Some t => <[None := table_entry t None]> (tableProp st0)
                   | None => tableProp st0
                   end.
Proof.
  revert st0. induction tables as [|t ts IH]; intros st0 H.
  - exists st0. split; reflexivity.
  - apply Forall_cons in H as [Ht Hts].
    destruct Ht as (hs & row0 & rest & H1 & H2 & H3 & H4).
    destruct (prepareTables_returns t None st0 hs row0 rest H1 H2 H3 H4)
      as (st1 & E1 & T1 & _).
    pose proof (prepareTables_keeps t None st0) as K. rewrite E1 in K. cbn [final] in K.
    destruct (IH st1) as (st & E & T).
    { eapply Forall_impl; [exact Hts|]. intros t'. apply well_formed_kept, K. }
    exists st. split.
    { unfold setup in *. cbn [for_each]. unfold bind. rewrite E1. exact E. }
    rewrite T, T1, last_cons.
    destruct (last ts); [apply insert_insert_eq | reflexivity].
Qed.

(** X15. [setup] passes no table number, so on a page of tables that
    can be prepared it returns with one element in [tableProp], stored
    under [undefined], and the element describes the last table of the
    page: what it stored for the tables before is overwritten. *)
Theorem setup_keeps_last_table (tables : list TableElem) (t : TableElem) (st0 : State) :
  Forall (well_formed st0) (tables ++ [t]) ->
  exists st,
    setup (tables ++ [t]) st0 = Returned tt st /\
    tableProp st = <[None := table_entry t None]> (tableProp st0) /\
    forall k, k <> None -> tableProp st !! k = tableProp st0 !! k.
Proof.
  intros H. destruct (setup_runs _ _ H) as (st & E & T).
  rewrite last_snoc in T.
  exists st. split; [exact E|]. split; [exact T|].
  intros k Hk. rewrite T. apply lookup_insert_ne. congruence.
Qed.

(** *** A table without body rows *)

Lemma setup_preserves (tables : list TableElem) :
  preserves keeps_document (setup tables).
Proof.
  unfold setup. apply preserves_for_each;
    [apply keeps_document_refl | apply keeps_document_trans|].
  intros t. apply prepareTables_keeps.
Qed.

Lemma for_each_app {A : Type} (l1 l2 : list A) (body : A -> M State unit) (st : State) :
  for_each (l1 ++ l2) body st = (for_each l1 body ;; for_each l2 body) st.
Proof.
  revert st. induction l1 as [|x l1 IH]; intros st; [reflexivity|].
  cbn [for_each app]. unfold bind.
  destruct (body x st) as [[] s|e s]; [|reflexivity].
  rewrite IH. reflexivity.
Qed.

Lemma header_step_override (thead tbody_ i : nat) (st : State) :
  (exists h, header_cell thead i st = Some h /\ is_Some (getSortFn (className h))) ->
  exists st', header_step thead tbody_ i st = Returned tt st'.
Proof.
  intros (h & Hh & [fn Hfn]).
  destruct (update_header_cell_returns thead i (write_sortdir (Some up)) st)
    as (st1 & E1 & _ & _ & C1 & _).
  destruct (update_header_cell_returns thead i (write_isSorted false) st1)
    as (st2 & E2 & _ & _ & C2 & _).
  pose proof (C2 _ (C1 _ Hh)) as Hh2.
  unfold header_step. unfold bind at 1. rewrite E1. unfold bind at 1. rewrite E2.
  unfold bind at 1. rewrite Hh2. cbn [defined ret className write_isSorted write_sortdir].
  rewrite Hfn. eexists. reflexivity.
Qed.

Lemma header_step_no_row (thead tbody_ i : nat) (st : State) :
  (exists h, header_cell thead i st = Some h /\ getSortFn (className h) = None) ->
  tbodies st !! tbody_ = Some [] ->
  exists st', header_step thead tbody_ i st = Thrown TypeError st'.
Proof.
  intros (h & Hh & Hfn) Hb.
  destruct (update_header_cell_returns thead i (write_sortdir (Some up)) st)
    as (st1 & E1 & (_ & _ & B1 & _) & _ & C1 & _).
  destruct (update_header_cell_returns thead i (write_isSorted false) st1)
    as (st2 & E2 & (_ & _ & B2 & _) & _ & C2 & _).
  pose proof (C2 _ (C1 _ Hh)) as Hh2.
  unfold header_step. unfold bind at 1. rewrite E1. unfold bind at 1. rewrite E2.
  unfold bind at 1. rewrite Hh2. cbn [defined ret className write_isSorted write_sortdir].
  rewrite Hfn. unfold bind at 1. rewrite B2, B1, Hb. cbn [defined ret].
  unfold bind at 1. cbn. eexists. reflexivity.
Qed.

Lemma override_kept (thead i : nat) (st st' : State) :
  keeps_document st st' ->
  (exists h, header_cell thead i st = Some h /\ is_Some (getSortFn (className h))) ->
  exists h, header_cell thead i st' = Some h /\ is_Some (getSortFn (className h)).
Proof.
  intros (_ & _ & _ & _ & _ & _ & K) (h & Hh & Hf).
  destruct (K _ _ _ Hh) as (h' & Hh' & C & _). exists h'. rewrite C. auto.
Qed.

Lemma no_override_kept (thead i : nat) (st st' : State) :
  keeps_document st st' ->
  (exists h, header_cell thead i st = Some h /\ getSortFn (className h) = None) ->
  exists h, header_cell thead i st' = Some h /\ getSortFn (className h) = None.
Proof.
  intros (_ & _ & _ & _ & _ & _ & K) (h & Hh & Hf).
  destruct (K _ _ _ Hh) as (h' & Hh' & C & _). exists h'. rewrite C. auto.
Qed.

Lemma empty_table_kept (st st' : State) (t : TableElem) (j : nat) :
  keeps_document st st' -> empty_table st t j -> empty_table st' t j.
Proof.
  intros K (B & N & O). pose proof K as (_ & Kb & _).
  split; [rewrite Kb; exact B|].
  split; [eapply no_override_kept; eassumption|].
  intros i Hi. eapply override_kept; [exact K | apply O, Hi].
Qed.

Lemma for_each_override (thead tbody_ : nat) (l : list nat) (st : State) :
  (forall i, In i l ->
     exists h, header_cell thead i st = Some h /\ is_Some (getSortFn (className h))) ->
  exists st', for_each l (header_step thead tbody_) st = Returned tt st'.
Proof.
  revert st. induction l as [|i l IH]; intros st H.
  - exists st. reflexivity.
  - destruct (header_step_override thead tbody_ i st (H i (or_introl eq_refl))) as [st1 E1].
    pose proof (header_step_keeps thead tbody_ i st) as [K _].
    rewrite E1 in K. cbn [final] in K.
    destruct (IH st1) as [st2 E2].
    { intros i' Hi'. eapply override_kept; [exact K | apply H; right; exact Hi']. }
    exists st2. cbn [for_each]. unfold bind. rewrite E1. exact E2.
Qed.

Lemma sort_no_cells (localeCompare : string -> string -> Z) (k : tblNumber) (th : th_ref)
    (st : State) (prop : TableProp) :
  tableProp st !! k = Some prop -> headerCells prop = no_cells ->
  sort localeCompare k th st = Thrown TypeError st.
Proof.
  intros Hp Hh. unfold sort. unfold bind at 1. rewrite Hp. cbn [defined ret].
  rewrite Hh. reflexivity.
Qed.

Lemma prepareTables_throws (t : TableElem) (k : tblNumber) (st0 : State) (j : nat) :
  empty_table st0 t j ->
  exists st,
    prepareTables t k st0 = Thrown TypeError st /\
    tableProp st = <[k := table_entry_no_cells t k]> (tableProp st0).
Proof.
  intros (Hb & (hj & Hj & Hn) & Ho).
  set (sta := set_tableProp (<[k := table_entry_no_cells t k]> (tableProp st0)) st0).
  destruct (header_rows st0 !! tHead t) as [hs|] eqn:Hhs.
  2:{ unfold header_cell in Hj. rewrite Hhs in Hj. discriminate. }
  assert (Hlen : (j < length hs)%nat).
  { unfold header_cell in Hj. rewrite Hhs in Hj. cbn in Hj. apply (lookup_lt_Some _ _ _ Hj). }
  assert (Hseq : seq 0 (length hs) = seq 0 j ++ j :: seq (S j) (length hs - S j)).
  { replace (length hs) with (j + S (length hs - S j))%nat at 1 by lia.
    rewrite seq_app. reflexivity. }
  destruct (for_each_override (tHead t) (tBody t) (seq 0 j) sta) as [st1 E1].
  { intros i Hi. apply in_seq in Hi. apply Ho. lia. }
  pose proof (preserves_for_each keeps_tables keeps_tables_refl keeps_tables_trans
                (seq 0 j) (header_step (tHead t) (tBody t))
                (header_step_keeps (tHead t) (tBody t)) sta) as [K1 T1].
  rewrite E1 in K1, T1. cbn [final] in K1, T1.
  destruct (header_step_no_row (tHead t) (tBody t) j st1) as [st2 E2].
  { eapply no_override_kept; [exact K1|]. exists hj. auto. }
  { destruct K1 as (_ & -> & _). exact Hb. }
  pose proof (header_step_keeps (tHead t) (tBody t) j st1) as [K2 T2].
  rewrite E2 in K2, T2. cbn [final] in K2, T2.
  exists st2. split; [|rewrite T2, T1; reflexivity].
  rewrite prepareTables_unfold.
  unfold bind at 1. unfold modify at 1. fold sta.
  unfold bind at 1. cbn [sta header_rows set_tableProp]. rewrite Hhs. cbn [defined ret].
  fold sta. unfold bind at 1. rewrite Hseq, for_each_app.
  unfold bind at 1. rewrite E1. cbn [for_each]. unfold bind at 1. rewrite E2. reflexivity.
Qed.

Section EmptyTable.

Variable localeCompare : string -> string -> Z.

(** X16. On a table without body rows, [prepareTables] throws a
    TypeError at the first header cell that names no function of the
    registry.  It leaves the element it stored for the table without
    header cells, so that every later request for that table number
    throws as well; the document is as [setup] keeps it. *)
Theorem prepareTables_empty_tbody (t : TableElem) (k : tblNumber) (st0 : State) (j : nat) :
  empty_table st0 t j ->
  exists st,
    prepareTables t k st0 = Thrown TypeError st /\
    tableProp st = <[k := table_entry_no_cells t k]> (tableProp st0) /\
    keeps_document st0 st /\
    forall th, sort localeCompare k th st = Thrown TypeError st.
Proof.
  intros H. destruct (prepareTables_throws t k st0 j H) as (st & E & T).
  exists st. split; [exact E|]. split; [exact T|]. split.
  - pose proof (prepareTables_keeps t k st0) as K. rewrite E in K. exact K.
  - intros th. apply (sort_no_cells _ _ _ _ (table_entry_no_cells t k)); [|reflexivity].
    rewrite T. apply lookup_insert_eq.
Qed.

(** X17. One table without body rows stops [setup] for the page: the
    tables after it are not prepared, and since the tables before it
    share the table number [undefined] with it, no header cell of the page
    sorts any more, every request for that number throws. *)
Theorem setup_stops_at_empty_table (before after : list TableElem) (t : TableElem)
    (st0 : State) (j : nat) :
  Forall (well_formed st0) before ->
  empty_table st0 t j ->
  exists st,
    setup (before ++ t :: after) st0 = Thrown TypeError st /\
    tableProp st = <[None := table_entry_no_cells t None]> (tableProp st0) /\
    keeps_document st0 st /\
    forall th, sort localeCompare None th st = Thrown TypeError st.
Proof.
  intros Hb He.
  destruct (setup_runs before st0 Hb) as (st1 & E1 & T1).
  pose proof (setup_preserves before st0) as K1. rewrite E1 in K1. cbn [final] in K1.
  destruct (prepareTables_throws t None st1 j (empty_table_kept _ _ _ _ K1 He))
    as (st & E & T).
  assert (Es : setup (before ++ t :: after) st0 = Thrown TypeError st).
  { unfold setup in *. rewrite for_each_app. unfold bind at 1. rewrite E1.
    cbn [for_each]. unfold bind at 1. rewrite E. reflexivity. }
  assert (Tp : tableProp st = <[None := table_entry_no_cells t None]> (tableProp st0)).
  { rewrite T, T1. destruct (last before); [apply insert_insert_eq | reflexivity]. }
  exists st. split; [exact Es|]. split; [exact Tp|]. split.
  - pose proof (setup_preserves (before ++ t :: after) st0) as K.
    rewrite Es in K. exact K.
  - intros th. apply (sort_no_cells _ _ _ _ (table_entry_no_cells t None)); [|reflexivity].
    rewrite Tp. apply lookup_insert_eq.
Qed.

End EmptyTable.

Lemma two_tables_well_formed :
  Forall (well_formed two_tables_page) ([prices_table] ++ [names_table]).
Proof.
  repeat constructor.
  - exists prices_header, {| row_id := 1; cells := ["$1,234.50"; "25/12/2023"; "pear"] |},
      [ {| row_id := 2; cells := ["$99.90"; "01/11/2023"; "007"] |};
        {| row_id := 3; cells := ["N/A"; "13/02/2024"; "7"] |} ].
    split; [reflexivity|]. split; [reflexivity|]. split; [simpl; lia | discriminate].
  - exists names_header, {| row_id := 11; cells := ["zoe"] |},
      [ {| row_id := 12; cells := ["adam"] |} ].
    split; [reflexivity|]. split; [reflexivity|]. split; [simpl; lia | discriminate].
Defined.

Lemma setup_keeps_last_table_witness :
  Forall (well_formed two_tables_page) ([prices_table] ++ [names_table]) /\
  exists st,
    setup ([prices_table] ++ [names_table]) two_tables_page = Returned tt st /\
    tableProp st = <[None := table_entry names_table None]> (tableProp two_tables_page) /\
    forall k, k <> None -> tableProp st !! k = tableProp two_tables_page !! k.
Proof.
  split; [exact two_tables_well_formed|].
  exact (setup_keeps_last_table [prices_table] names_table two_tables_page
           two_tables_well_formed).
Defined.

Lemma second_table_empty : empty_table names_then_empty_page second_table 1.
Proof.
  split; [reflexivity|]. split.
  - exists (th_element ""). split; reflexivity.
  - intros i Hi. destruct i as [|i]; [|lia].
    exists (th_element "sortDate"). split; [reflexivity|]. vm_compute. eauto.
Defined.

Lemma first_table_well_formed : Forall (well_formed names_then_empty_page) [first_table].
Proof.
  repeat constructor.
  exists names_header, {| row_id := 11; cells := ["zoe"] |},
    [ {| row_id := 12; cells := ["adam"] |} ].
  split; [reflexivity|]. split; [reflexivity|]. split; [simpl; lia | discriminate].
Defined.

Lemma prepareTables_empty_tbody_witness :
  empty_table names_then_empty_page second_table 1 /\
  exists st,
    prepareTables second_table (Some 1%nat) names_then_empty_page = Thrown TypeError st /\
    tableProp st = <[Some 1%nat := table_entry_no_cells second_table (Some 1%nat)]>
                     (tableProp names_then_empty_page) /\
    keeps_document names_then_empty_page st /\
    forall th, sort code_unit_compare (Some 1%nat) th st = Thrown TypeError st.
Proof.
  split; [exact second_table_empty|].
  exact (prepareTables_empty_tbody code_unit_compare second_table (Some 1%nat)
           names_then_empty_page 1 second_table_empty).
Defined.

Lemma setup_stops_at_empty_table_witness :
  Forall (well_formed names_then_empty_page) [first_table] /\
  empty_table names_then_empty_page second_table 1 /\
  exists st,
    setup ([first_table] ++ second_table :: [first_table]) names_then_empty_page
    = Thrown TypeError st /\
    tableProp st = <[None := table_entry_no_cells second_table None]>
                     (tableProp names_then_empty_page) /\
    keeps_document names_then_empty_page st /\
    forall th, sort code_unit_compare None th st = Thrown TypeError st.
Proof.
  split; [exact first_table_well_formed|]. split; [exact second_table_empty|].
  exact (setup_stops_at_empty_table code_unit_compare [first_table] [first_table]
           second_table names_then_empty_page 1 first_table_well_formed second_table_empty).
Defined.

(** ** The numeric comparators *)

Lemma exec_from_class (p : ascii -> bool) (s : string) (i : nat) :
  match exec_from (Cls p) i s with
  | Some f =>
      index f = (i + run_length (fun c => negb (p c)) s)%nat /\
      String.length (matched f) = 1%nat /\
      (run_length (fun c => negb (p c)) s < String.length s)%nat
  | None => string_forall (fun c => negb (p c)) s = true
  end.
Proof.
  revert i. induction s as [|a s IH]; intros i.
  - cbn. reflexivity.
  - cbn [exec_from]. unfold match_at. rewrite rx_Cls_String.
    cbn [run_length string_forall String.length]. destruct (p a) eqn:E; cbn [negb andb].
    + cbn [index matched]. replace (S i - i)%nat with 1%nat by lia.
      split; [lia|]. split; [apply substring_prefix_length; simpl; lia | lia].
    + specialize (IH (S i)). destruct (exec_from (Cls p) (S i) s) as [f|].
      * destruct IH as (I1 & I2 & I3). split; [lia|]. split; [exact I2 | lia].
      * exact IH.
Qed.

Lemma subst_first_none (p : ascii -> bool) (rep s : string) :
  string_forall (fun c => negb (p c)) s = true -> subst_first p rep s = s.
Proof.
  induction s as [|a s IH]; [reflexivity|].
  cbn [string_forall subst_first]. intros H. apply andb_true_iff in H as [Ha H].
  apply negb_true_iff in Ha. rewrite Ha, IH by exact H. reflexivity.
Qed.

Lemma subst_first_at (p : ascii -> bool) (rep s : string) :
  let j := run_length (fun c => negb (p c)) s in
  (j < String.length s)%nat ->
  substring 0 j s +:+ rep +:+ substring (j + 1) (String.length s - (j + 1)) s
  = subst_first p rep s.
Proof.
  induction s as [|a s IH]; cbn zeta in *; [simpl; lia|].
  cbn [run_length subst_first String.length]. destruct (p a) eqn:E; cbn [negb]; intros H.
  - cbn [Nat.add substring Nat.sub]. rewrite Nat.sub_0_r, substring_whole. reflexivity.
  - cbn [substring Nat.add Nat.sub]. rewrite append_String. f_equal. apply IH. lia.
Qed.

(** What [replace] without the [g] flag makes of a text, for a pattern of
    one character class. *)
Lemma replace_first_class (p : ascii -> bool) (rep s : string) :
  replace_first (Cls p) rep s = subst_first p rep s.
Proof.
  unfold replace_first, exec. pose proof (exec_from_class p s 0) as H.
  destruct (exec_from (Cls p) 0 s) as [f|].
  - destruct H as (-> & -> & H). cbn [Nat.add]. apply subst_first_at. exact H.
  - symmetry. apply subst_first_none, H.
Qed.

Lemma string_filter_all (p : ascii -> bool) (s : string) :
  string_forall p s = true -> string_filter p s = s.
Proof.
  induction s as [|a s IH]; [reflexivity|].
  cbn [string_forall string_filter]. intros H. apply andb_true_iff in H as [-> H].
  rewrite IH by exact H. reflexivity.
Qed.

Lemma string_forall_filter (p : ascii -> bool) (s : string) :
  string_forall p (string_filter p s) = true.
Proof.
  induction s as [|a s IH]; [reflexivity|].
  cbn [string_filter]. destruct (p a) eqn:E; [|exact IH].
  cbn [string_forall]. rewrite E, IH. reflexivity.
Qed.

Lemma string_forall_impl (p q : ascii -> bool) (s : string) :
  (forall c, p c = true -> q c = true) ->
  string_forall p s = true -> string_forall q s = true.
Proof.
  intros H. induction s as [|a s IH]; [reflexivity|].
  cbn [string_forall]. intros Hs. apply andb_true_iff in Hs as [Ha Hs].
  rewrite (H a Ha), IH by exact Hs. reflexivity.
Qed.

(** The text [sortNumber_nonJS] reads as a number: the digits, commas and
    minus signs of the key, with the first comma turned into a period. *)
Lemma number_text_nonJS_filter (s : string) :
  number_text_nonJS s = subst_first (is_char ",") "." (string_filter number_char_nonJS s).
Proof.
  unfold number_text_nonJS, re_not_number_nonJS, re_comma, re_period, chr.
  rewrite replace_all_plus_class, replace_all_class, replace_first_class.
  f_equal.
  rewrite (string_filter_ext
             (fun c => negb (negb (is_digit c || is_char "," c || is_char "-" c)))
             number_char_nonJS s) by (intros c; apply negb_involutive).
  apply string_filter_all.
  apply (string_forall_impl number_char_nonJS); [|apply string_forall_filter].
  intros c H. unfold number_char_nonJS in H. unfold is_char in *.
  destruct (Ascii.eqb_spec "." c) as [<-|]; [discriminate H | reflexivity].
Qed.

Lemma swap_separator_class (c : ascii) :
  number_char_nonJS (swap_separator c) = number_char_JS c.
Proof.
  unfold number_char_nonJS, number_char_JS, swap_separator, is_char.
  destruct (Ascii.eqb_spec "," c) as [<-|N1]; [reflexivity|].
  destruct (Ascii.eqb_spec "." c) as [<-|N2]; [reflexivity|].
  destruct (Ascii.eqb_spec "," c) as [|_]; [contradiction|].
  rewrite !orb_false_r. reflexivity.
Qed.

Lemma string_filter_map (f : ascii -> ascii) (p q : ascii -> bool) (s : string) :
  (forall c, p (f c) = q c) ->
  string_filter p (string_map f s) = string_map f (string_filter q s).
Proof.
  intros H. induction s as [|a s IH]; [reflexivity|].
  cbn [string_map string_filter]. rewrite H. destruct (q a); cbn [string_map]; rewrite IH;
    reflexivity.
Qed.

Lemma count_char_filter (p q : ascii -> bool) (s : string) :
  (forall c, p c = true -> q c = true) ->
  count_char p (string_filter q s) = count_char p s.
Proof.
  intros H. induction s as [|a s IH]; [reflexivity|].
  cbn [string_filter count_char]. destruct (q a) eqn:E.
  - cbn [count_char]. rewrite IH. reflexivity.
  - destruct (p a) eqn:Ep; [rewrite (H a Ep) in E; discriminate | exact IH].
Qed.

Lemma string_map_swap_plain (u : string) :
  string_forall number_char_JS u = true ->
  count_char (is_char ".") u = 0%nat ->
  string_map swap_separator u = u.
Proof.
  induction u as [|c u IH]; [reflexivity|].
  cbn [string_forall count_char string_map]. intros H Hc.
  apply andb_true_iff in H as [Hk H].
  destruct (is_char "." c) eqn:Ep; [discriminate Hc|].
  rewrite IH by assumption. f_equal.
  unfold swap_separator. rewrite Ep.
  unfold number_char_JS, is_char in *.
  destruct (Ascii.eqb_spec "," c) as [<-|]; [discriminate Hk | reflexivity].
Qed.

Lemma subst_first_swap (u : string) :
  string_forall number_char_JS u = true ->
  (count_char (is_char ".") u <= 1)%nat ->
  subst_first (is_char ",") "." (string_map swap_separator u) = u.
Proof.
  induction u as [|c u IH]; [reflexivity|].
  cbn [string_forall count_char string_map subst_first]. intros H Hc.
  apply andb_true_iff in H as [Hk H].
  destruct (is_char "." c) eqn:Ep.
  - apply Ascii.eqb_eq in Ep. subst c.
    change (swap_separator ".") with ","%char.
    change (is_char "," ",") with true. cbv iota.
    rewrite append_String, append_Empty. f_equal.
    apply string_map_swap_plain; [exact H | lia].
  - destruct (is_char "," c) eqn:Ec.
    { apply Ascii.eqb_eq in Ec. subst c. discriminate Hk. }
    assert (Es : swap_separator c = c) by (unfold swap_separator; rewrite Ec, Ep; reflexivity).
    rewrite Es, Ec. f_equal. apply IH; assumption.
Qed.

(** X18. [sortNumber_nonJS] is [sortNumberJS] with the two separators
    exchanged: on keys with at most one period, what [sortNumberJS]
    returns for the keys is what [sortNumber_nonJS] returns for the keys
    written with a comma for every period and a period for every comma
    (23,478.96 as 23.478,96). *)
Theorem sortNumber_nonJS_mirrors (a b : string) (ra rb : Row) (c c' : Closure) :
  (count_char (is_char ".") a <= 1)%nat ->
  (count_char (is_char ".") b <= 1)%nat ->
  result (sortNumber_nonJS (string_map swap_separator a, ra)
                           (string_map swap_separator b, rb) c)
  = result (sortNumberJS (a, ra) (b, rb) c').
Proof.
  intros Ha Hb.
  destruct (sortNumber_nonJS_returns (string_map swap_separator a, ra)
              (string_map swap_separator b, rb) c) as [c1 ->].
  destruct (sortNumberJS_returns (a, ra) (b, rb) c') as [c2 ->].
  cbn [result fst].
  assert (E : forall s, (count_char (is_char ".") s <= 1)%nat ->
              number_text_nonJS (string_map swap_separator s) = number_text_JS s).
  { intros s Hs. rewrite number_text_nonJS_filter, number_text_JS_filter.
    rewrite (string_filter_map _ _ number_char_JS) by apply swap_separator_class.
    apply subst_first_swap; [apply string_forall_filter|].
    rewrite count_char_filter; [exact Hs|].
    intros x Hx. unfold number_char_JS. rewrite Hx. apply orb_true_iff. left.
    apply orb_true_r. }
  rewrite (E a Ha), (E b Hb). reflexivity.
Qed.

Lemma sortNumber_nonJS_mirrors_witness :
  let ra := {| row_id := 1; cells := [] |} in
  (count_char (is_char ".") "US$ 23,478.96" <= 1)%nat /\
  (count_char (is_char ".") "-1,000" <= 1)%nat /\
  result (sortNumber_nonJS (string_map swap_separator "US$ 23,478.96", ra)
                           (string_map swap_separator "-1,000", ra) initial_closure)
  = result (sortNumberJS ("US$ 23,478.96", ra) ("-1,000", ra) initial_closure).
Proof.
  intros ra.
  assert (H1 : (count_char (is_char ".") "US$ 23,478.96" <= 1)%nat) by (vm_compute; lia).
  assert (H2 : (count_char (is_char ".") "-1,000" <= 1)%nat) by (vm_compute; lia).
  split; [exact H1|]. split; [exact H2|].
  exact (sortNumber_nonJS_mirrors "US$ 23,478.96" "-1,000" ra ra
           initial_closure initial_closure H1 H2).
Defined.

(** *** What a match tells about the text *)

Lemma append_assoc (a b c : string) : (a +:+ b) +:+ c = a +:+ (b +:+ c).
Proof.
  induction a as [|x a IH]; [reflexivity|].
  rewrite !append_String, IH. reflexivity.
Qed.

(** A pattern that matches hands what follows it a suffix of the text. *)
Lemma rx_suffix {R : Type} (r : regex) :
  forall i s c (k : nat -> string -> captures -> option R) x,
    rx r i s c k = Some x ->
    exists pre i' s' c', s = pre +:+ s' /\ k i' s' c' = Some x.
Proof.
  induction r as [| | |p|r1 IH1 r2 IH2|r1 IH1 r2 IH2|g r IH|j r IH];
    intros i s c k x H.
  - exists "", i, s, c. auto.
  - cbn [rx] in H. destruct (Nat.eqb i 0); [|discriminate]. exists "", i, s, c. auto.
  - cbn [rx] in H. destruct s; [|discriminate]. exists "", i, "", c. auto.
  - destruct s as [|a s]; [discriminate|]. rewrite rx_Cls_String in H.
    destruct (p a); [|discriminate]. exists (String a ""), (S i), s, c. auto.
  - rewrite rx_Seq in H. apply IH1 in H as (pre1 & i1 & s1 & c1 & -> & H).
    apply IH2 in H as (pre2 & i2 & s2 & c2 & -> & H).
    exists (pre1 +:+ pre2), i2, s2, c2. split; [symmetry; apply append_assoc | exact H].
  - change (or_else (rx r1 i s c k) (rx r2 i s c k) = Some x) in H.
    destruct (rx r1 i s c k) eqn:E; cbn [or_else] in H.
    + injection H as ->. apply IH1 in E. exact E.
    + apply IH2 in H. exact H.
  - rewrite rx_Star in H. generalize dependent (String.length s). intros n.
    revert i s c x. induction n as [|n IHn]; intros i s c x H; cbn [star_loop] in H.
    + exists "", i, s, c. auto.
    + assert (Hstep : forall y,
                rx r i s c (fun i' s' c' =>
                  if Nat.ltb i i' then star_loop (rx r) g k n i' s' c' else None) = Some y ->
                exists pre i' s' c', s = pre +:+ s' /\ k i' s' c' = Some y).
      { intros y Hy. apply IH in Hy as (pre1 & i1 & s1 & c1 & -> & Hy).
        destruct (Nat.ltb i i1); [|discriminate].
        apply IHn in Hy as (pre2 & i2 & s2 & c2 & -> & Hy).
        exists (pre1 +:+ pre2), i2, s2, c2.
        split; [symmetry; apply append_assoc | exact Hy]. }
      destruct g.
      * destruct (rx r i s c _) eqn:E; cbn [or_else] in H.
        -- injection H as ->. apply Hstep. reflexivity.
        -- exists "", i, s, c. auto.
      * destruct (k i s c) eqn:E; cbn [or_else] in H.
        -- injection H as ->. exists "", i, s, c. auto.
        -- apply Hstep. exact H.
  - cbn [rx] in H. apply IH in H as (pre & i' & s' & c' & -> & H). eauto 8.
Qed.

(** The run of a quantified class is made of characters of the class. *)
Lemma star_class_inv {R : Type} (p : ascii -> bool) (g : bool)
    (k : nat -> string -> captures -> option R) :
  forall n i s c x,
    star_loop (rx (Cls p)) g k n i s c = Some x ->
    exists d i' s' c',
      s = d +:+ s' /\ string_forall p d = true /\ k i' s' c' = Some x.
Proof.
  induction n as [|n IH]; intros i s c x H; cbn [star_loop] in H.
  - exists "", i, s, c. auto.
  - assert (Hstep : forall y,
              rx (Cls p) i s c (fun i' s' c' =>
                if Nat.ltb i i' then star_loop (rx (Cls p)) g k n i' s' c' else None)
              = Some y ->
              exists d i' s' c',
                s = d +:+ s' /\ string_forall p d = true /\ k i' s' c' = Some y).
    { intros y Hy. destruct s as [|a s]; [discriminate|].
      rewrite rx_Cls_String in Hy. destruct (p a) eqn:Ea; [|discriminate].
      destruct (Nat.ltb i (S i)); [|discriminate].
      apply IH in Hy as (d & i' & s' & c' & -> & Hd & Hy).
      exists (String a d), i', s', c'. split; [reflexivity|].
      split; [cbn [string_forall]; rewrite Ea, Hd; reflexivity | exact Hy]. }
    destruct g.
    + destruct (rx (Cls p) i s c _) eqn:E; cbn [or_else] in H.
      * injection H as ->. apply Hstep. reflexivity.
      * exists "", i, s, c. auto.
    + destruct (k i s c) eqn:E; cbn [or_else] in H.
      * injection H as ->. exists "", i, s, c. auto.
      * apply Hstep. exact H.
Qed.

Lemma re_number_inv (s : string) (f : found) :
  match_at re_number 0 s = Some f ->
  exists p d t,
    s = p +:+ d +:+ t /\
    string_forall is_non_digit p = true /\
    string_forall is_number_char d = true /\ d <> "" /\
    string_forall is_percent_or_space t = true.
Proof.
  set (kf := fun (i' : nat) (_ : string) (c : captures) =>
               Some {| index := 0%nat; matched := substring 0 (i' - 0) s; groups := c |}).
  set (k_end := fun i' s' c' => rx (Seq Eol Eps) i' s' c' kf).
  set (k_tail := fun i' s' c' =>
                   star_loop (rx (Cls is_percent_or_space)) false k_end
                             (String.length s') i' s' c').
  set (k_num := fun i' s' c' =>
                  rx (Cls is_number_char) i' s' c'
                     (fun i2 s2 c2 =>
                        star_loop (rx (Cls is_number_char)) true k_tail
                                  (String.length s2) i2 s2 c2)).
  set (k_sign := fun i' s' c' =>
                   star_loop (rx (Cls is_non_digit)) false k_num
                             (String.length s') i' s' c').
  assert (E : match_at re_number 0 s
              = or_else (rx (chr "-") 0%nat s [] k_sign) (k_sign 0%nat s [])) by reflexivity.
  rewrite E. clear E. intros H.
  assert (G : forall i1 s1 c1,
            k_sign i1 s1 c1 = Some f ->
            exists p d t,
              s1 = p +:+ d +:+ t /\
              string_forall is_non_digit p = true /\
              string_forall is_number_char d = true /\ d <> "" /\
              string_forall is_percent_or_space t = true).
  { intros i1 s1 c1 H1. unfold k_sign in H1.
    apply star_class_inv in H1 as (p & i2 & s2 & c2 & -> & Hp & H2).
    unfold k_num in H2. destruct s2 as [|a s3]; [discriminate|].
    rewrite rx_Cls_String in H2. destruct (is_number_char a) eqn:Ea; [|discriminate].
    apply star_class_inv in H2 as (d & i4 & s4 & c4 & -> & Hd & H4).
    unfold k_tail in H4.
    apply star_class_inv in H4 as (t & i5 & s5 & c5 & -> & Ht & H5).
    unfold k_end in H5. cbn [rx] in H5. destruct s5; [|discriminate].
    exists p, (String a d), t. rewrite append_empty_r.
    split; [reflexivity|]. split; [exact Hp|].
    split; [cbn [string_forall]; rewrite Ea, Hd; reflexivity|].
    split; [discriminate | exact Ht]. }
  destruct (rx (chr "-") 0%nat s [] k_sign) eqn:E1; cbn [or_else] in H.
  - injection H as ->. unfold chr in E1. destruct s as [|a s1]; [discriminate|].
    rewrite rx_Cls_String in E1. unfold is_char in E1.
    destruct (Ascii.eqb_spec "-" a) as [<-|]; [|discriminate].
    apply G in E1 as (p & d & t & -> & Hp & Hd & Hne & Ht).
    exists (String "-" p), d, t. split; [reflexivity|].
    split; [cbn [string_forall]; rewrite Hp; reflexivity | auto].
  - apply G in H. exact H.
Qed.

(** A pattern that begins with [^] matches at the start or nowhere. *)
Lemma exec_from_Bol (r : regex) (s : string) (i : nat) :
  exec_from (Seq Bol r) (S i) s = None.
Proof.
  revert i. induction s as [|a s IH]; intros i; cbn [exec_from]; unfold match_at;
    rewrite rx_Seq; cbn [rx Nat.eqb]; [reflexivity | apply IH].
Qed.

Lemma exec_Bol (r : regex) (s : string) :
  exec (Seq Bol r) s = match_at (Seq Bol r) 0 s.
Proof.
  unfold exec. destruct s as [|a s]; cbn [exec_from].
  - destruct (match_at (Seq Bol r) 0 ""); reflexivity.
  - destruct (match_at (Seq Bol r) 0 (String a s)); [reflexivity | apply exec_from_Bol].
Qed.

Lemma exec_re_number (s : string) : exec re_number s = match_at re_number 0 s.
Proof. apply exec_Bol. Qed.

Lemma exec_re_date (s : string) : exec re_date s = match_at re_date 0 s.
Proof. apply exec_Bol. Qed.

Lemma guessDataType_cases (s : string) :
  exec re_number s = None ->
  guessDataType s <> SortNumberJS /\
  (exec re_date s = None -> guessDataType s = AlphaNumeric).
Proof.
  intros H. unfold guessDataType. destruct s as [|a s].
  - cbn [String.length Nat.ltb Nat.leb]. split; [discriminate | reflexivity].
  - cbn [String.length Nat.ltb Nat.leb]. rewrite H.
    destruct (exec re_date (String a s)) as [testDate|]; [|split; [discriminate|reflexivity]].
    split; [|discriminate].
    destruct (js_gt (parseInt10 (group 1 (groups testDate))) (of_Z 12)); [discriminate|].
    destruct (js_gt (parseInt10 (group 2 (groups testDate))) (of_Z 12)); discriminate.
Qed.

(** X11. [guessDataType] takes a text for a number exactly when the text
    ends in a run of digits, commas and periods, after any characters
    that are not digits and before any percent signs and white space.  A
    price, a percentage and a signed amount are such texts, and so are a
    date written with periods and a word followed by a period. *)
Theorem guessDataType_number_iff (s : string) :
  guessDataType s = SortNumberJS <->
  exists p d t,
    s = p +:+ d +:+ t /\
    string_forall is_non_digit p = true /\
    string_forall is_number_char d = true /\ d <> "" /\
    string_forall is_percent_or_space t = true.
Proof.
  split.
  - intros H. destruct (exec re_number s) as [f|] eqn:E.
    + rewrite exec_re_number in E. apply re_number_inv in E. exact E.
    + destruct (guessDataType_cases s E) as [C _]. contradiction.
  - intros (p & d & t & -> & Hp & Hd & Hne & Ht). apply guessDataType_number; assumption.
Qed.

(** *** Texts that are neither numbers nor dates *)

Lemma string_forall_app (p : ascii -> bool) (a b : string) :
  string_forall p (a +:+ b) = string_forall p a && string_forall p b.
Proof.
  induction a as [|x a IH]; [reflexivity|].
  rewrite append_String. cbn [string_forall]. rewrite IH. apply andb_assoc.
Qed.

Lemma append_last (p w u : string) (z : ascii) :
  p +:+ w = u +:+ String z "" -> w <> "" -> exists w', w = w' +:+ String z "".
Proof.
  revert u. induction p as [|a p IH]; intros u H Hw.
  - rewrite append_Empty in H. eauto.
  - destruct u as [|b u].
    + rewrite append_String, append_Empty in H. injection H as _ H.
      destruct p; [rewrite append_Empty in H; contradiction | discriminate].
    + rewrite !append_String in H. injection H as _ H. eapply IH; eassumption.
Qed.

Lemma append_last_eq (u pre : string) (z b : ascii) :
  u +:+ String z "" = pre +:+ String b "" -> z = b.
Proof.
  revert pre. induction u as [|x u IH]; intros [|a pre] H.
  - rewrite !append_Empty in H. congruence.
  - rewrite append_Empty, append_String in H. injection H as _ H.
    destruct pre; discriminate.
  - rewrite append_Empty, append_String in H. injection H as _ H.
    destruct u; discriminate.
  - rewrite !append_String in H. injection H as _ H. eapply IH; eassumption.
Qed.

Lemma re_date_inv (s : string) (i : nat) (f : found) :
  match_at re_date i s = Some f ->
  exists pre b, s = pre +:+ String b "" /\ is_digit b = true.
Proof.
  unfold match_at, re_date, cat. cbn [foldr]. intros H.
  rewrite rx_Seq in H. apply rx_suffix in H as (p1 & i1 & s1 & c1 & -> & H).
  rewrite rx_Seq in H. apply rx_suffix in H as (p2 & i2 & s2 & c2 & -> & H).
  rewrite rx_Seq in H. apply rx_suffix in H as (p3 & i3 & s3 & c3 & -> & H).
  rewrite rx_Seq in H. apply rx_suffix in H as (p4 & i4 & s4 & c4 & -> & H).
  rewrite rx_Seq in H. apply rx_suffix in H as (p5 & i5 & s5 & c5 & -> & H).
  rewrite rx_Seq in H. cbn [rx] in H.
  change (rx (opt ?r) ?i ?s ?c ?k) with (or_else (rx r i s c k) (rx Eps i s c k)) in H.
  assert (G : forall i6 s6 c6,
            rx (Cls is_digit) i6 s6 c6 (fun i7 s7 c7 =>
              rx (Cls is_digit) i7 s7 c7 (fun i8 s8 c8 =>
                match s8 with
                | "" => Some {| index := i; matched :=
                           substring 0 (i8 - i)
                             (p1 +:+ p2 +:+ p3 +:+ p4 +:+ p5 +:+ s5);
                           groups := (3%nat, substring 0 (i8 - i5) s5) :: c8 |}
                | String _ _ => None
                end)) = Some f ->
            exists a b, s6 = String a (String b "") /\ is_digit b = true).
  { intros i6 s6 c6 H6. destruct s6 as [|a s7]; [discriminate|].
    rewrite rx_Cls_String in H6. destruct (is_digit a); [|discriminate].
    destruct s7 as [|b s8]; [discriminate|].
    rewrite rx_Cls_String in H6. destruct (is_digit b) eqn:Eb; [|discriminate].
    destruct s8; [|discriminate]. eauto. }
  assert (T : exists pre6 a b, s5 = pre6 +:+ String a (String b "") /\ is_digit b = true).
  { match type of H with
    | or_else ?x ?y = _ => destruct x eqn:E; cbn [or_else] in H
    end.
    - injection H as ->. cbn [rx] in E.
      destruct s5 as [|x1 s6]; [discriminate|].
      destruct (is_digit x1); [|discriminate].
      destruct s6 as [|x2 s7]; [discriminate|].
      destruct (is_digit x2); [|discriminate].
      apply G in E as (a & b & -> & Hb).
      exists (String x1 (String x2 "")), a, b. auto.
    - cbn [rx] in H. apply G in H as (a & b & -> & Hb). exists "", a, b. auto. }
  destruct T as (pre6 & a & b & -> & Hb).
  exists (p1 +:+ p2 +:+ p3 +:+ p4 +:+ p5 +:+ pre6 +:+ String a ""), b.
  split; [|exact Hb].
  rewrite !append_assoc. reflexivity.
Qed.

(** X19. [guessDataType] returns [alphaNumeric] for every text whose
    last character is not a digit, a comma, a period, a percent sign or
    white space: a word, or a number followed by a unit, is never taken
    for a number or a date. *)
Theorem guessDataType_text (u : string) (z : ascii) :
  is_number_char z = false ->
  is_percent_or_space z = false ->
  guessDataType (u +:+ String z "") = AlphaNumeric.
Proof.
  intros Hn Ht.
  destruct (exec re_number (u +:+ String z "")) as [f|] eqn:E.
  - exfalso. rewrite exec_re_number in E.
    apply re_number_inv in E as (p & d & t & E & _ & Hd & Hne & Htl).
    destruct (append_last p (d +:+ t) u z (eq_sym E)) as [w Hw].
    { destruct d; [contradiction | discriminate]. }
    assert (Q : string_forall (fun c => is_number_char c || is_percent_or_space c)
                              (d +:+ t) = true).
    { rewrite string_forall_app. apply andb_true_iff. split.
      - apply (string_forall_impl is_number_char); [|exact Hd].
        intros c ->. reflexivity.
      - apply (string_forall_impl is_percent_or_space); [|exact Htl].
        intros c ->. apply orb_true_r. }
    rewrite Hw, string_forall_app in Q. apply andb_true_iff in Q as [_ Q].
    cbn [string_forall] in Q. rewrite Hn, Ht in Q. discriminate.
  - destruct (guessDataType_cases _ E) as [_ C].
    destruct (exec re_date (u +:+ String z "")) as [f|] eqn:E'; [|apply C; reflexivity].
    exfalso. rewrite exec_re_date in E'.
    apply re_date_inv in E' as (pre & b & E' & Hb).
    assert (z = b) as -> by (apply (append_last_eq _ _ _ _ E')).
    unfold is_number_char in Hn. rewrite Hb in Hn. discriminate.
Qed.

Lemma guessDataType_text_witness :
  is_number_char "g" = false /\
  is_percent_or_space "g" = false /\
  guessDataType ("12 k" +:+ String "g" "") = AlphaNumeric.
Proof.
  split; [reflexivity|]. split; [reflexivity|].
  exact (guessDataType_text "12 k" "g" eq_refl eq_refl).
Defined.

(** *** Dates *)

Lemma digit_char_is_digit (n : nat) : (n < 10)%nat -> is_digit (digit_char n) = true.
Proof. intros H. do 10 (destruct n as [|n]; [reflexivity|]). lia. Qed.

Lemma two_digits_first (x : nat) : (x < 100)%nat -> (x / 10 < 10)%nat.
Proof. intros H. apply Nat.Div0.div_lt_upper_bound. lia. Qed.

Lemma two_digits_second (x : nat) : (x mod 10 < 10)%nat.
Proof. apply Nat.mod_upper_bound. lia. Qed.

Lemma parse_two_digits_table :
  forallb (fun x => Bool.eqb (js_gt (parseInt10 (two_digits x)) (of_Z 12)) (Nat.ltb 12 x))
          (seq 0 100) = true.
Proof. vm_compute. reflexivity. Qed.

Lemma parse_two_digits (x : nat) :
  (x < 100)%nat -> js_gt (parseInt10 (two_digits x)) (of_Z 12) = Nat.ltb 12 x.
Proof.
  intros H. pose proof parse_two_digits_table as T.
  rewrite forallb_forall in T. apply Bool.eqb_prop, T, in_seq. lia.
Qed.

Lemma re_date_matches (x1 x0 s1 y1 y0 s2 c3 c2 c1 c0 : ascii) :
  is_digit x1 = true -> is_digit x0 = true -> is_digit y1 = true -> is_digit y0 = true ->
  is_digit c3 = true -> is_digit c2 = true -> is_digit c1 = true -> is_digit c0 = true ->
  is_date_separator s1 = true -> is_date_separator s2 = true ->
  exists f,
    match_at re_date 0
      (String x1 (String x0 (String s1 (String y1 (String y0 (String s2
         (String c3 (String c2 (String c1 (String c0 "")))))))))) = Some f /\
    group 1 (groups f) = String x1 (String x0 "") /\
    group 2 (groups f) = String y1 (String y0 "").
Proof.
  unfold is_date_separator. intros Dx1 Dx0 Dy1 Dy0 D3 D2 D1 D0 S1 S2.
  unfold match_at, re_date, cat, opt. cbn [foldr].
  cbn [rx or_else Nat.eqb].
  rewrite Dx1, Dx0, S1, Dy1, Dy0, S2, D3, D2, D1, D0. cbn [or_else].
  eexists. split; [reflexivity|]. split; reflexivity.
Qed.

Lemma string_forall_third (q : ascii -> bool) (x1 x0 s1 : ascii) (r : string) :
  q s1 = false -> string_forall q (String x1 (String x0 (String s1 r))) = false.
Proof.
  intros H. cbn [string_forall]. rewrite H. rewrite andb_false_l, !andb_false_r. reflexivity.
Qed.

Lemma string_forall_sixth (q : ascii -> bool) (x1 x0 s1 y1 y0 s2 : ascii) (r : string) :
  q s2 = false ->
  string_forall q (String x1 (String x0 (String s1 (String y1 (String y0 (String s2 r))))))
  = false.
Proof.
  intros H. cbn [string_forall]. rewrite H. rewrite andb_false_l, !andb_false_r. reflexivity.
Qed.

Lemma date_separator_cases (c : ascii) :
  is_date_separator c = true -> c = "/"%char \/ c = "."%char \/ c = "-"%char.
Proof.
  unfold is_date_separator, is_char. intros H.
  apply orb_true_iff in H as [H|H]; [apply orb_true_iff in H as [H|H]|];
    apply Ascii.eqb_eq in H; auto.
Qed.

Lemma date_separator_not_tail (c : ascii) :
  is_date_separator c = true -> is_percent_or_space c = false.
Proof.
  intros H. destruct (date_separator_cases c H) as [E|[E|E]]; rewrite E; reflexivity.
Qed.

Lemma date_separator_number_char (c : ascii) :
  is_date_separator c = true -> is_number_char c = is_char "." c.
Proof.
  intros H. destruct (date_separator_cases c H) as [E|[E|E]]; rewrite E; reflexivity.
Qed.

(** The number pattern does not match a text that begins with a digit
    and holds a character that is none of its last two classes. *)
Lemma re_number_fails (a : ascii) (s : string) :
  is_digit a = true ->
  string_forall (fun c => is_number_char c || is_percent_or_space c) (String a s) = false ->
  exec re_number (String a s) = None.
Proof.
  intros Ha Hq. destruct (exec re_number (String a s)) as [f|] eqn:E; [|reflexivity].
  exfalso. rewrite exec_re_number in E.
  apply re_number_inv in E as (p & d & t & E & Hp & Hd & _ & Ht).
  destruct p as [|b p].
  - rewrite append_Empty in E. rewrite E, string_forall_app in Hq.
    rewrite (string_forall_impl is_number_char _ d) in Hq; [|intros c ->; reflexivity|exact Hd].
    rewrite (string_forall_impl is_percent_or_space _ t) in Hq;
      [discriminate | intros c ->; apply orb_true_r | exact Ht].
  - rewrite append_String in E. injection E as <- _.
    cbn [string_forall] in Hp. unfold is_non_digit in Hp. rewrite Ha in Hp. discriminate.
Qed.

(** X20. For a date written with two, two and four digits and the
    separators [/], [.] or [-], not both of them periods, [guessDataType]
    returns [sortDate] when the first field is above 12,
    [sortDate_American] when the first is not and the second is, and
    [sortDate] when neither is. *)
Theorem guessDataType_date (s1 s2 : ascii) (x y year : nat) :
  (x < 100)%nat -> (y < 100)%nat -> (year < 100 * 100)%nat ->
  is_date_separator s1 = true -> is_date_separator s2 = true ->
  is_char "." s1 && is_char "." s2 = false ->
  guessDataType (date_text s1 s2 x y year)
  = if Nat.ltb 12 x then SortDate
    else if Nat.ltb 12 y then SortDate_American
    else SortDate.
Proof.
  intros Hx Hy Hyear S1 S2 Hdots.
  assert (Hc : (year / 100 < 100)%nat) by (apply Nat.Div0.div_lt_upper_bound; lia).
  assert (Hm : (year mod 100 < 100)%nat) by (apply Nat.mod_upper_bound; lia).
  pose proof (digit_char_is_digit _ (two_digits_first x Hx)) as Dx1.
  pose proof (digit_char_is_digit _ (two_digits_second x)) as Dx0.
  pose proof (digit_char_is_digit _ (two_digits_first y Hy)) as Dy1.
  pose proof (digit_char_is_digit _ (two_digits_second y)) as Dy0.
  pose proof (digit_char_is_digit _ (two_digits_first _ Hc)) as D3.
  pose proof (digit_char_is_digit _ (two_digits_second (year / 100))) as D2.
  pose proof (digit_char_is_digit _ (two_digits_first _ Hm)) as D1.
  pose proof (digit_char_is_digit _ (two_digits_second (year mod 100))) as D0.
  assert (E : date_text s1 s2 x y year
              = String (digit_char (x / 10)) (String (digit_char (x mod 10)) (String s1
                  (String (digit_char (y / 10)) (String (digit_char (y mod 10)) (String s2
                     (String (digit_char (year / 100 / 10))
                        (String (digit_char ((year / 100) mod 10))
                           (String (digit_char (year mod 100 / 10))
                              (String (digit_char ((year mod 100) mod 10)) ""))))))))))
    by reflexivity.
  rewrite E. clear E.
  destruct (re_date_matches _ _ s1 _ _ s2 _ _ _ _ Dx1 Dx0 Dy1 Dy0 D3 D2 D1 D0 S1 S2)
    as (f & Hf & G1 & G2).
  set (chosen := if Nat.ltb 12 x then SortDate
                 else if Nat.ltb 12 y then SortDate_American else SortDate).
  unfold guessDataType. cbn [String.length Nat.ltb Nat.leb].
  rewrite re_number_fails.
  - rewrite exec_re_date, Hf, G1, G2. subst chosen.
    change (String (digit_char (x / 10)) (String (digit_char (x mod 10)) ""))
      with (two_digits x).
    change (String (digit_char (y / 10)) (String (digit_char (y mod 10)) ""))
      with (two_digits y).
    rewrite !parse_two_digits by assumption.
    destruct (Nat.ltb 12 x); [reflexivity|]. destruct (Nat.ltb 12 y); reflexivity.
  - exact Dx1.
  - apply andb_false_iff in Hdots as [H|H].
    + apply string_forall_third.
      rewrite (date_separator_number_char _ S1), H, (date_separator_not_tail _ S1).
      reflexivity.
    + apply string_forall_sixth.
      rewrite (date_separator_number_char _ S2), H, (date_separator_not_tail _ S2).
      reflexivity.
Qed.

Lemma guessDataType_date_witness :
  (5 < 100)%nat /\ (31 < 100)%nat /\ (2024 < 100 * 100)%nat /\
  is_date_separator "." = true /\ is_date_separator "/" = true /\
  is_char "." "." && is_char "." "/" = false /\
  guessDataType (date_text "." "/" 5 31 2024)
  = if Nat.ltb 12 5 then SortDate
    else if Nat.ltb 12 31 then SortDate_American
    else SortDate.
Proof.
  split; [lia|]. split; [lia|]. split; [lia|].
  split; [reflexivity|]. split; [reflexivity|]. split; [reflexivity|].
  apply (guessDataType_date "." "/" 5 31 2024); [lia | lia | lia | | |]; reflexivity.
Defined.

(** ** The ids of the arrows *)

Lemma append_inj (p a b : string) : p +:+ a = p +:+ b -> a = b.
Proof.
  induction p as [|x p IH]; [auto|].
  rewrite !append_String. intros H. injection H as H. auto.
Qed.

Lemma tblNumber_to_string_inj (k k' : tblNumber) :
  tblNumber_to_string k = tblNumber_to_string k' -> k = k'.
Proof.
  destruct k as [n|], k' as [n'|]; cbn [tblNumber_to_string]; intros H.
  - apply (f_equal NilEmpty.uint_of_string) in H. rewrite !NilEmpty.usu in H.
    injection H as H. apply DecimalNat.Unsigned.to_uint_inj in H. congruence.
  - apply (f_equal NilEmpty.uint_of_string) in H. rewrite NilEmpty.usu in H.
    discriminate H.
  - apply (f_equal NilEmpty.uint_of_string) in H. rewrite NilEmpty.usu in H.
    discriminate H.
  - reflexivity.
Qed.

(** X21. The [id] that [prepareTables] gives the arrow of a table
    determines the table number, for the numbers JavaScript writes in
    plain decimal digits: two tables prepared under different numbers
    have different arrow ids, and the id for [undefined] is the id of no
    number. *)
Theorem arrow_ids_distinct (t t' : TableElem) (k k' : tblNumber) :
  plain_number k -> plain_number k' ->
  spanArrowId (table_entry t k) = spanArrowId (table_entry t' k') -> k = k'.
Proof.
  cbn [spanArrowId table_entry]. intros _ _ H.
  apply tblNumber_to_string_inj, (append_inj "jrSortSpan"), H.
Qed.

Lemma arrow_ids_distinct_witness :
  plain_number (Some 10%nat) /\
  spanArrowId (table_entry prices_table (Some 10%nat))
  = spanArrowId (table_entry names_table (Some 10%nat)) /\
  Some 10%nat = Some 10%nat.
Proof.
  assert (P : plain_number (Some 10%nat)) by (vm_compute; reflexivity).
  split; [exact P|]. split; [reflexivity|].
  exact (arrow_ids_distinct prices_table names_table (Some 10%nat) (Some 10%nat)
           P P eq_refl).
Defined.

(** ** The handlers *)

Lemma bind_returned {A B : Type} (m : M State A) (k : A -> M State B)
    (st st' : State) (b : B) :
  bind m k st = Returned b st' ->
  exists a s, m st = Returned a s /\ k a s = Returned b st'.
Proof.
  unfold bind. destruct (m st) as [a s|e s]; [eauto | discriminate].
Qed.

Lemma addEvent_handlers (k : tblNumber) (row : nat) (st st' : State) :
  addEvent k row st = Returned tt st' ->
  (forall i h, header_cell row i st' = Some h -> onclick h = Some k) /\
  (forall r i, r <> row -> header_cell r i st' = header_cell r i st).
Proof.
  intros H.
  destruct (header_rows st !! row) as [cs|] eqn:Hcs.
  2:{ unfold addEvent, bind in H. rewrite Hcs in H. discriminate. }
  destruct (addEvent_returns k row st) as (st1 & E & _ & S & C & F); [eauto|].
  rewrite H in E. injection E as <-.
  split; [|exact F].
  intros i h Hh.
  destruct (header_cell row i st) as [h0|] eqn:H0.
  - rewrite (C i h0 H0) in Hh. injection Hh as <-. reflexivity.
  - exfalso. unfold header_cell in H0, Hh. pose proof (S row) as Sr.
    rewrite Hcs in *. destruct (header_rows st' !! row) as [cs'|]; [|discriminate].
    cbn in *. injection Sr as Sr.
    apply lookup_ge_None in H0. apply lookup_lt_Some in Hh. lia.
Qed.

Section Handlers.

Variable localeCompare : string -> string -> Z.

(** X22. When [prepareTables] returns, every cell of the first row of
    the thead, and of the first row of the tfoot if the table has one,
    has the handler that closes over the table number: a click on such a
    cell is the request [jrSortTables.sort(tblNumber, cell)]. *)
Theorem handlers_installed (t : TableElem) (k : tblNumber) (st0 st : State)
    (r i : nat) (h : HeaderCell) :
  prepareTables t k st0 = Returned tt st ->
  r = tHead t \/ tFoot t = Some r ->
  header_cell r i st = Some h ->
  onclick h = Some k /\
  click localeCompare {| th_row := r; cellIndex := i |} st
  = sort localeCompare k {| th_row := r; cellIndex := i |} st.
Proof.
  intros H Hr Hh.
  assert (O : onclick h = Some k).
  { rewrite prepareTables_unfold in H.
    apply bind_returned in H as (_ & s1 & _ & H).
    apply bind_returned in H as (arrTh & s2 & _ & H).
    apply bind_returned in H as (_ & s3 & _ & H).
    apply bind_returned in H as (_ & s4 & _ & H).
    apply bind_returned in H as ([] & s5 & Eh & H).
    destruct (addEvent_handlers _ _ _ _ Eh) as [Ch Fh].
    destruct (tFoot t) as [f|] eqn:Ef.
    - destruct (addEvent_handlers _ _ _ _ H) as [Cf Ff].
      destruct (decide (r = f)) as [->|Hne]; [apply (Cf i h Hh)|].
      destruct Hr as [->|Hr]; [|congruence].
      apply (Ch i h). rewrite <- Ff by exact Hne. exact Hh.
    - injection H as <-. destruct Hr as [->|Hr]; [|discriminate].
      apply (Ch i h Hh). }
  split; [exact O|].
  unfold click. unfold bind at 1. cbn [th_row cellIndex]. rewrite Hh. cbn [defined ret].
  rewrite O. reflexivity.
Qed.

End Handlers.

Lemma handlers_installed_witness :
  let t := {| tHead := 0; tBody := 0; tFoot := Some 1%nat |} in
  let o := prepareTables t (Some 4%nat) two_tables_page in
  let h := default (th_element "") (header_cell 1 0 (final o)) in
  o = Returned tt (final o) /\
  (1%nat = tHead t \/ tFoot t = Some 1%nat) /\
  header_cell 1 0 (final o) = Some h /\
  onclick h = Some (Some 4%nat) /\
  click code_unit_compare {| th_row := 1; cellIndex := 0 |} (final o)
  = sort code_unit_compare (Some 4%nat) {| th_row := 1; cellIndex := 0 |} (final o).
Proof.
  intros t o h.
  assert (E : o = Returned tt (final o)) by (vm_compute; reflexivity).
  assert (R : 1%nat = tHead t \/ tFoot t = Some 1%nat) by (right; reflexivity).
  assert (C : header_cell 1 0 (final o) = Some h) by (vm_compute; reflexivity).
  split; [exact E|]. split; [exact R|]. split; [exact C|].
  exact (handlers_installed code_unit_compare t (Some 4%nat) two_tables_page (final o)
           1 0 h E R C).
Defined.
